(** * Chu-Liu/Edmonds minimum spanning arborescence: model of [src/edmonds.cc]

    The solver [chuLiuEdmonds] of [src/edmonds.cc] is embedded as a Rocq
    function over an error monad.  A C++ [int] is an integer of [Z]; the
    two places where the solver computes with edge weights (lines 89 and
    121) wrap around at 32 bits, as the two's complement targets of the
    repository do (signed overflow is undefined behaviour in C++).  The
    counters and indices of the solver are bounded by the vertex count and
    by the number of edges and never leave the range of [int].  A
    [vector] is a [list]; every subscript is checked and reports
    [OutOfBounds] when it leaves the vector.  The unbounded [while] loops
    of the source run on a budget of iterations and report [OutOfFuel]
    when the budget is exhausted. *)

From Stdlib Require Import ZArith List Lia Bool Permutation Arith.
Import ListNotations.
Local Open Scope Z_scope.

(** ** Results of a run *)

Inductive res (A : Type) : Type :=
| Ok (a : A)
| OutOfBounds
| OutOfFuel.

Arguments Ok {A} a.
Arguments OutOfBounds {A}.
Arguments OutOfFuel {A}.

Definition bind {A B : Type} (m : res A) (k : A -> res B) : res B :=
  match m with
  | Ok a => k a
  | OutOfBounds => OutOfBounds
  | OutOfFuel => OutOfFuel
  end.

Notation "x <- m ;; k" := (bind m (fun x => k))
  (at level 61, m at next level, right associativity).
Notation "' p <- m ;; k" := (bind m (fun x => match x with p => k end))
  (at level 61, p pattern, m at next level, right associativity).

(** ** The type [int] *)

Definition INT_MIN : Z := - 2 ^ 31.
Definition INT_MAX : Z := 2 ^ 31 - 1.

(** The [int] that a sum or difference of two [int]s gives, [x] being its
    mathematical value. *)
Definition wrap (x : Z) : Z := (x + 2 ^ 31) mod 2 ^ 32 - 2 ^ 31.

(** ** Vectors with checked subscripts *)

Fixpoint set_nth {A : Type} (l : list A) (i : nat) (x : A) : list A :=
  match l, i with
  | [], _ => []
  | _ :: t, O => x :: t
  | h :: t, S i' => h :: set_nth t i' x
  end.

(** [v[i]] as an rvalue. *)
Definition vec_get {A : Type} (v : list A) (i : Z) : res A :=
  if i <? 0 then OutOfBounds
  else match nth_error v (Z.to_nat i) with
       | Some x => Ok x
       | None => OutOfBounds
       end.

(** [v[i] = x]. *)
Definition vec_set {A : Type} (v : list A) (i : Z) (x : A) : res (list A) :=
  if (0 <=? i) && (i <? Z.of_nat (length v))
  then Ok (set_nth v (Z.to_nat i) x)
  else OutOfBounds.

(** [fill(v.begin(), v.end(), x)]. *)
Definition fill {A : Type} (v : list A) (x : A) : list A :=
  repeat x (length v).

(** ** Loops *)

(** A loop whose body either continues with a new state ([inl]) or leaves
    the loop with a result ([inr]); [fuel] bounds the number of times the
    body is entered. *)
Fixpoint while_loop {S R : Type} (fuel : nat) (body : S -> res (S + R))
  (s : S) : res R :=
  match fuel with
  | O => OutOfFuel
  | Datatypes.S fuel' =>
      r <- body s ;;
      match r with
      | inl s' => while_loop fuel' body s'
      | inr x => Ok x
      end
  end.

(** [for (int i = start; i < start + count; i++) body]. *)
Fixpoint for_loop {S : Type} (count : nat) (i : Z) (body : Z -> S -> res S)
  (s : S) : res S :=
  match count with
  | O => Ok s
  | Datatypes.S count' => s' <- body i s ;; for_loop count' (i + 1) body s'
  end.

(** [for (int i = 0; i < n; i++) body]. *)
Definition for_upto {S : Type} (n : Z) (body : Z -> S -> res S) (s : S)
  : res S :=
  for_loop (Z.to_nat n) 0 body s.

(** ** The data model *)

Record Edge : Type := mkEdge { from : Z; to : Z; weight : Z }.

(** [for (Edge& edge : edges) body], where [k] is the position
    [&edge - &edges[0]] of the current element. *)
Fixpoint for_each {S : Type} (l : list Edge) (k : Z)
  (body : Z -> Edge -> S -> res S) (s : S) : res S :=
  match l with
  | [] => Ok s
  | edge :: l' => s' <- body k edge s ;; for_each l' (k + 1) body s'
  end.

(** The variables of [chuLiuEdmonds] that live across iterations of the
    outer loop.  [st_edges] is the caller's vector, taken by reference. *)
Record state : Type := mkState {
  st_n : Z;
  st_root : Z;
  st_edges : list Edge;
  st_minWeight : Z;
  st_inEdge : list Z;
  st_cycle : list Z;
  st_visited : list Z
}.

(** The two [return] statements of the solver. *)
Inductive exit_kind : Type :=
| ExitNoArborescence   (* line 51: return -1 *)
| ExitTotal.           (* line 94: return minWeight *)

Record outcome : Type := mkOutcome {
  out_exit : exit_kind;
  out_value : Z;
  out_edges : list Edge    (* the caller's vector when the call returns *)
}.

(** ** The phases of one iteration *)

(** Lines 43-48, body of the selection loop. *)
Definition select_body (edges : list Edge) (k : Z) (edge : Edge)
  (inEdge : list Z) : res (list Z) :=
  if from edge =? to edge then Ok inEdge
  else
    cur <- vec_get inEdge (to edge) ;;
    better <- (if cur =? -1 then Ok true
               else best <- vec_get edges cur ;;
                    Ok (weight edge <? weight best)) ;;
    if better : bool then vec_set inEdge (to edge) k else Ok inEdge.

(** Lines 50-52: [true] when the loop hits [return -1]. *)
Fixpoint check_loop (count : nat) (i : Z) (root : Z) (inEdge : list Z)
  : res bool :=
  match count with
  | O => Ok false
  | Datatypes.S count' =>
      if negb (i =? root) then
        x <- vec_get inEdge i ;;
        if x =? -1 then Ok true else check_loop count' (i + 1) root inEdge
      else check_loop count' (i + 1) root inEdge
  end.

(** Lines 62-69.  [hasCycle] is false whenever the loop condition is
    evaluated, since it is only set right before [break]; the loop leaves
    with the final [visited], [u] and [hasCycle]. *)
Definition walk_body (edges : list Edge) (inEdge : list Z)
  (s : list Z * Z) : res ((list Z * Z) + (list Z * Z * bool)) :=
  let '(visited, u) := s in
  vu <- vec_get visited u ;;
  if vu =? 2 then Ok (inr (visited, u, false))
  else if vu =? 1 then Ok (inr (visited, u, true))
  else
    visited' <- vec_set visited u 1 ;;
    k <- vec_get inEdge u ;;
    e <- vec_get edges k ;;
    Ok (inl (visited', from e)).

(** Lines 74-77, the do-while loop that labels one cycle. *)
Definition mark_body (edges : list Edge) (inEdge : list Z) (cycleId u : Z)
  (s : list Z * Z) : res ((list Z * Z) + list Z) :=
  let '(cycle, v) := s in
  cycle' <- vec_set cycle v cycleId ;;
  k <- vec_get inEdge v ;;
  e <- vec_get edges k ;;
  if from e =? u then Ok (inr cycle') else Ok (inl (cycle', from e)).

(** Lines 80-83. *)
Definition settle_body (edges : list Edge) (inEdge : list Z)
  (s : list Z * Z) : res ((list Z * Z) + list Z) :=
  let '(visited, u2) := s in
  vu <- vec_get visited u2 ;;
  if vu =? 2 then Ok (inr visited)
  else
    visited' <- vec_set visited u2 2 ;;
    k <- vec_get inEdge u2 ;;
    e <- vec_get edges k ;;
    Ok (inl (visited', from e)).

(** Lines 58-85, body of the cycle detection loop; the state is
    [(cycleCount, cycle, visited)]. *)
Definition detect_body (fuel : nat) (edges : list Edge) (inEdge : list Z)
  (i : Z) (s : Z * list Z * list Z) : res (Z * list Z * list Z) :=
  let '(cycleCount, cycle, visited) := s in
  vi <- vec_get visited i ;;
  if vi =? 0 then
    ' (visited1, u, hasCycle) <-
        while_loop fuel (walk_body edges inEdge) (visited, i) ;;
    ' (cycleCount1, cycle1) <-
        (if hasCycle : bool then
           cycle1 <- while_loop fuel
                       (mark_body edges inEdge cycleCount u) (cycle, u) ;;
           Ok (cycleCount + 1, cycle1)
         else Ok (cycleCount, cycle)) ;;
    visited2 <- while_loop fuel (settle_body edges inEdge) (visited1, i) ;;
    Ok (cycleCount1, cycle1, visited2)
  else Ok s.

(** Lines 87-91, body of the accumulation loop; [+=] is the addition of
    [int]. *)
Definition accumulate_body (root : Z) (edges : list Edge) (inEdge : list Z)
  (i : Z) (minWeight : Z) : res Z :=
  if negb (i =? root) then
    k <- vec_get inEdge i ;;
    if negb (k =? -1) then
      e <- vec_get edges k ;; Ok (wrap (minWeight + weight e))
    else Ok minWeight
  else Ok minWeight.

(** Lines 105-108. *)
Definition relabel_walk_body (edges : list Edge) (inEdge : list Z)
  (numNodes i : Z) (s : list Z * Z) : res ((list Z * Z) + list Z) :=
  let '(id, current) := s in
  if current =? i then Ok (inr id)
  else
    id' <- vec_set id current numNodes ;;
    k <- vec_get inEdge current ;;
    e <- vec_get edges k ;;
    Ok (inl (id', from e)).

(** Lines 100-113, body of the relabelling loop; the state is
    [(id, numNodes)]. *)
Definition relabel_body (fuel : nat) (edges : list Edge)
  (inEdge cycle : list Z) (i : Z) (s : list Z * Z) : res (list Z * Z) :=
  let '(id, numNodes) := s in
  c <- vec_get cycle i ;;
  if negb (c =? -1) then
    idi <- vec_get id i ;;
    if idi =? 0 then
      let numNodes' := numNodes + 1 in
      id1 <- vec_set id i numNodes' ;;
      k <- vec_get inEdge i ;;
      e <- vec_get edges k ;;
      id2 <- while_loop fuel
               (relabel_walk_body edges inEdge numNodes' i) (id1, from e) ;;
      Ok (id2, numNodes')
    else Ok (id, numNodes)
  else
    let numNodes' := numNodes + 1 in
    id1 <- vec_set id i numNodes' ;;
    Ok (id1, numNodes').

(** Lines 115-124, body of the loop that builds [contractedEdges]; [-=] is
    the subtraction of [int]. *)
Definition contract_body (edges : list Edge) (inEdge id : list Z)
  (k : Z) (edge : Edge) (contractedEdges : list Edge) : res (list Edge) :=
  iu <- vec_get id (from edge) ;;
  iv <- vec_get id (to edge) ;;
  let u := iu - 1 in
  let v := iv - 1 in
  if negb (u =? v) then
    sel <- vec_get inEdge (to edge) ;;
    best <- vec_get edges sel ;;
    Ok (contractedEdges ++ [mkEdge u v (wrap (weight edge - weight best))])
  else Ok contractedEdges.

(** ** One iteration of the outer loop (lines 39-127) *)

(** Lines 39-48: the selection of a cheapest entering edge per vertex. *)
Definition select_phase (n : Z) (edges : list Edge) (inEdge : list Z)
  : res (list Z) :=
  inEdge0 <- for_upto n (fun i v => vec_set v i (-1)) inEdge ;;
  for_each edges 0 (select_body edges) inEdge0.

(** Lines 54-85: the detection of the cycles of selected edges; the
    result is [(cycleCount, cycle, visited)]. *)
Definition detect_phase (fuel : nat) (n root : Z) (edges : list Edge)
  (inEdge cycle visited : list Z) : res (Z * list Z * list Z) :=
  visited0 <- vec_set (fill visited 0) root 2 ;;
  for_upto n (detect_body fuel edges inEdge) (0, fill cycle (-1), visited0).

(** Lines 97-127: the contraction; the result is [id], [numNodes],
    [contractedEdges] and the new root. *)
Definition contract_phase (fuel : nat) (n root : Z) (edges : list Edge)
  (inEdge cycle : list Z) : res (list Z * Z * list Edge * Z) :=
  ' (id, numNodes) <-
      for_upto n (relabel_body fuel edges inEdge cycle)
        (repeat 0 (Z.to_nat n), 0) ;;
  contractedEdges <- for_each edges 0 (contract_body edges inEdge id) [] ;;
  idroot <- vec_get id root ;;
  Ok (id, numNodes, contractedEdges, idroot - 1).

Definition iteration (fuel : nat) (s : state) : res (state + outcome) :=
  let n := st_n s in
  let root := st_root s in
  let edges := st_edges s in
  inEdge <- select_phase n edges (st_inEdge s) ;;
  missing <- check_loop (Z.to_nat n) 0 root inEdge ;;
  if missing : bool then Ok (inr (mkOutcome ExitNoArborescence (-1) edges))
  else
    ' (cycleCount, cycle, visited) <-
        detect_phase fuel n root edges inEdge (st_cycle s) (st_visited s) ;;
    minWeight <- for_upto n (accumulate_body root edges inEdge)
                   (st_minWeight s) ;;
    if cycleCount =? 0 then Ok (inr (mkOutcome ExitTotal minWeight edges))
    else
      ' (id, numNodes, contractedEdges, newRoot) <-
          contract_phase fuel n root edges inEdge cycle ;;
      Ok (inl (mkState numNodes newRoot contractedEdges minWeight
                 inEdge cycle visited)).

(** ** The solver *)

(** The state at line 38, before the first iteration. *)
Definition initial_state (n root : Z) (edges : list Edge) : state :=
  mkState n root edges 0
    (repeat (-1) (Z.to_nat n)) (repeat (-1) (Z.to_nat n))
    (repeat 0 (Z.to_nat n)).

(** The outer loop, allowed [rounds] passes through its body; every inner
    [while] loop is allowed [fuel] passes. *)
Definition solver_loop (rounds fuel : nat) (s : state) : res outcome :=
  while_loop rounds (iteration fuel) s.

Definition chuLiuEdmonds_run (fuel : nat) (n root : Z) (edges : list Edge)
  : res outcome :=
  solver_loop fuel fuel (initial_state n root edges).

(** [chuLiuEdmonds(n, root, edges)]: the returned [int], and the contents
    of the caller's [edges] after the call. *)
Definition chuLiuEdmonds (fuel : nat) (n root : Z) (edges : list Edge)
  : res (Z * list Edge) :=
  o <- chuLiuEdmonds_run fuel n root edges ;;
  Ok (out_value o, out_edges o).

(** The value that signals that no arborescence exists. *)
Definition NO_ARBORESCENCE : Z := -1.

(** ** Reading the result of a run *)

Definition E (a b w : Z) : Edge := mkEdge a b w.

Definition returns (r : res (Z * list Edge)) (v : Z) : Prop :=
  match r with Ok (x, _) => x = v | _ => False end.

(** ** Graphs, reachability and arborescences *)

(** The preconditions of the solver: a positive vertex count, a root that
    is a vertex, edges between vertices. *)
Definition wf_input (n root : Z) (edges : list Edge) : Prop :=
  1 <= n /\ 0 <= root < n /\
  forall e, In e edges -> 0 <= from e < n /\ 0 <= to e < n.

(** The vertices [0, ..., n-1], and those other than the root. *)
Definition vertices (n : Z) : list Z := map Z.of_nat (seq 0 (Z.to_nat n)).

Definition nonroot (n root : Z) : list Z :=
  filter (fun v => negb (v =? root)) (vertices n).

(** [reach edges r v]: there is a directed path from [r] to [v]. *)
Inductive reach (edges : list Edge) (r : Z) : Z -> Prop :=
| reach_refl : reach edges r r
| reach_edge (e : Edge) :
    reach edges r (from e) -> In e edges -> reach edges r (to e).

(** [path edges u v]: there is a directed path with at least one edge from
    [u] to [v]. *)
Inductive path (edges : list Edge) (u : Z) : Z -> Prop :=
| path_one (e : Edge) : In e edges -> from e = u -> path edges u (to e)
| path_more (e : Edge) :
    path edges u (from e) -> In e edges -> path edges u (to e).

(** A set of edges with exactly one edge entering each vertex other than
    the root is given by the map [A] from a vertex to the edge entering it.
    [climbs A root v]: going from [v] to the source of the edge entering
    it, again and again, arrives at the root. *)
Inductive climbs (A : Z -> Edge) (root : Z) : Z -> Prop :=
| climbs_root : climbs A root root
| climbs_step (v : Z) :
    v <> root -> climbs A root (from (A v)) -> climbs A root v.

(** A spanning arborescence rooted at [root]: every vertex other than the
    root has one entering edge [A v], taken from the graph, and every
    vertex is reached from the root along these edges. *)
Definition arborescence (n root : Z) (edges : list Edge) (A : Z -> Edge)
  : Prop :=
  (forall v, 0 <= v < n -> v <> root -> In (A v) edges /\ to (A v) = v) /\
  (forall v, 0 <= v < n -> climbs A root v).

Definition zsum {X : Type} (f : X -> Z) (l : list X) : Z :=
  fold_right (fun x acc => f x + acc) 0 l.

(** The total weight of the edges of [A]. *)
Definition arb_weight (n root : Z) (A : Z -> Edge) : Z :=
  zsum (fun v => weight (A v)) (nonroot n root).

(** [w] is the minimum total weight over all spanning arborescences rooted
    at [root]. *)
Definition min_arb_weight (n root : Z) (edges : list Edge) (w : Z) : Prop :=
  (exists A, arborescence n root edges A /\ arb_weight n root A = w) /\
  (forall A, arborescence n root edges A -> w <= arb_weight n root A).

(** Every vertex is reached from the root. *)
Definition all_reachable (n root : Z) (edges : list Edge) : Prop :=
  forall v, 0 <= v < n -> reach edges root v.

(** ** One contraction, as a relation between two graphs *)

(** [selected sel]: [sel v] is a cheapest edge entering [v] from another
    vertex. *)
Definition selected (n root : Z) (edges : list Edge) (sel : Z -> Edge)
  : Prop :=
  forall v, 0 <= v < n -> v <> root ->
    In (sel v) edges /\ to (sel v) = v /\ from (sel v) <> v /\
    forall e, In e edges -> to e = v -> from e <> v ->
      weight (sel v) <= weight e.

(** [same_class sel idf u v]: following selected edges backwards from [u]
    leads to [v] without leaving the class of [u]. *)
Inductive same_class (sel : Z -> Edge) (idf : Z -> Z) : Z -> Z -> Prop :=
| same_class_refl (v : Z) : same_class sel idf v v
| same_class_step (u v : Z) :
    idf (from (sel u)) = idf u ->
    same_class sel idf (from (sel u)) v ->
    same_class sel idf u v.

(** The edge of the contracted graph that comes from [e]. *)
Definition contract_edge (sel : Z -> Edge) (idf : Z -> Z) (e : Edge) : Edge :=
  mkEdge (idf (from e)) (idf (to e)) (weight e - weight (sel (to e))).

(** The edges that survive the contraction. *)
Definition crossing (idf : Z -> Z) (e : Edge) : bool :=
  negb (idf (from e) =? idf (to e)).

Definition contracted_edges (sel : Z -> Edge) (idf : Z -> Z)
  (edges : list Edge) : list Edge :=
  map (contract_edge sel idf) (filter (crossing idf) edges).

(** [(n', idf root, contracted_edges ...)] is the graph [(n, root, edges)]
    with the classes of [idf] contracted: [idf] maps the old vertices onto
    the new ones, the root is alone in its class, and a class with more
    than one vertex lies on a cycle of selected edges. *)
Definition contraction (n root : Z) (edges : list Edge) (sel : Z -> Edge)
  (idf : Z -> Z) (n' : Z) : Prop :=
  selected n root edges sel /\
  (forall v, 0 <= v < n -> 0 <= idf v < n') /\
  (forall x, 0 <= x < n' -> exists v, 0 <= v < n /\ idf v = x) /\
  (forall v, 0 <= v < n -> idf v = idf root -> v = root) /\
  (forall u v, 0 <= u < n -> 0 <= v < n -> idf u = idf v ->
     same_class sel idf u v).

(** ** Going back from the contracted graph *)

Definition Edge_eq_dec (a b : Edge) : {a = b} + {a <> b}.
Proof. decide equality; apply Z.eq_dec. Defined.

(** An edge of the graph that [contract_edge] maps to [e']. *)
Definition preimage (sel : Z -> Edge) (idf : Z -> Z) (edges : list Edge)
  (e' : Edge) : Edge :=
  match find (fun e => crossing idf e &&
                       if Edge_eq_dec (contract_edge sel idf e) e'
                       then true else false) edges with
  | Some e => e
  | None => mkEdge 0 0 0
  end.

(** The arborescence of the graph obtained from an arborescence [A'] of
    the contracted graph: a class is entered by the edge that [A'] enters
    it with, and its other vertices keep their selected edge. *)
Definition expand (sel : Z -> Edge) (idf : Z -> Z) (edges : list Edge)
  (A' : Z -> Edge) (v : Z) : Edge :=
  let e := preimage sel idf edges (A' (idf v)) in
  if to e =? v then e else sel v.

(** Replace the edge entering [b]. *)
Definition attach (A : Z -> Edge) (b : Z) (e : Edge) (v : Z) : Edge :=
  if v =? b then e else A v.

(** ** Reading the vectors of the solver *)

(** The element at index [i], with a default outside the vector. *)
Definition rd (v : list Z) (i : Z) : Z := nth (Z.to_nat i) v 0.

Definition upd (v : list Z) (i x : Z) : list Z := set_nth v (Z.to_nat i) x.

Definition edge_at (edges : list Edge) (k : Z) : Edge :=
  nth (Z.to_nat k) edges (mkEdge 0 0 0).

(** [edges[inEdge[v]]], the edge selected for [v]. *)
Definition sel_of (edges : list Edge) (inEdge : list Z) (v : Z) : Edge :=
  edge_at edges (rd inEdge v).

(** [edges[inEdge[v]].from], the vertex that the selected edge of [v]
    comes from. *)
Definition par (edges : list Edge) (inEdge : list Z) (v : Z) : Z :=
  from (sel_of edges inEdge v).

(** The new index of [v], [id[v] - 1]. *)
Definition idf_of (id : list Z) (v : Z) : Z := rd id v - 1.

(** [orbit p u v]: applying [p] to [u] some number of times gives [v]. *)
Inductive orbit (p : Z -> Z) : Z -> Z -> Prop :=
| orbit_refl (u : Z) : orbit p u u
| orbit_next (u v : Z) : orbit p (p u) v -> orbit p u v.

(** [seg p a u l]: [l] lists [a], [p a], [p (p a)], ... up to the vertex
    before [u]. *)
Inductive seg (p : Z -> Z) : Z -> Z -> list Z -> Prop :=
| seg_nil (u : Z) : seg p u u []
| seg_cons (a u : Z) (l : list Z) : seg p (p a) u l -> seg p a u (a :: l).

(** What the selection loop has established once it has gone through the
    edges [done]. *)
Definition selection_inv (n : Z) (edges done : list Edge) (inEdge : list Z)
  : Prop :=
  forall v, 0 <= v < n ->
    (rd inEdge v = -1 /\ forall e, In e done -> to e = v -> from e = v) \/
    (0 <= rd inEdge v < Z.of_nat (length done) /\
     to (sel_of edges inEdge v) = v /\
     from (sel_of edges inEdge v) <> v /\
     forall e, In e done -> to e = v -> from e <> v ->
       weight (sel_of edges inEdge v) <= weight e).

(** What the walk of lines 62-69 has established when it stands at [u],
    having marked the vertices of [chain]. *)
Definition walk_inv (n : Z) (p : Z -> Z) (visited0 : list Z) (i : Z) (chain : list Z)
  (s : list Z * Z) : Prop :=
  let '(visited, u) := s in
  seg p i u chain /\ NoDup chain /\
  (forall v, In v chain -> 0 <= v < n /\ rd visited0 v = 0) /\
  0 <= u < n /\
  length visited = length visited0 /\
  (forall v, In v chain -> rd visited v = 1) /\
  (forall v, 0 <= v -> ~ In v chain -> rd visited v = rd visited0 v).

(** What the cycle detection loop of lines 58-85 has established when it
    arrives at vertex [i]: [p] is the map from a vertex to the source of
    its selected edge. *)
Record detect_inv (n root : Z) (p : Z -> Z) (i cycleCount : Z)
  (cycle visited : list Z) : Prop := mkDetectInv {
  di_len_cycle : n <= Z.of_nat (length cycle);
  di_len_visited : n <= Z.of_nat (length visited);
  di_settled : forall v, 0 <= v < n -> rd visited v = 0 \/ rd visited v = 2;
  di_root : rd visited root = 2;
  di_done : forall v, 0 <= v < n -> v < i -> rd visited v = 2;
  di_closed : forall v, 0 <= v < n -> rd visited v = 2 -> v <> root ->
    rd visited (p v) = 2;
  di_leads : forall v, 0 <= v < n -> rd visited v = 2 ->
    orbit p v root \/
    exists c, 0 <= c < n /\ rd cycle c <> -1 /\ orbit p v c;
  di_count : 0 <= cycleCount;
  di_ids : forall v, 0 <= v < n ->
    rd cycle v = -1 \/ 0 <= rd cycle v < cycleCount;
  di_some : 0 < cycleCount -> exists v, 0 <= v < n /\ rd cycle v <> -1;
  di_cycle : forall v, 0 <= v < n -> rd cycle v <> -1 ->
    v <> root /\ rd visited v = 2 /\ rd cycle (p v) = rd cycle v;
  di_same : forall u v, 0 <= u < n -> 0 <= v < n ->
    rd cycle u <> -1 -> rd cycle u = rd cycle v -> orbit p u v
}.

(** What the relabelling loop of lines 100-113 has established when it
    arrives at vertex [i]. *)
Record relabel_inv (n : Z) (p : Z -> Z) (cycle : list Z) (i : Z)
  (id : list Z) (numNodes : Z) : Prop := mkRelabelInv {
  ri_len : Z.of_nat (length id) = n;
  ri_count : 0 <= numNodes <= i;
  ri_range : forall v, 0 <= v < n -> 0 <= rd id v <= numNodes;
  ri_done : forall v, 0 <= v < n -> v < i -> 1 <= rd id v;
  ri_closed : forall v, 0 <= v < n -> rd id v <> 0 -> rd cycle v <> -1 ->
    rd id (p v) = rd id v;
  ri_class : forall u v, 0 <= u < n -> 0 <= v < n ->
    rd id u <> 0 -> rd id u = rd id v ->
    u = v \/ (rd cycle u <> -1 /\ rd cycle u = rd cycle v);
  ri_onto : forall x, 1 <= x <= numNodes ->
    exists v, 0 <= v < n /\ rd id v = x;
  ri_merge : forall u v, 0 <= u < n -> 0 <= v < n -> u < v -> v < i ->
    rd id u = rd id v -> numNodes < i;
  ri_fresh : forall v, 0 <= v < n -> rd id v <> 0 ->
    v < i \/ rd cycle v <> -1
}.

(** ** The state of the outer loop *)

(** The snapshot satisfies the preconditions and the working vectors are
    at least as long as the vertex count. *)
Definition state_ok (s : state) : Prop :=
  wf_input (st_n s) (st_root s) (st_edges s) /\
  st_n s <= Z.of_nat (length (st_inEdge s)) /\
  st_n s <= Z.of_nat (length (st_cycle s)) /\
  st_n s <= Z.of_nat (length (st_visited s)).

(** The sum of the selected weights, which one iteration adds to
    [minWeight]. *)
Definition selected_weight (n root : Z) (sel : Z -> Edge) : Z :=
  zsum (fun v => weight (sel v)) (nonroot n root).

(** What one iteration does to the state [s]. *)
Definition iteration_post (s : state) (r : state + outcome) : Prop :=
  let n := st_n s in
  let root := st_root s in
  let edges := st_edges s in
  match r with
  | inr o =>
      out_edges o = edges /\
      match out_exit o with
      | ExitNoArborescence =>
          out_value o = -1 /\
          exists v, 0 <= v < n /\ v <> root /\
                    forall e, In e edges -> to e = v -> from e = v
      | ExitTotal =>
          exists sel,
            selected n root edges sel /\
            (forall v, 0 <= v < n -> climbs sel root v) /\
            out_value o = st_minWeight s + selected_weight n root sel
      end
  | inl s' =>
      state_ok s' /\ st_n s' < n /\
      exists sel idf,
        contraction n root edges sel idf (st_n s') /\
        st_root s' = idf root /\
        st_edges s' = contracted_edges sel idf edges /\
        st_minWeight s' = st_minWeight s + selected_weight n root sel /\
        (forall e, In e edges -> from e <> to e ->
           In (sel (to e)) edges /\ weight (sel (to e)) <= weight e) /\
        exists v, 0 <= v < n /\ v <> root /\ idf (from (sel v)) = idf v
  end.

(** What a run of the outer loop from the state [s] returns. *)
Definition solver_post (s : state) (o : outcome) : Prop :=
  let n := st_n s in
  let root := st_root s in
  let edges := st_edges s in
  (out_exit o = ExitTotal /\
   min_arb_weight n root edges (out_value o - st_minWeight s)) \/
  (out_exit o = ExitNoArborescence /\ out_value o = -1 /\
   exists v, 0 <= v < n /\ v <> root /\ ~ reach edges root v).

(** ** Runs on different budgets *)

(** [fuel_le r r']: [r'] is the result [r] of a run on a smaller budget, or
    that run ran out of fuel. *)
Definition fuel_le {A : Type} (r r' : res A) : Prop :=
  r = OutOfFuel \/ r = r'.

(** ** Checking the preconditions of an input *)

Definition in_range (n v : Z) : bool := (0 <=? v) && (v <? n).

Definition wf_inputb (n root : Z) (edges : list Edge) : bool :=
  (1 <=? n) && in_range n root &&
  forallb (fun e => in_range n (from e) && in_range n (to e)) edges.

(** ** Trees *)

(** No vertex lies on a directed cycle. *)
Definition acyclic (edges : list Edge) : Prop :=
  forall v, ~ path edges v v.

(** The edges that enter [v]. *)
Definition entering (edges : list Edge) (v : Z) : list Edge :=
  filter (fun e => to e =? v) edges.

(** An acyclic graph in which every vertex other than the root has
    exactly one entering edge. *)
Definition pure_tree (n root : Z) (edges : list Edge) : Prop :=
  acyclic edges /\
  forall v, 0 <= v < n -> v <> root -> length (entering edges v) = 1%nat.

(** A spanning arborescence given by the list [T] of its edges: the edges
    are edges of the graph, exactly one of them enters each vertex other
    than the root, none enters the root, and every vertex is reached from
    the root along them. *)
Definition arborescence_edges (n root : Z) (edges T : list Edge) : Prop :=
  incl T edges /\
  (forall v, 0 <= v < n -> v <> root -> length (entering T v) = 1%nat) /\
  entering T root = [] /\
  (forall v, 0 <= v < n -> reach T root v).

(** The map from a vertex to the edge of [T] that enters it. *)
Definition entering_edge (T : list Edge) (v : Z) : Edge :=
  hd (mkEdge 0 0 0) (entering T v).

(** The selected edge of a vertex is the first of the cheapest edges that
    enter it: every candidate before it in the list is strictly heavier. *)
Definition selection_first (n : Z) (edges : list Edge) (inEdge : list Z)
  : Prop :=
  forall v j, 0 <= v < n -> rd inEdge v <> -1 -> 0 <= j < rd inEdge v ->
    to (edge_at edges j) = v -> from (edge_at edges j) <> v ->
    weight (sel_of edges inEdge v) < weight (edge_at edges j).

(** The edge [e] with [c] added to its weight. *)
Definition shift (c : Z) (e : Edge) : Edge :=
  mkEdge (from e) (to e) (weight e + c).

(** ** The range of [int] *)

Definition in_int (x : Z) : Prop := INT_MIN <= x <= INT_MAX.

(** The edge [e] with its weight reduced to an [int]. *)
Definition wrap_edge (e : Edge) : Edge :=
  mkEdge (from e) (to e) (wrap (weight e)).

(** No weight is larger than [W] in absolute value. *)
Definition weights_within (W : Z) (edges : list Edge) : Prop :=
  forall e, In e edges -> - W <= weight e <= W.

(** No two weights differ by more than [D]. *)
Definition spread (D : Z) (edges : list Edge) : Prop :=
  forall e1 e2, In e1 edges -> In e2 edges -> weight e1 - weight e2 <= D.

(** ** The solver and its reference *)

(** Two results of the same kind, related by [R] when they are values. *)
Definition res_sim {A B : Type} (R : A -> B -> Prop) (rx : res A) (r : res B)
  : Prop :=
  match rx, r with
  | Ok a, Ok b => R a b
  | OutOfBounds, OutOfBounds => True
  | OutOfFuel, OutOfFuel => True
  | _, _ => False
  end.

(** Two states that differ at most in [minWeight], and there by a multiple
    of [2^32]. *)
Definition state_sim (sx s : state) : Prop :=
  st_n s = st_n sx /\ st_root s = st_root sx /\
  st_edges s = st_edges sx /\
  st_inEdge s = st_inEdge sx /\ st_cycle s = st_cycle sx /\
  st_visited s = st_visited sx /\
  wrap (st_minWeight s) = wrap (st_minWeight sx).

(** What an iteration of the reference, [rx], and an iteration of the
    solver, [r], give from two such states: the same exit; in the next
    snapshot the same vertices, and the same edges up to the reduction of
    the weights to [int]; the same total up to a multiple of [2^32]. *)
Definition step_sim (rx r : state + outcome) : Prop :=
  match rx, r with
  | inl sx', inl s' =>
      st_n s' = st_n sx' /\ st_root s' = st_root sx' /\
      st_edges s' = map wrap_edge (st_edges sx') /\
      st_inEdge s' = st_inEdge sx' /\ st_cycle s' = st_cycle sx' /\
      st_visited s' = st_visited sx' /\
      wrap (st_minWeight s') = wrap (st_minWeight sx')
  | inr ox, inr o =>
      out_exit o = out_exit ox /\ out_edges o = out_edges ox /\
      wrap (out_value o) = wrap (out_value ox) /\
      (out_exit ox = ExitNoArborescence -> out_value o = out_value ox)
  | _, _ => False
  end.

(** What a run of the outer loop from the state [s] returns, as far as
    the weights are not concerned. *)
Definition solver_reach (s : state) (o : outcome) : Prop :=
  (out_exit o = ExitTotal /\
   all_reachable (st_n s) (st_root s) (st_edges s)) \/
  (out_exit o = ExitNoArborescence /\ out_value o = -1 /\
   exists v, 0 <= v < st_n s /\ v <> st_root s /\
             ~ reach (st_edges s) (st_root s) v).

(** ** The solver over unbounded integers *)

(** The same computation with the two weight operations carried out in
    [Z].  It is the reference that the solver is compared with: the two
    agree as long as no weight operation overflows. *)

Definition accumulate_exact (root : Z) (edges : list Edge) (inEdge : list Z)
  (i : Z) (minWeight : Z) : res Z :=
  if negb (i =? root) then
    k <- vec_get inEdge i ;;
    if negb (k =? -1) then
      e <- vec_get edges k ;; Ok (minWeight + weight e)
    else Ok minWeight
  else Ok minWeight.

Definition contract_exact (edges : list Edge) (inEdge id : list Z)
  (k : Z) (edge : Edge) (contractedEdges : list Edge) : res (list Edge) :=
  iu <- vec_get id (from edge) ;;
  iv <- vec_get id (to edge) ;;
  let u := iu - 1 in
  let v := iv - 1 in
  if negb (u =? v) then
    sel <- vec_get inEdge (to edge) ;;
    best <- vec_get edges sel ;;
    Ok (contractedEdges ++ [mkEdge u v (weight edge - weight best)])
  else Ok contractedEdges.

Definition contract_phase_exact (fuel : nat) (n root : Z) (edges : list Edge)
  (inEdge cycle : list Z) : res (list Z * Z * list Edge * Z) :=
  ' (id, numNodes) <-
      for_upto n (relabel_body fuel edges inEdge cycle)
        (repeat 0 (Z.to_nat n), 0) ;;
  contractedEdges <- for_each edges 0 (contract_exact edges inEdge id) [] ;;
  idroot <- vec_get id root ;;
  Ok (id, numNodes, contractedEdges, idroot - 1).

Definition iteration_exact (fuel : nat) (s : state)
  : res (state + outcome) :=
  let n := st_n s in
  let root := st_root s in
  let edges := st_edges s in
  inEdge <- select_phase n edges (st_inEdge s) ;;
  missing <- check_loop (Z.to_nat n) 0 root inEdge ;;
  if missing : bool then Ok (inr (mkOutcome ExitNoArborescence (-1) edges))
  else
    ' (cycleCount, cycle, visited) <-
        detect_phase fuel n root edges inEdge (st_cycle s) (st_visited s) ;;
    minWeight <- for_upto n (accumulate_exact root edges inEdge)
                   (st_minWeight s) ;;
    if cycleCount =? 0 then Ok (inr (mkOutcome ExitTotal minWeight edges))
    else
      ' (id, numNodes, contractedEdges, newRoot) <-
          contract_phase_exact fuel n root edges inEdge cycle ;;
      Ok (inl (mkState numNodes newRoot contractedEdges minWeight
                 inEdge cycle visited)).

Definition solver_loop_exact (rounds fuel : nat) (s : state) : res outcome :=
  while_loop rounds (iteration_exact fuel) s.

Definition chuLiuEdmonds_run_exact (fuel : nat) (n root : Z)
  (edges : list Edge) : res outcome :=
  solver_loop_exact fuel fuel (initial_state n root edges).
(** * Properties *)

(** * The test cases of [testChuLiuEdmonds] *)

Example test_case_1 :
  returns (chuLiuEdmonds 3 3 0 [E 0 1 10; E 0 2 5]) 15.
Proof. vm_compute. reflexivity. Qed.

Example test_case_2 :
  returns (chuLiuEdmonds 3 3 0 [E 0 1 10; E 1 2 20; E 2 1 5]) 30.
Proof. vm_compute. reflexivity. Qed.

Example test_case_3 :
  returns (chuLiuEdmonds 3 3 0 [E 0 1 10]) (-1).
Proof. vm_compute. reflexivity. Qed.

Example test_case_4 :
  returns (chuLiuEdmonds 3 3 0 [E 1 0 10; E 1 2 5]) (-1).
Proof. vm_compute. reflexivity. Qed.

Example test_case_5 :
  returns (chuLiuEdmonds 4 4 0
             [E 0 1 10; E 1 2 10; E 2 3 10; E 3 1 10; E 0 3 30]) 30.
Proof. vm_compute. reflexivity. Qed.

Example test_case_6 :
  returns (chuLiuEdmonds 4 4 0 [E 0 1 10; E 2 3 5]) (-1).
Proof. vm_compute. reflexivity. Qed.

Example test_case_7 : returns (chuLiuEdmonds 1 1 0 []) 0.
Proof. vm_compute. reflexivity. Qed.

Example test_case_8 : returns (chuLiuEdmonds 2 2 0 [E 0 1 5]) 5.
Proof. vm_compute. reflexivity. Qed.

Example test_case_9 : returns (chuLiuEdmonds 2 2 0 []) (-1).
Proof. vm_compute. reflexivity. Qed.

Example test_case_10 :
  returns (chuLiuEdmonds 3 3 0 [E 0 1 10; E 1 2 (-5); E 0 2 8]) 5.
Proof. vm_compute. reflexivity. Qed.

Example test_case_11 :
  returns (chuLiuEdmonds 3 3 0 [E 0 1 10; E 1 2 5; E 2 1 (-8)]) 15.
Proof. vm_compute. reflexivity. Qed.

Example test_case_12 :
  returns (chuLiuEdmonds 4 4 0
             [E 0 1 10; E 0 2 12; E 1 2 5; E 2 1 3; E 0 3 20]) 35.
Proof. vm_compute. reflexivity. Qed.

Example test_case_13 :
  returns (chuLiuEdmonds 5 5 4
             [E 4 0 10; E 0 1 5; E 1 0 6; E 4 2 12; E 2 3 7; E 3 2 8;
              E 4 1 18; E 4 3 22]) 34.
Proof. vm_compute. reflexivity. Qed.

(** The graph of [runChuLiuEdmondsSample]. *)
Example sample_run :
  returns (chuLiuEdmonds 5 5 0
             [E 0 1 4; E 0 2 2; E 1 2 5; E 2 3 2; E 3 4 3; E 4 3 1]) 11.
Proof. vm_compute. reflexivity. Qed.

(** * Sums over lists *)

Lemma zsum_app {X : Type} (f : X -> Z) (l1 l2 : list X) :
  zsum f (l1 ++ l2) = zsum f l1 + zsum f l2.
Proof. induction l1 as [|x l1 IH]; simpl; lia. Qed.

Lemma zsum_ext {X : Type} (f g : X -> Z) (l : list X) :
  (forall x, In x l -> f x = g x) -> zsum f l = zsum g l.
Proof.
  induction l as [|x l IH]; simpl; intros H; [reflexivity|].
  rewrite (H x) by (now left). rewrite IH; [reflexivity|].
  intros y Hy. apply H. now right.
Qed.

Lemma zsum_plus {X : Type} (f g : X -> Z) (l : list X) :
  zsum (fun x => f x + g x) l = zsum f l + zsum g l.
Proof. induction l as [|x l IH]; simpl; lia. Qed.

Lemma zsum_zero {X : Type} (f : X -> Z) (l : list X) :
  (forall x, In x l -> f x = 0) -> zsum f l = 0.
Proof.
  induction l as [|x l IH]; simpl; intros H; [reflexivity|].
  rewrite (H x) by (now left). rewrite IH; [reflexivity|].
  intros y Hy. apply H. now right.
Qed.

Lemma zsum_nonneg {X : Type} (f : X -> Z) (l : list X) :
  (forall x, In x l -> 0 <= f x) -> 0 <= zsum f l.
Proof.
  induction l as [|x l IH]; simpl; intros H; [lia|].
  assert (0 <= f x) by (apply H; now left).
  assert (0 <= zsum f l) by (apply IH; intros y Hy; apply H; now right).
  lia.
Qed.

Lemma zsum_le {X : Type} (f g : X -> Z) (l : list X) :
  (forall x, In x l -> f x <= g x) -> zsum f l <= zsum g l.
Proof.
  induction l as [|x l IH]; simpl; intros H; [lia|].
  assert (f x <= g x) by (apply H; now left).
  assert (zsum f l <= zsum g l) by (apply IH; intros y Hy; apply H; now right).
  lia.
Qed.

Lemma zsum_perm {X : Type} (f : X -> Z) (l1 l2 : list X) :
  Permutation l1 l2 -> zsum f l1 = zsum f l2.
Proof. induction 1; simpl; lia. Qed.

Lemma zsum_map {X Y : Type} (f : Y -> Z) (g : X -> Y) (l : list X) :
  zsum f (map g l) = zsum (fun x => f (g x)) l.
Proof. induction l as [|x l IH]; simpl; [reflexivity|]. now rewrite IH. Qed.

Lemma zsum_filter {X : Type} (f : X -> Z) (p : X -> bool) (l : list X) :
  zsum f (filter p l) = zsum (fun x => if p x then f x else 0) l.
Proof.
  induction l as [|x l IH]; simpl; [reflexivity|].
  destruct (p x); simpl; lia.
Qed.

(** A sum of non-negative terms dominates the sum over any family of
    distinct indices that selects some of its terms. *)
Lemma zsum_select_le {X Y : Type} (h : X -> Y) (g' : Y -> Z) (g : X -> Z)
  (l' : list Y) :
  NoDup l' ->
  forall l : list X,
    (forall v, In v l -> 0 <= g v) ->
    (forall x, In x l' -> exists v, In v l /\ h v = x /\ g' x = g v) ->
    zsum g' l' <= zsum g l.
Proof.
  induction 1 as [|x l' Hx Hnd IH]; intros l Hpos Hsel; simpl.
  - now apply zsum_nonneg.
  - destruct (Hsel x) as (v & Hv & Hhv & Hg); [now left|].
    destruct (in_split _ _ Hv) as (l1 & l2 & ->).
    rewrite zsum_app. simpl.
    assert (Hrest : zsum g' l' <= zsum g (l1 ++ l2)).
    { apply IH.
      - intros y Hy. apply Hpos. apply in_app_iff in Hy. apply in_app_iff.
        simpl. tauto.
      - intros y Hy. destruct (Hsel y) as (u & Hu & Hhu & Hgu); [now right|].
        exists u. split; [|now split].
        apply in_app_iff in Hu. apply in_app_iff. simpl in Hu.
        destruct Hu as [Hu|[Hu|Hu]]; [now left| |now right].
        subst u. exfalso. apply Hx. now rewrite <- Hhv, Hhu. }
    rewrite zsum_app in Hrest. lia.
Qed.

(** * Vertices *)

Lemma in_vertices (n v : Z) : In v (vertices n) <-> 0 <= v < n.
Proof.
  unfold vertices. rewrite in_map_iff. split.
  - intros (k & <- & Hk). apply in_seq in Hk. lia.
  - intros H. exists (Z.to_nat v). split; [lia|]. apply in_seq. lia.
Qed.

Lemma NoDup_vertices (n : Z) : NoDup (vertices n).
Proof.
  unfold vertices. apply Finite.Injective_map_NoDup.
  - intros a b Hab. lia.
  - apply seq_NoDup.
Qed.

Lemma length_vertices (n : Z) : length (vertices n) = Z.to_nat n.
Proof. unfold vertices. now rewrite length_map, length_seq. Qed.

Lemma in_nonroot (n root v : Z) :
  In v (nonroot n root) <-> 0 <= v < n /\ v <> root.
Proof.
  unfold nonroot. rewrite filter_In, in_vertices, negb_true_iff, Z.eqb_neq.
  tauto.
Qed.

Lemma NoDup_nonroot (n root : Z) : NoDup (nonroot n root).
Proof. apply NoDup_filter, NoDup_vertices. Qed.

Lemma vertices_succ (n : Z) :
  0 <= n -> vertices (n + 1) = vertices n ++ [n].
Proof.
  intros Hn. unfold vertices.
  replace (Z.to_nat (n + 1)) with (Z.to_nat n + 1)%nat by lia.
  rewrite seq_app, map_app. simpl. f_equal. f_equal. lia.
Qed.

Lemma nonroot_sum (f : Z -> Z) (n root : Z) :
  zsum f (nonroot n root) =
  zsum (fun v => if v =? root then 0 else f v) (vertices n).
Proof.
  unfold nonroot. rewrite zsum_filter. apply zsum_ext. intros v _.
  now destruct (v =? root).
Qed.

(** * Vectors *)

Lemma length_set_nth {A : Type} (l : list A) (i : nat) (x : A) :
  length (set_nth l i x) = length l.
Proof.
  revert i. induction l as [|h t IH]; intros [|i]; simpl; auto.
Qed.

Lemma nth_set_nth_eq {A : Type} (l : list A) (i : nat) (x d : A) :
  (i < length l)%nat -> nth i (set_nth l i x) d = x.
Proof.
  revert i. induction l as [|h t IH]; intros [|i]; simpl; intros H;
    try lia; auto. apply IH. lia.
Qed.

Lemma nth_set_nth_neq {A : Type} (l : list A) (i j : nat) (x d : A) :
  i <> j -> nth j (set_nth l i x) d = nth j l d.
Proof.
  revert i j. induction l as [|h t IH]; intros [|i] [|j] H; simpl; auto;
    try lia.
Qed.

Lemma vec_get_ok {A : Type} (v : list A) (i : Z) (d : A) :
  0 <= i < Z.of_nat (length v) ->
  vec_get v i = Ok (nth (Z.to_nat i) v d).
Proof.
  intros H. unfold vec_get.
  destruct (i <? 0) eqn:Hi; [lia|].
  destruct (nth_error v (Z.to_nat i)) as [x|] eqn:Hx.
  - f_equal. symmetry. now apply nth_error_nth.
  - apply nth_error_None in Hx. lia.
Qed.

Lemma vec_set_ok {A : Type} (v : list A) (i : Z) (x : A) :
  0 <= i < Z.of_nat (length v) ->
  vec_set v i x = Ok (set_nth v (Z.to_nat i) x).
Proof.
  intros H. unfold vec_set.
  replace (0 <=? i) with true by (symmetry; apply Z.leb_le; lia).
  replace (i <? Z.of_nat (length v)) with true
    by (symmetry; apply Z.ltb_lt; lia).
  reflexivity.
Qed.

Lemma length_fill {A : Type} (v : list A) (x : A) :
  length (fill v x) = length v.
Proof. unfold fill. apply repeat_length. Qed.

Lemma nth_repeat_in {A : Type} (x d : A) (k i : nat) :
  (i < k)%nat -> nth i (repeat x k) d = x.
Proof.
  revert i. induction k as [|k IH]; intros [|i] H; simpl; try lia; auto.
  apply IH. lia.
Qed.

(** * Loop rules *)

Lemma for_loop_rule {S : Type} (I : Z -> S -> Prop)
  (body : Z -> S -> res S) (count : nat) :
  forall (i : Z) (s : S),
    I i s ->
    (forall j t, i <= j < i + Z.of_nat count -> I j t ->
       exists t', body j t = Ok t' /\ I (j + 1) t') ->
    exists t, for_loop count i body s = Ok t /\ I (i + Z.of_nat count) t.
Proof.
  induction count as [|count IH]; intros i s Hi Hbody; cbn [for_loop].
  - exists s. split; [reflexivity|]. now replace (i + Z.of_nat 0) with i by lia.
  - destruct (Hbody i s) as (t' & Ht' & HI'); [lia|assumption|].
    rewrite Ht'. cbn [bind].
    destruct (IH (i + 1) t' HI') as (t & Ht & HI).
    + intros j u Hj Hu. apply Hbody; [lia|assumption].
    + exists t. split; [assumption|].
      now replace (i + Z.of_nat (Datatypes.S count))
        with (i + 1 + Z.of_nat count) by lia.
Qed.

Lemma for_upto_rule {S : Type} (I : Z -> S -> Prop)
  (body : Z -> S -> res S) (n : Z) (s : S) :
  0 <= n ->
  I 0 s ->
  (forall j t, 0 <= j < n -> I j t ->
     exists t', body j t = Ok t' /\ I (j + 1) t') ->
  exists t, for_upto n body s = Ok t /\ I n t.
Proof.
  intros Hn H0 Hbody. unfold for_upto.
  destruct (for_loop_rule I body (Z.to_nat n) 0 s H0) as (t & Ht & HI).
  - intros j u Hj. apply Hbody. lia.
  - exists t. split; [assumption|].
    now replace n with (0 + Z.of_nat (Z.to_nat n)) by lia.
Qed.

Lemma for_each_rule_gen {S : Type} (I : list Edge -> S -> Prop)
  (body : Z -> Edge -> S -> res S) (l : list Edge) :
  forall (rest done : list Edge) (s : S),
    l = done ++ rest ->
    I done s ->
    (forall d e r t, l = d ++ e :: r -> I d t ->
       exists t', body (Z.of_nat (length d)) e t = Ok t' /\ I (d ++ [e]) t') ->
    exists t, for_each rest (Z.of_nat (length done)) body s = Ok t /\ I l t.
Proof.
  induction rest as [|e rest IH]; intros done s Hl Hi Hbody; simpl.
  - exists s. split; [reflexivity|]. subst l. now rewrite app_nil_r.
  - destruct (Hbody done e rest s Hl Hi) as (t' & Ht' & HI').
    rewrite Ht'. simpl.
    destruct (IH (done ++ [e]) t') as (t & Ht & HI); auto.
    + subst l. now rewrite <- app_assoc.
    + exists t. split; [|assumption].
      rewrite length_app in Ht. simpl in Ht.
      now replace (Z.of_nat (length done) + 1)
        with (Z.of_nat (length done + 1)) by lia.
Qed.

Lemma for_each_rule {S : Type} (I : list Edge -> S -> Prop)
  (body : Z -> Edge -> S -> res S) (l : list Edge) (s : S) :
  I [] s ->
  (forall d e r t, l = d ++ e :: r -> I d t ->
     exists t', body (Z.of_nat (length d)) e t = Ok t' /\ I (d ++ [e]) t') ->
  exists t, for_each l 0 body s = Ok t /\ I l t.
Proof.
  intros H0 Hbody.
  exact (for_each_rule_gen I body l l [] s eq_refl H0 Hbody).
Qed.

(** A loop that keeps an invariant and decreases a measure on every pass
    that continues leaves with its postcondition, given fuel above the
    measure. *)
Lemma while_loop_rule {S R : Type} (I : S -> Prop) (Q : R -> Prop)
  (m : S -> nat) (body : S -> res (S + R)) :
  (forall s, I s ->
     exists r, body s = Ok r /\
       match r with
       | inl s' => I s' /\ (m s' < m s)%nat
       | inr x => Q x
       end) ->
  forall (fuel : nat) (s : S),
    I s -> (m s < fuel)%nat ->
    exists x, while_loop fuel body s = Ok x /\ Q x.
Proof.
  intros Hbody. induction fuel as [|fuel IH]; intros s Hs Hm; [lia|].
  simpl. destruct (Hbody s Hs) as (r & Hr & Hpost). rewrite Hr. simpl.
  destruct r as [s'|x].
  - destruct Hpost as (HI' & Hlt). apply IH; [assumption|lia].
  - now exists x.
Qed.

(** The same rule with a ghost value that the invariant and the measure
    may depend on. *)
Lemma while_loop_ghost {S R G : Type} (I : G -> S -> Prop) (Q : R -> Prop)
  (m : G -> nat) (body : S -> res (S + R)) :
  (forall g s, I g s ->
     exists r, body s = Ok r /\
       match r with
       | inl s' => exists g', I g' s' /\ (m g' < m g)%nat
       | inr x => Q x
       end) ->
  forall (fuel : nat) (g : G) (s : S),
    I g s -> (m g < fuel)%nat ->
    exists x, while_loop fuel body s = Ok x /\ Q x.
Proof.
  intros Hbody. induction fuel as [|fuel IH]; intros g s Hs Hm; [lia|].
  simpl. destruct (Hbody g s Hs) as (r & Hr & Hpost). rewrite Hr. simpl.
  destruct r as [s'|x].
  - destruct Hpost as (g' & HI' & Hlt). apply (IH g'); [assumption|lia].
  - now exists x.
Qed.

Lemma NoDup_snoc {A : Type} (l : list A) (x : A) :
  NoDup l -> ~ In x l -> NoDup (l ++ [x]).
Proof.
  intros Hl Hx. apply NoDup_app; [assumption|repeat constructor; intros []|].
  intros y Hy [<-|[]]. contradiction.
Qed.
(** * Reachability and arborescences *)

Lemma reach_incl (edges1 edges2 : list Edge) (r v : Z) :
  incl edges1 edges2 -> reach edges1 r v -> reach edges2 r v.
Proof.
  intros Hincl. induction 1 as [|e Hr IH He].
  - apply reach_refl.
  - apply reach_edge; [assumption|]. now apply Hincl.
Qed.

Lemma reach_in_range (n root : Z) (edges : list Edge) (v : Z) :
  wf_input n root edges -> reach edges root v -> 0 <= v < n.
Proof.
  intros (Hn & Hroot & Hedges). induction 1 as [|e Hr IH He].
  - assumption.
  - now apply Hedges.
Qed.

(** A vertex other than the start is entered by an edge that is not a
    self-loop. *)
Lemma reach_entering (edges : list Edge) (r v : Z) :
  reach edges r v -> v <> r ->
  exists e, In e edges /\ to e = v /\ from e <> v.
Proof.
  induction 1 as [|e Hr IH He]; intros Hne; [congruence|].
  destruct (Z.eq_dec (from e) (to e)) as [Heq|Hneq].
  - rewrite Heq in IH. now apply IH.
  - exists e. auto.
Qed.

Lemma climbs_reach (n root : Z) (edges : list Edge) (A : Z -> Edge) (v : Z) :
  wf_input n root edges ->
  (forall u, 0 <= u < n -> u <> root -> In (A u) edges /\ to (A u) = u) ->
  climbs A root v -> 0 <= v < n -> reach edges root v.
Proof.
  intros Hwf HA. induction 1 as [|v Hne Hc IH]; intros Hv.
  - apply reach_refl.
  - destruct (HA v Hv Hne) as (Hin & Hto).
    rewrite <- Hto. apply reach_edge; [|assumption].
    apply IH. destruct Hwf as (_ & _ & Hedges). now apply Hedges.
Qed.

Lemma arborescence_all_reachable (n root : Z) (edges : list Edge)
  (A : Z -> Edge) :
  wf_input n root edges -> arborescence n root edges A ->
  all_reachable n root edges.
Proof.
  intros Hwf (HA & Hc) v Hv.
  apply (climbs_reach n root edges A); auto.
Qed.

(** The edge that enters a vertex of an arborescence is not a self-loop. *)
Lemma climbs_no_loop (A : Z -> Edge) (root v : Z) :
  climbs A root v -> v <> root -> from (A v) <> v.
Proof.
  induction 1 as [|v Hne Hc IH]; intros Hv; [congruence|].
  intros Heq. rewrite Heq in IH. now apply IH.
Qed.

Lemma arborescence_incl (n root : Z) (edges1 edges2 : list Edge)
  (A : Z -> Edge) :
  incl edges1 edges2 -> arborescence n root edges1 A ->
  arborescence n root edges2 A.
Proof.
  intros Hincl (HA & Hc). split; [|assumption].
  intros v Hv Hne. destruct (HA v Hv Hne). split; [|assumption].
  now apply Hincl.
Qed.

(** ** An arborescence of a graph whose vertices are all reachable *)

Section Spanning.

Variables (n root : Z) (edges : list Edge).
Hypothesis Hwf : wf_input n root edges.
Hypothesis Hreach : all_reachable n root edges.

(** A path that starts inside a set of vertices and ends outside of it
    has an edge that leaves the set. *)
Lemma reach_leaves (T : list Z) (v : Z) :
  reach edges root v -> In root T -> ~ In v T ->
  exists e, In e edges /\ In (from e) T /\ ~ In (to e) T.
Proof.
  induction 1 as [|e Hr IH He]; intros Hroot Hv; [contradiction|].
  destruct (in_dec Z.eq_dec (from e) T) as [Hin|Hout].
  - exists e. auto.
  - now apply IH.
Qed.

Lemma outside_vertex (T l : list Z) :
  (forall v, In v l -> In v T) \/ (exists v, In v l /\ ~ In v T).
Proof.
  induction l as [|a l IH].
  - left. intros v [].
  - destruct (in_dec Z.eq_dec a T) as [Ha|Ha].
    + destruct IH as [IH|(v & Hv & Hout)].
      * left. intros v [<-|Hv]; auto.
      * right. exists v. split; [now right|assumption].
    + right. exists a. split; [now left|assumption].
Qed.

Lemma climbs_attach (A : Z -> Edge) (T : list Z) (b : Z) (e : Edge) (v : Z) :
  (forall u, In u T -> u <> root -> In (from (A u)) T) ->
  ~ In b T ->
  climbs A root v -> In v T -> climbs (attach A b e) root v.
Proof.
  intros Hclosed Hb. induction 1 as [|v Hne Hc IH]; intros Hv.
  - apply climbs_root.
  - apply climbs_step; [assumption|].
    unfold attach at 2. destruct (v =? b) eqn:Hvb.
    + apply Z.eqb_eq in Hvb. subst v. contradiction.
    + apply IH. now apply Hclosed.
Qed.

Lemma grow_arborescence (k : nat) :
  forall (T : list Z) (A : Z -> Edge),
    NoDup T -> In root T ->
    (forall v, In v T -> 0 <= v < n) ->
    (forall v, In v T -> climbs A root v) ->
    (forall v, In v T -> v <> root -> In (from (A v)) T) ->
    (forall v, In v T -> v <> root -> In (A v) edges /\ to (A v) = v) ->
    (length T + k = Z.to_nat n)%nat ->
    exists A', (forall v, 0 <= v < n -> v <> root ->
                  In (A' v) edges /\ to (A' v) = v) /\
               (forall v, 0 <= v < n -> climbs A' root v).
Proof.
  induction k as [|k IH]; intros T A Hnd Hroot Hrange Hclimb Hclosed HA Hlen.
  - assert (Hall : incl (vertices n) T).
    { apply NoDup_length_incl; [assumption| |].
      - rewrite length_vertices. lia.
      - intros v Hv. apply in_vertices. now apply Hrange. }
    exists A. split; intros v Hv; [intros Hne; apply HA|apply Hclimb];
      auto; apply Hall; now apply in_vertices.
  - destruct (outside_vertex T (vertices n)) as [Hall|(v & Hv & Hout)].
    + assert (Hle := NoDup_incl_length (NoDup_vertices n) Hall).
      rewrite length_vertices in Hle. lia.
    + apply in_vertices in Hv.
      destruct (reach_leaves T v (Hreach v Hv) Hroot Hout)
        as (e & He & Hfrom & Hto).
      assert (Hb : to e <> root) by (intros Heq; apply Hto; now rewrite Heq).
      apply (IH (to e :: T) (attach A (to e) e)).
      * now constructor.
      * now right.
      * intros u [<-|Hu]; [|now apply Hrange].
        destruct Hwf as (_ & _ & Hedges). now apply Hedges.
      * intros u [<-|Hu].
        -- apply climbs_step; [assumption|].
           unfold attach at 2. rewrite Z.eqb_refl.
           apply (climbs_attach A T); auto.
        -- apply (climbs_attach A T); auto.
      * intros u [<-|Hu] Hne; unfold attach.
        -- rewrite Z.eqb_refl. now right.
        -- destruct (u =? to e) eqn:Hue.
           ++ apply Z.eqb_eq in Hue. subst u. contradiction.
           ++ right. now apply Hclosed.
      * intros u [<-|Hu] Hne; unfold attach.
        -- rewrite Z.eqb_refl. auto.
        -- destruct (u =? to e) eqn:Hue.
           ++ apply Z.eqb_eq in Hue. subst u. contradiction.
           ++ now apply HA.
      * simpl. lia.
Qed.

Lemma spanning_arborescence : exists A, arborescence n root edges A.
Proof.
  destruct Hwf as (Hn & Hroot & Hedges).
  destruct (grow_arborescence (Z.to_nat n - 1) [root] (fun _ => mkEdge 0 0 0))
    as (A & HA & Hc).
  - constructor; [intros []|constructor].
  - now left.
  - intros v [<-|[]]. assumption.
  - intros v [<-|[]]. apply climbs_root.
  - intros v [<-|[]] Hne. congruence.
  - intros v [<-|[]] Hne. congruence.
  - simpl. lia.
  - exists A. now split.
Qed.

End Spanning.
(** * Selected edges *)

(** The weight of an arborescence splits into the selected weights and the
    reduced weights of its edges, none of which is negative. *)
Lemma arb_weight_split (n root : Z) (sel A : Z -> Edge) :
  arb_weight n root A =
  zsum (fun v => weight (sel v)) (nonroot n root) +
  zsum (fun v => weight (A v) - weight (sel v)) (nonroot n root).
Proof.
  unfold arb_weight. rewrite <- zsum_plus. apply zsum_ext. intros; lia.
Qed.

Lemma reduced_nonneg (n root : Z) (edges : list Edge) (sel A : Z -> Edge)
  (v : Z) :
  selected n root edges sel -> arborescence n root edges A ->
  In v (nonroot n root) -> 0 <= weight (A v) - weight (sel v).
Proof.
  intros Hsel (HA & Hc) Hv. apply in_nonroot in Hv. destruct Hv as (Hv & Hne).
  destruct (Hsel v Hv Hne) as (_ & _ & _ & Hmin).
  destruct (HA v Hv Hne) as (Hin & Hto).
  assert (weight (sel v) <= weight (A v)); [|lia].
  apply Hmin; auto. apply (climbs_no_loop A root); auto.
Qed.

(** When the selected edges contain no cycle they are a minimum
    arborescence. *)
Lemma selected_minimum (n root : Z) (edges : list Edge) (sel : Z -> Edge) :
  selected n root edges sel ->
  (forall v, 0 <= v < n -> climbs sel root v) ->
  min_arb_weight n root edges
    (zsum (fun v => weight (sel v)) (nonroot n root)).
Proof.
  intros Hsel Hc. split.
  - exists sel. split; [|reflexivity]. split; [|assumption].
    intros v Hv Hne. destruct (Hsel v Hv Hne) as (? & ? & _). auto.
  - intros A HA. rewrite (arb_weight_split n root sel A).
    assert (0 <= zsum (fun v => weight (A v) - weight (sel v))
                   (nonroot n root)); [|lia].
    apply zsum_nonneg. intros v Hv.
    now apply (reduced_nonneg n root edges sel A).
Qed.

(** * Contraction *)

Lemma in_contracted_edges (sel : Z -> Edge) (idf : Z -> Z)
  (edges : list Edge) (e' : Edge) :
  In e' (contracted_edges sel idf edges) <->
  exists e, In e edges /\ crossing idf e = true /\
            contract_edge sel idf e = e'.
Proof.
  unfold contracted_edges. rewrite in_map_iff. split.
  - intros (e & He' & He). apply filter_In in He. exists e. tauto.
  - intros (e & He & Hcr & He'). exists e. split; [assumption|].
    apply filter_In. auto.
Qed.

Lemma preimage_spec (sel : Z -> Edge) (idf : Z -> Z) (edges : list Edge)
  (e' : Edge) :
  In e' (contracted_edges sel idf edges) ->
  In (preimage sel idf edges e') edges /\
  crossing idf (preimage sel idf edges e') = true /\
  contract_edge sel idf (preimage sel idf edges e') = e'.
Proof.
  intros He'. apply in_contracted_edges in He'.
  destruct He' as (e & He & Hcr & Hce).
  unfold preimage.
  destruct (find _ edges) as [e0|] eqn:Hfind.
  - apply find_some in Hfind. destruct Hfind as (Hin & Hp).
    apply andb_true_iff in Hp. destruct Hp as (Hcr0 & Heq).
    destruct (Edge_eq_dec (contract_edge sel idf e0) e'); [|discriminate].
    auto.
  - exfalso. apply (find_none _ _ Hfind) in He. cbv beta in He.
    rewrite Hcr in He. cbn [andb] in He.
    destruct (Edge_eq_dec (contract_edge sel idf e) e');
      [discriminate He|contradiction].
Qed.

Section Contraction.

Variables (n root : Z) (edges : list Edge).
Variables (sel : Z -> Edge) (idf : Z -> Z) (n' : Z).
Hypothesis Hwf : wf_input n root edges.
Hypothesis Hcon : contraction n root edges sel idf n'.

Let root' : Z := idf root.
Let edges' : list Edge := contracted_edges sel idf edges.
Let reduced (A : Z -> Edge) : Z :=
  zsum (fun v => weight (A v) - weight (sel v)) (nonroot n root).

Lemma contraction_wf : wf_input n' root' edges'.
Proof.
  destruct Hwf as (Hn & Hroot & Hedges).
  destruct Hcon as (_ & Hrange & _).
  assert (Hr := Hrange root Hroot).
  split; [lia|]. split; [exact Hr|].
  intros e' He'. apply in_contracted_edges in He'.
  destruct He' as (e & He & _ & <-). simpl.
  destruct (Hedges e He). split; now apply Hrange.
Qed.

(** Paths of the graph are paths of the contracted graph. *)
Lemma reach_contracted (v : Z) :
  reach edges root v -> reach edges' root' (idf v).
Proof.
  induction 1 as [|e Hr IH He]; [apply reach_refl|].
  destruct (crossing idf e) eqn:Hcr.
  - change (idf (to e)) with (to (contract_edge sel idf e)).
    apply reach_edge; [exact IH|].
    apply in_contracted_edges. exists e. auto.
  - unfold crossing in Hcr. apply negb_false_iff, Z.eqb_eq in Hcr.
    now rewrite <- Hcr.
Qed.

Lemma unreachable_contracted :
  (exists x, 0 <= x < n' /\ x <> root' /\ ~ reach edges' root' x) ->
  exists v, 0 <= v < n /\ v <> root /\ ~ reach edges root v.
Proof.
  intros (x & Hx & Hne & Hnr).
  destruct Hcon as (_ & _ & Hsurj & _).
  destruct (Hsurj x Hx) as (v & Hv & Hidv).
  exists v. split; [assumption|]. split.
  - intros ->. now apply Hne.
  - intros Hr. apply Hnr. rewrite <- Hidv. now apply reach_contracted.
Qed.

(** ** From an arborescence of the graph to one of the contracted graph *)

Lemma arborescence_contract (A : Z -> Edge) :
  arborescence n root edges A ->
  exists A', arborescence n' root' edges' A' /\
             arb_weight n' root' A' <= reduced A.
Proof.
  intros HarbA. pose proof HarbA as (HA & HcA).
  destruct Hcon as (Hsel & Hrange & Hsurj & Hrootclass & Hclass).
  pose proof Hwf as (Hn & Hroot & Hedges).
  set (TA := map A (nonroot n root)).
  set (H := contracted_edges sel idf TA).
  assert (HTA : forall e, In e TA ->
            exists v, In v (nonroot n root) /\ e = A v).
  { intros e He. apply in_map_iff in He. destruct He as (v & <- & Hv).
    now exists v. }
  assert (HTAin : incl TA edges).
  { intros e He. destruct (HTA e He) as (v & Hv & ->).
    apply in_nonroot in Hv. now apply HA. }
  assert (HH : incl H edges').
  { intros e' He'. apply in_contracted_edges in He'.
    destruct He' as (e & He & Hcr & <-). apply in_contracted_edges.
    exists e. auto. }
  assert (HwfH : wf_input n' root' H).
  { destruct contraction_wf as (Hn' & Hroot' & Hedges').
    split; [assumption|]. split; [assumption|]. intros e He.
    apply Hedges'. now apply HH. }
  assert (HreachH : all_reachable n' root' H).
  { intros x Hx. destruct (Hsurj x Hx) as (v & Hv & <-).
    pose proof (HcA v Hv) as Hc. clear Hx.
    induction Hc as [|v Hne Hc IH]; [apply reach_refl|].
    destruct (HA v Hv Hne) as (Hin & Hto).
    assert (Hfrom : 0 <= from (A v) < n) by (now apply Hedges).
    specialize (IH Hfrom).
    destruct (crossing idf (A v)) eqn:Hcr.
    - replace (idf v) with (to (contract_edge sel idf (A v)))
        by (simpl; now rewrite Hto).
      apply reach_edge; [exact IH|].
      apply in_contracted_edges. exists (A v). split; [|auto].
      apply in_map. now apply in_nonroot.
    - unfold crossing in Hcr. apply negb_false_iff, Z.eqb_eq in Hcr.
      rewrite Hto in Hcr. now rewrite <- Hcr. }
  destruct (spanning_arborescence n' root' H HwfH HreachH) as (A' & HarbA').
  exists A'. split; [now apply (arborescence_incl n' root' H)|].
  unfold arb_weight, reduced.
  apply (zsum_select_le idf).
  - apply NoDup_nonroot.
  - intros v Hv. now apply (reduced_nonneg n root edges sel A).
  - intros x Hx. apply in_nonroot in Hx. destruct Hx as (Hx & Hne).
    destruct HarbA' as (HA' & _). destruct (HA' x Hx Hne) as (Hin & Hto).
    apply in_contracted_edges in Hin. destruct Hin as (e & He & Hcr & Heq).
    destruct (HTA e He) as (v & Hv & ->).
    pose proof Hv as Hv'. apply in_nonroot in Hv'. destruct Hv' as (Hv' & Hvne).
    destruct (HA v Hv' Hvne) as (_ & HtoA).
    exists v. split; [assumption|].
    rewrite <- Heq in Hto |- *. simpl in Hto |- *. rewrite HtoA in Hto |- *.
    auto.
Qed.

(** ** From an arborescence of the contracted graph to one of the graph *)

Lemma arborescence_expand (A' : Z -> Edge) :
  arborescence n' root' edges' A' ->
  arborescence n root edges (expand sel idf edges A') /\
  reduced (expand sel idf edges A') = arb_weight n' root' A'.
Proof.
  intros (HA' & HcA').
  destruct Hcon as (Hsel & Hrange & Hsurj & Hrootclass & Hclass).
  pose proof Hwf as (Hn & Hroot & Hedges).
  set (pre := fun x => preimage sel idf edges (A' x)).
  assert (Hpre : forall x, 0 <= x < n' -> x <> root' ->
            In (pre x) edges /\ idf (from (pre x)) = from (A' x) /\
            idf (to (pre x)) = x /\ 0 <= to (pre x) < n /\
            to (pre x) <> root /\
            weight (pre x) - weight (sel (to (pre x))) = weight (A' x)).
  { intros x Hx Hne. destruct (HA' x Hx Hne) as (Hin & Hto).
    destruct (preimage_spec sel idf edges (A' x) Hin) as (Hp & Hcr & Hce).
    fold (pre x) in Hp, Hcr, Hce.
    assert (Hidto : idf (to (pre x)) = x).
    { rewrite <- Hto at 2. rewrite <- Hce. reflexivity. }
    split; [assumption|]. split; [now rewrite <- Hce|].
    split; [assumption|]. split; [now apply Hedges|]. split.
    - intros Heq. apply Hne. rewrite <- Hidto. now rewrite Heq.
    - now rewrite <- Hce. }
  assert (Hnr : forall v, 0 <= v < n -> v <> root ->
            0 <= idf v < n' /\ idf v <> root').
  { intros v Hv Hne. split; [now apply Hrange|].
    intros Heq. apply Hne. now apply Hrootclass. }
  assert (Hexp : forall v, expand sel idf edges A' v =
            if to (pre (idf v)) =? v then pre (idf v) else sel v)
    by reflexivity.
  split; [split|].
  - intros v Hv Hne. destruct (Hnr v Hv Hne) as (Hx & Hxne).
    destruct (Hpre (idf v) Hx Hxne) as (Hin & _).
    rewrite Hexp. destruct (to (pre (idf v)) =? v) eqn:Hent.
    + apply Z.eqb_eq in Hent. auto.
    + destruct (Hsel v Hv Hne) as (? & ? & _). auto.
  - intros v Hv.
    assert (Hgen : forall x, climbs A' root' x -> 0 <= x < n' ->
              forall u, 0 <= u < n -> idf u = x ->
                climbs (expand sel idf edges A') root u).
    { clear v Hv. induction 1 as [|x Hne Hc IH]; intros Hx u Hu Hidu.
      - apply Hrootclass in Hidu; [|assumption]. subst u. apply climbs_root.
      - destruct (Hpre x Hx Hne) as (Hin & Hfrom & Hto & Htr & Htne & _).
        assert (Hentry : climbs (expand sel idf edges A') root (to (pre x))).
        { apply climbs_step; [assumption|].
          rewrite Hexp, Hto, Z.eqb_refl.
          apply IH.
          - rewrite <- Hfrom. apply Hrange. now apply Hedges.
          - now apply Hedges.
          - assumption. }
        assert (Hsc : same_class sel idf u (to (pre x)))
          by (apply Hclass; auto; congruence).
        clear IH Hc. remember (to (pre x)) as t eqn:Ht.
        revert Hu Hidu.
        induction Hsc as [t|u t Hstep Hsc IHsc]; intros Hu Hidu; [assumption|].
        destruct (Z.eq_dec t u) as [->|Hut]; [assumption|].
        assert (Hune : u <> root).
        { intros ->. apply Hne. now rewrite <- Hidu. }
        apply climbs_step; [assumption|].
        rewrite Hexp, Hidu, <- Ht.
        replace (t =? u) with false
          by (symmetry; apply Z.eqb_neq; assumption).
        destruct (Hsel u Hu Hune) as (Hsin & _).
        apply IHsc; auto.
        + now apply Hedges.
        + congruence. }
    apply (Hgen (idf v)); auto.
  - unfold reduced, arb_weight.
    set (entry := fun v => to (pre (idf v)) =? v).
    transitivity (zsum (fun v => weight (A' (idf v)))
                    (filter entry (nonroot n root))).
    + rewrite zsum_filter. apply zsum_ext. intros v Hv.
      apply in_nonroot in Hv. destruct Hv as (Hv & Hne).
      destruct (Hnr v Hv Hne) as (Hx & Hxne).
      destruct (Hpre (idf v) Hx Hxne) as (_ & _ & _ & _ & _ & Hw).
      rewrite Hexp. unfold entry.
      destruct (to (pre (idf v)) =? v) eqn:Hent.
      * apply Z.eqb_eq in Hent. rewrite Hent in Hw. exact Hw.
      * lia.
    + rewrite <- (zsum_map (fun x => weight (A' x)) idf).
      apply zsum_perm. apply NoDup_Permutation.
      * apply Finite.Injective_map_NoDup_in.
        -- intros a b Ha Hb Hab. apply filter_In in Ha, Hb.
           destruct Ha as (_ & Ha), Hb as (_ & Hb). unfold entry in Ha, Hb.
           apply Z.eqb_eq in Ha, Hb. congruence.
        -- apply NoDup_filter, NoDup_nonroot.
      * apply NoDup_nonroot.
      * intros x. rewrite in_map_iff. split.
        -- intros (v & <- & Hv). apply filter_In in Hv.
           destruct Hv as (Hv & _). apply in_nonroot in Hv.
           apply in_nonroot. now apply Hnr.
        -- intros Hx. apply in_nonroot in Hx. destruct Hx as (Hx & Hne).
           destruct (Hpre x Hx Hne) as (_ & _ & Hto & Htr & Htne & _).
           exists (to (pre x)). split; [assumption|].
           apply filter_In. split; [now apply in_nonroot|].
           unfold entry. rewrite Hto. apply Z.eqb_refl.
Qed.

(** ** The minimum weight before and after a contraction *)

Theorem contraction_minimum (w' : Z) :
  min_arb_weight n' root' edges' w' ->
  min_arb_weight n root edges
    (zsum (fun v => weight (sel v)) (nonroot n root) + w').
Proof.
  intros ((A' & HarbA' & HwA') & Hmin). split.
  - destruct (arborescence_expand A' HarbA') as (Harb & Hred).
    exists (expand sel idf edges A'). split; [assumption|].
    rewrite (arb_weight_split n root sel). unfold reduced in Hred. lia.
  - intros A HarbA.
    destruct (arborescence_contract A HarbA) as (A'' & HarbA'' & Hle).
    specialize (Hmin A'' HarbA'').
    rewrite (arb_weight_split n root sel). unfold reduced in Hle. lia.
Qed.

End Contraction.
(** * Arborescences as lists of edges *)

Lemma zsum_indicator (x c : Z) (V : list Z) :
  NoDup V -> In x V -> zsum (fun v => if x =? v then c else 0) V = c.
Proof.
  induction 1 as [|a V Ha Hnd IH]; intros Hx; [destruct Hx|].
  cbn [zsum fold_right]. fold (zsum (fun v => if x =? v then c else 0) V).
  destruct Hx as [->|Hx].
  - rewrite Z.eqb_refl. rewrite zsum_zero; [lia|].
    intros v Hv. destruct (x =? v) eqn:Hxv; [|reflexivity].
    apply Z.eqb_eq in Hxv. subst v. contradiction.
  - rewrite IH by assumption.
    destruct (x =? a) eqn:Hxa; [|lia].
    apply Z.eqb_eq in Hxa. subst a. contradiction.
Qed.

(** A sum over the edges, grouped by the vertex they enter. *)
Lemma zsum_by_target (f : Edge -> Z) (V : list Z) (l : list Edge) :
  NoDup V -> (forall e, In e l -> In (to e) V) ->
  zsum f l = zsum (fun v => zsum f (entering l v)) V.
Proof.
  intros Hnd. induction l as [|e l IH]; intros Hin.
  - cbn. symmetry. apply zsum_zero. reflexivity.
  - cbn [zsum fold_right]. fold (zsum f l).
    rewrite IH by (intros e' He'; apply Hin; now right).
    rewrite <- (zsum_indicator (to e) (f e) V Hnd) at 1
      by (apply Hin; now left).
    rewrite <- zsum_plus. apply zsum_ext. intros v Hv.
    unfold entering. cbn [filter].
    destruct (to e =? v); reflexivity.
Qed.

Lemma in_entering (l : list Edge) (v : Z) (e : Edge) :
  In e (entering l v) <-> In e l /\ to e = v.
Proof. unfold entering. rewrite filter_In, Z.eqb_eq. tauto. Qed.

Lemma entering_map_out (A : Z -> Edge) (l : list Z) (v : Z) :
  (forall u, In u l -> to (A u) = u) -> ~ In v l ->
  entering (map A l) v = [].
Proof.
  induction l as [|a l IH]; intros HA Hv; [reflexivity|].
  cbn [map entering filter]. fold (entering (map A l) v).
  rewrite (HA a) by (now left).
  replace (a =? v) with false.
  - apply IH; [intros u Hu; apply HA; now right|].
    intros Hc. apply Hv. now right.
  - symmetry. apply Z.eqb_neq. intros ->. apply Hv. now left.
Qed.

Lemma entering_map_in (A : Z -> Edge) (l : list Z) (v : Z) :
  NoDup l -> (forall u, In u l -> to (A u) = u) -> In v l ->
  entering (map A l) v = [A v].
Proof.
  induction 1 as [|a l Ha Hnd IH]; intros HA Hv; [destruct Hv|].
  cbn [map entering filter]. fold (entering (map A l) v).
  rewrite (HA a) by (now left).
  destruct Hv as [->|Hv].
  - rewrite Z.eqb_refl. f_equal.
    apply entering_map_out; [intros u Hu; apply HA; now right|assumption].
  - replace (a =? v) with false.
    + apply IH; [intros u Hu; apply HA; now right|assumption].
    + symmetry. apply Z.eqb_neq. intros ->. contradiction.
Qed.

(** The edges of an arborescence, listed. *)
Lemma edges_of_arborescence (n root : Z) (edges : list Edge)
  (A : Z -> Edge) :
  wf_input n root edges ->
  arborescence n root edges A ->
  arborescence_edges n root edges (map A (nonroot n root)) /\
  zsum weight (map A (nonroot n root)) = arb_weight n root A.
Proof.
  intros (Hn & Hroot & Hedges) (HA & Hclimb).
  assert (Hto : forall u, In u (nonroot n root) -> to (A u) = u).
  { intros u Hu. apply in_nonroot in Hu. now apply HA. }
  split; [|apply zsum_map].
  split; [|split; [|split]].
  - intros e He. apply in_map_iff in He. destruct He as (v & <- & Hv).
    apply in_nonroot in Hv. now apply HA.
  - intros v Hv Hne. rewrite entering_map_in; auto.
    + apply NoDup_nonroot.
    + now apply in_nonroot.
  - apply entering_map_out; [assumption|].
    intros Hc. apply in_nonroot in Hc. now destruct Hc.
  - intros v Hv. specialize (Hclimb v Hv).
    induction Hclimb as [|v Hne Hc IH]; [apply reach_refl|].
    destruct (HA v Hv Hne) as (Hin & Htov).
    rewrite <- Htov. apply reach_edge.
    + apply IH. now apply Hedges.
    + apply in_map. now apply in_nonroot.
Qed.

(** The arborescence that a list of edges stands for. *)
Lemma arborescence_of_edges (n root : Z) (edges T : list Edge) :
  wf_input n root edges ->
  arborescence_edges n root edges T ->
  arborescence n root edges (entering_edge T) /\
  arb_weight n root (entering_edge T) = zsum weight T.
Proof.
  intros (Hn & Hroot & Hedges) (Hincl & Hone & Hnone & Hreach).
  assert (Hsingle : forall v e, 0 <= v < n -> v <> root ->
            In e T -> to e = v -> entering T v = [e]).
  { intros v e Hv Hne He Hto. specialize (Hone v Hv Hne).
    assert (Hin : In e (entering T v)) by (now apply in_entering).
    destruct (entering T v) as [|e' [|e'' l]]; try discriminate.
    destruct Hin as [->|[]]. reflexivity. }
  assert (Hentry : forall v, 0 <= v < n -> v <> root ->
            In (entering_edge T v) T /\ to (entering_edge T v) = v).
  { intros v Hv Hne. specialize (Hone v Hv Hne). unfold entering_edge.
    destruct (entering T v) as [|e l] eqn:Hent; [discriminate|].
    apply in_entering. rewrite Hent. now left. }
  split; [split|].
  - intros v Hv Hne. destruct (Hentry v Hv Hne). split; auto.
  - intros v Hv. specialize (Hreach v Hv).
    induction Hreach as [|e Hr IH He]; [apply climbs_root|].
    destruct (Z.eq_dec (to e) root) as [->|Hne]; [apply climbs_root|].
    apply climbs_step; [assumption|].
    unfold entering_edge. rewrite (Hsingle (to e) e); auto. cbn [hd].
    apply IH. apply Hedges. now apply Hincl.
  - unfold arb_weight. rewrite nonroot_sum.
    rewrite (zsum_by_target weight (vertices n) T).
    + apply zsum_ext. intros v Hv. apply in_vertices in Hv.
      destruct (v =? root) eqn:Hvr.
      * apply Z.eqb_eq in Hvr. subst v. now rewrite Hnone.
      * apply Z.eqb_neq in Hvr. specialize (Hone v Hv Hvr).
        unfold entering_edge.
        destruct (entering T v) as [|e [|e' l]]; try discriminate.
        cbn. lia.
    + apply NoDup_vertices.
    + intros e He. apply in_vertices. apply Hedges. now apply Hincl.
Qed.

(** The minimum weight over the arborescences given by maps is the
    minimum weight over the arborescences given by lists of edges. *)
Theorem min_arb_weight_edges (n root : Z) (edges : list Edge) (w : Z) :
  wf_input n root edges ->
  (min_arb_weight n root edges w <->
   (exists T, arborescence_edges n root edges T /\ zsum weight T = w) /\
   (forall T, arborescence_edges n root edges T -> w <= zsum weight T)).
Proof.
  intros Hwf. split.
  - intros ((A & HA & Hw) & Hmin). split.
    + destruct (edges_of_arborescence n root edges A Hwf HA) as (HT & HwT).
      exists (map A (nonroot n root)). split; [assumption|lia].
    + intros T HT.
      destruct (arborescence_of_edges n root edges T Hwf HT) as (HA' & <-).
      now apply Hmin.
  - intros ((T & HT & Hw) & Hmin). split.
    + destruct (arborescence_of_edges n root edges T Hwf HT) as (HA & HwA).
      exists (entering_edge T). split; [assumption|lia].
    + intros A HA.
      destruct (edges_of_arborescence n root edges A Hwf HA) as (HT' & <-).
      now apply Hmin.
Qed.
(** * Reading and writing in range *)

Lemma get_rd (v : list Z) (i : Z) :
  0 <= i < Z.of_nat (length v) -> vec_get v i = Ok (rd v i).
Proof. apply vec_get_ok. Qed.

Lemma get_edge (edges : list Edge) (k : Z) :
  0 <= k < Z.of_nat (length edges) -> vec_get edges k = Ok (edge_at edges k).
Proof. apply vec_get_ok. Qed.

Lemma set_upd (v : list Z) (i x : Z) :
  0 <= i < Z.of_nat (length v) -> vec_set v i x = Ok (upd v i x).
Proof. apply vec_set_ok. Qed.

Lemma length_upd (v : list Z) (i x : Z) : length (upd v i x) = length v.
Proof. apply length_set_nth. Qed.

Lemma rd_upd_eq (v : list Z) (i x : Z) :
  0 <= i < Z.of_nat (length v) -> rd (upd v i x) i = x.
Proof. intros H. apply nth_set_nth_eq. lia. Qed.

Lemma rd_upd_neq (v : list Z) (i j x : Z) :
  0 <= i -> 0 <= j -> i <> j -> rd (upd v i x) j = rd v j.
Proof. intros Hi Hj Hij. apply nth_set_nth_neq. lia. Qed.

Lemma rd_repeat (x : Z) (k : nat) (i : Z) :
  0 <= i < Z.of_nat k -> rd (repeat x k) i = x.
Proof. intros H. apply nth_repeat_in. lia. Qed.

Lemma rd_fill (v : list Z) (x i : Z) :
  0 <= i < Z.of_nat (length v) -> rd (fill v x) i = x.
Proof. intros H. now apply rd_repeat. Qed.

Lemma edge_at_in (edges : list Edge) (k : Z) :
  0 <= k < Z.of_nat (length edges) -> In (edge_at edges k) edges.
Proof. intros H. apply nth_In. lia. Qed.

Lemma edge_at_middle (d r : list Edge) (e : Edge) :
  edge_at (d ++ e :: r) (Z.of_nat (length d)) = e.
Proof.
  unfold edge_at. rewrite Nat2Z.id. apply nth_middle.
Qed.

(** * Selection (lines 39-52) *)

Lemma reset_spec (n : Z) (inEdge : list Z) :
  0 <= n <= Z.of_nat (length inEdge) ->
  exists inEdge0,
    for_upto n (fun i v => vec_set v i (-1)) inEdge = Ok inEdge0 /\
    length inEdge0 = length inEdge /\
    forall v, 0 <= v < n -> rd inEdge0 v = -1.
Proof.
  intros Hn.
  destruct (for_upto_rule
              (fun i v => length v = length inEdge /\
                          forall j, 0 <= j < i -> rd v j = -1)
              (fun i v => vec_set v i (-1)) n inEdge) as (t & Ht & Hlen & Hrd).
  - lia.
  - split; [reflexivity|]. intros j Hj. lia.
  - intros j t Hj (Hlen & Hrd). exists (upd t j (-1)). split.
    + apply set_upd. lia.
    + split; [now rewrite length_upd|]. intros k Hk.
      destruct (Z.eq_dec j k) as [->|Hjk].
      * apply rd_upd_eq. lia.
      * rewrite rd_upd_neq by lia. apply Hrd. lia.
  - exists t. auto.
Qed.

Lemma select_spec (n : Z) (edges : list Edge) (inEdge0 : list Z) :
  n <= Z.of_nat (length inEdge0) ->
  (forall e, In e edges -> 0 <= to e < n) ->
  (forall v, 0 <= v < n -> rd inEdge0 v = -1) ->
  exists inEdge,
    for_each edges 0 (select_body edges) inEdge0 = Ok inEdge /\
    length inEdge = length inEdge0 /\
    selection_inv n edges edges inEdge.
Proof.
  intros Hlen Hto Hinit.
  destruct (for_each_rule
              (fun done v => length v = length inEdge0 /\
                             selection_inv n edges done v)
              (select_body edges) edges inEdge0) as (t & Ht & Hl & Hinv).
  - split; [reflexivity|]. intros v Hv. left. split; [now apply Hinit|].
    intros e [].
  - intros d e r t Hsplit (Hl & Hinv).
    assert (He : In e edges) by (rewrite Hsplit; apply in_elt).
    assert (Hk : edge_at edges (Z.of_nat (length d)) = e)
      by (rewrite Hsplit; apply edge_at_middle).
    assert (Hlenapp : Z.of_nat (length (d ++ [e])) = Z.of_nat (length d) + 1)
      by (rewrite length_app; simpl; lia).
    specialize (Hto e He).
    unfold select_body.
    destruct (from e =? to e) eqn:Hloop.
    { apply Z.eqb_eq in Hloop. exists t. split; [reflexivity|].
      split; [assumption|]. intros v Hv.
      destruct (Hinv v Hv) as [(Hm & Hall)|(Hr & Hst & Hsf & Hmin)].
      - left. split; [assumption|]. intros e' He' Hte'.
        apply in_app_iff in He'. destruct He' as [He'|[<-|[]]]; [auto|].
        congruence.
      - right. split; [lia|]. split; [assumption|]. split; [assumption|].
        intros e' He' Hte' Hfe'.
        apply in_app_iff in He'. destruct He' as [He'|[<-|[]]]; [auto|].
        congruence. }
    apply Z.eqb_neq in Hloop.
    rewrite (get_rd t (to e)) by lia. cbn [bind].
    assert (Hkeep : forall v, 0 <= v < n -> v <> to e ->
              forall t', length t' = length t ->
              (forall j, 0 <= j -> j <> to e -> rd t' j = rd t j) ->
              (rd t' v = -1 /\
               forall e', In e' (d ++ [e]) -> to e' = v -> from e' = v) \/
              (0 <= rd t' v < Z.of_nat (length (d ++ [e])) /\
               to (sel_of edges t' v) = v /\
               from (sel_of edges t' v) <> v /\
               forall e', In e' (d ++ [e]) -> to e' = v -> from e' <> v ->
                 weight (sel_of edges t' v) <= weight e')).
    { intros v Hv Hne t' Hlt' Hsame. unfold sel_of.
      rewrite (Hsame v) by lia.
      destruct (Hinv v Hv) as [(Hm & Hall)|(Hr & Hst & Hsf & Hmin)].
      - left. split; [assumption|]. intros e' He' Hte'.
        apply in_app_iff in He'. destruct He' as [He'|[<-|[]]]; [auto|].
        congruence.
      - right. split; [lia|]. split; [assumption|]. split; [assumption|].
        intros e' He' Hte' Hfe'.
        apply in_app_iff in He'. destruct He' as [He'|[<-|[]]]; [auto|].
        congruence. }
    assert (Hset : exists t', vec_set t (to e) (Z.of_nat (length d)) = Ok t' /\
              length t' = length inEdge0 /\
              (forall j, 0 <= j -> j <> to e -> rd t' j = rd t j) /\
              rd t' (to e) = Z.of_nat (length d)).
    { exists (upd t (to e) (Z.of_nat (length d))).
      split; [apply set_upd; lia|]. split; [now rewrite length_upd|].
      split; [intros j Hj Hne; apply rd_upd_neq; lia|].
      apply rd_upd_eq. lia. }
    destruct Hset as (t' & Hset & Hlt' & Hsame & Hnew).
    destruct (rd t (to e) =? -1) eqn:Hcur; cbn [bind].
    { (* the first candidate for [to e] *)
      apply Z.eqb_eq in Hcur.
      exists t'. split; [assumption|]. split; [assumption|].
      intros v Hv. destruct (Z.eq_dec v (to e)) as [->|Hne].
      - right. unfold sel_of. rewrite Hnew, Hk.
        split; [lia|]. split; [reflexivity|]. split; [assumption|].
        intros e' He' Hte' Hfe'.
        apply in_app_iff in He'. destruct He' as [He'|[<-|[]]]; [|lia].
        destruct (Hinv (to e) Hto) as [(_ & Hall)|(Hr & _)]; [|lia].
        exfalso. apply Hfe'. now apply Hall.
      - apply Hkeep; auto. congruence. }
    apply Z.eqb_neq in Hcur.
    destruct (Hinv (to e) Hto) as [(Hm & _)|(Hr & Hst & Hsf & Hmin)];
      [contradiction|].
    assert (Hd : Z.of_nat (length d) < Z.of_nat (length edges)).
    { rewrite Hsplit, length_app. simpl. lia. }
    rewrite (get_edge edges (rd t (to e))) by lia. cbn [bind].
    fold (sel_of edges t (to e)).
    destruct (weight e <? weight (sel_of edges t (to e))) eqn:Hlt.
    { (* a cheaper candidate *)
      apply Z.ltb_lt in Hlt.
      exists t'. split; [assumption|]. split; [assumption|].
      intros v Hv. destruct (Z.eq_dec v (to e)) as [->|Hne].
      - right. unfold sel_of at 1 2 3. rewrite Hnew, Hk.
        split; [lia|]. split; [reflexivity|]. split; [assumption|].
        intros e' He' Hte' Hfe'.
        apply in_app_iff in He'. destruct He' as [He'|[<-|[]]]; [|lia].
        specialize (Hmin e' He' Hte' Hfe'). lia.
      - apply Hkeep; auto. congruence. }
    apply Z.ltb_ge in Hlt.
    exists t. split; [reflexivity|]. split; [assumption|].
    intros v Hv. destruct (Z.eq_dec v (to e)) as [->|Hne].
    + right. split; [lia|]. split; [assumption|]. split; [assumption|].
      intros e' He' Hte' Hfe'.
      apply in_app_iff in He'. destruct He' as [He'|[<-|[]]]; [auto|lia].
    + apply Hkeep; auto.
  - exists t. auto.
Qed.

Lemma check_spec (root : Z) (inEdge : list Z) (count : nat) :
  forall i, 0 <= i -> i + Z.of_nat count <= Z.of_nat (length inEdge) ->
  exists b, check_loop count i root inEdge = Ok b /\
    (b = true -> exists v, i <= v < i + Z.of_nat count /\ v <> root /\
                           rd inEdge v = -1) /\
    (b = false -> forall v, i <= v < i + Z.of_nat count -> v <> root ->
                            rd inEdge v <> -1).
Proof.
  induction count as [|count IH]; intros i Hi Hlen; cbn [check_loop].
  - exists false. split; [reflexivity|]. split; [discriminate|].
    intros _ v Hv. lia.
  - destruct (IH (i + 1)) as (b & Hb & Htrue & Hfalse); [lia|lia|].
    assert (Hrest : exists b', check_loop count (i + 1) root inEdge = Ok b' /\
              (b' = true -> exists v,
                  i <= v < i + Z.of_nat (Datatypes.S count) /\ v <> root /\
                  rd inEdge v = -1) /\
              (b' = false -> rd inEdge i <> -1 \/ i = root ->
                 forall v, i <= v < i + Z.of_nat (Datatypes.S count) ->
                           v <> root -> rd inEdge v <> -1)).
    { exists b. split; [assumption|]. split.
      - intros Hbt. destruct (Htrue Hbt) as (v & Hv & Hne & Hm).
        exists v. split; [lia|auto].
      - intros Hbf Hroot v Hv Hne. destruct (Z.eq_dec v i) as [->|Hvi].
        + destruct Hroot; [assumption|contradiction].
        + apply Hfalse; auto. lia. }
    destruct Hrest as (b' & Hb' & Htrue' & Hfalse').
    destruct (i =? root) eqn:Hir; cbn [negb].
    + apply Z.eqb_eq in Hir. exists b'. split; [assumption|].
      split; [assumption|]. intros Hbf. apply Hfalse'; auto.
    + apply Z.eqb_neq in Hir.
      rewrite (get_rd inEdge i) by lia. cbn [bind].
      destruct (rd inEdge i =? -1) eqn:Hm.
      * apply Z.eqb_eq in Hm. exists true. split; [reflexivity|].
        split; [|discriminate]. intros _. exists i. split; [lia|auto].
      * apply Z.eqb_neq in Hm. exists b'. split; [assumption|].
        split; [assumption|]. intros Hbf. apply Hfalse'; auto.
Qed.
(** * Chains of selected edges *)

Section Orbits.

Variable p : Z -> Z.

Lemma orbit_trans (u v w : Z) : orbit p u v -> orbit p v w -> orbit p u w.
Proof.
  induction 1 as [|u v H IH]; intros Hvw; [assumption|].
  apply orbit_next. now apply IH.
Qed.

Lemma orbit_one (u : Z) : orbit p u (p u).
Proof. apply orbit_next, orbit_refl. Qed.

Lemma seg_head (a u x : Z) (l : list Z) :
  seg p a u (x :: l) -> x = a /\ seg p (p a) u l.
Proof. inversion 1; subst. auto. Qed.

Lemma seg_nil_inv (a u : Z) : seg p a u [] -> a = u.
Proof. inversion 1; subst. reflexivity. Qed.

Lemma seg_snoc (a u : Z) (l : list Z) :
  seg p a u l -> seg p a (p u) (l ++ [u]).
Proof.
  induction 1 as [u|a u l H IH]; simpl.
  - apply seg_cons, seg_nil.
  - now apply seg_cons.
Qed.

Lemma seg_app_inv (l1 l2 : list Z) :
  forall a u, seg p a u (l1 ++ l2) ->
  exists m, seg p a m l1 /\ seg p m u l2.
Proof.
  induction l1 as [|x l1 IH]; intros a u H; simpl in H.
  - exists a. split; [apply seg_nil|assumption].
  - apply seg_head in H. destruct H as (-> & H).
    destruct (IH _ _ H) as (m & H1 & H2).
    exists m. split; [now apply seg_cons|assumption].
Qed.

Lemma seg_orbit (a u : Z) (l : list Z) : seg p a u l -> orbit p a u.
Proof.
  induction 1 as [u|a u l H IH]; [apply orbit_refl|now apply orbit_next].
Qed.

(** Every vertex of a segment leads to its end. *)
Lemma seg_orbit_from (a u v : Z) (l : list Z) :
  seg p a u l -> In v l -> orbit p v u.
Proof.
  induction 1 as [u|a u l H IH]; intros Hv; [destruct Hv|].
  destruct Hv as [<-|Hv]; [|auto].
  apply orbit_next. now apply (seg_orbit _ _ l).
Qed.

(** The start of a segment leads to each of its vertices. *)
Lemma seg_orbit_to (a u v : Z) (l : list Z) :
  seg p a u l -> In v l -> orbit p a v.
Proof.
  induction 1 as [u|a u l H IH]; intros Hv; [destruct Hv|].
  destruct Hv as [<-|Hv]; [apply orbit_refl|].
  apply orbit_next. auto.
Qed.

Lemma seg_closed (a u v : Z) (l : list Z) :
  seg p a u l -> In v l -> In (p v) l \/ p v = u.
Proof.
  induction 1 as [u|a u l H IH]; intros Hv; [destruct Hv|].
  destruct Hv as [<-|Hv].
  - destruct l as [|x l].
    + right. now apply seg_nil_inv.
    + apply seg_head in H. destruct H as (-> & _). left. right. now left.
  - destruct (IH Hv) as [Hin|Heq]; [left; now right|now right].
Qed.

(** On a segment that returns to its start, every vertex leads to every
    other one. *)
Lemma seg_cycle_orbit (u a b : Z) (l : list Z) :
  seg p u u l -> In a l -> In b l -> orbit p a b.
Proof.
  intros H Ha Hb. apply (orbit_trans a u b).
  - now apply (seg_orbit_from u u a l).
  - now apply (seg_orbit_to u u b l).
Qed.

(** A chain that leads to [b] has a segment that stops at the first
    visit of [b]. *)
Lemma orbit_seg_first (a b : Z) :
  orbit p a b -> exists l, seg p a b l /\ ~ In b l.
Proof.
  induction 1 as [u|u v H (l & Hl & Hb)].
  - exists []. split; [apply seg_nil|intros []].
  - destruct (Z.eq_dec u v) as [->|Hne].
    + exists []. split; [apply seg_nil|intros []].
    + exists (u :: l). split; [now apply seg_cons|].
      intros [Heq|Hin]; [now apply Hne|contradiction].
Qed.

Lemma seg_functional (a u : Z) (l l' : list Z) :
  seg p a u l -> seg p a u l' -> ~ In u l -> ~ In u l' -> l = l'.
Proof.
  intros H. revert l'. induction H as [u|a u l H IH]; intros l' H' Hu Hu'.
  - destruct l' as [|x l']; [reflexivity|].
    apply seg_head in H'. destruct H' as (-> & _).
    exfalso. apply Hu'. now left.
  - destruct l' as [|x l'].
    + apply seg_nil_inv in H'. subst. exfalso. apply Hu. now left.
    + apply seg_head in H'. destruct H' as (-> & H'). f_equal.
      apply IH; [assumption| |]; intros Hc; [apply Hu|apply Hu']; now right.
Qed.

Lemma seg_suffix (l1 l2 : list Z) (x : Z) :
  forall a u, seg p a u (l1 ++ x :: l2) -> seg p x u (x :: l2).
Proof.
  intros a u H. apply seg_app_inv in H. destruct H as (m & _ & H).
  pose proof (seg_head _ _ _ _ H) as (-> & _). assumption.
Qed.

(** A segment that stops at the first visit of its end does not repeat a
    vertex. *)
Lemma seg_NoDup (a u : Z) (l : list Z) :
  seg p a u l -> ~ In u l -> NoDup l.
Proof.
  induction 1 as [u|a u l H IH]; intros Hu; constructor.
  - intros Hin. destruct (in_split _ _ Hin) as (l1 & l2 & Hsplit).
    assert (H1 : seg p a u (a :: l)) by (now apply seg_cons).
    assert (H2 : seg p a u (a :: l2))
      by (rewrite Hsplit in H; now apply seg_suffix in H).
    assert (Heq : a :: l = a :: l2).
    { apply (seg_functional a u); auto.
      intros Hc. apply Hu. rewrite Hsplit. simpl in Hc |- *.
      destruct Hc as [Hc|Hc]; [now left|].
      right. apply in_app_iff. right. now right. }
    injection Heq as Heq. rewrite Hsplit in Heq.
    apply (f_equal (@length Z)) in Heq. rewrite length_app in Heq.
    simpl in Heq. lia.
  - apply IH. intros Hc. apply Hu. now right.
Qed.

End Orbits.

Lemma orbit_climbs (sel : Z -> Edge) (root v r : Z) :
  orbit (fun x => from (sel x)) v r -> r = root -> climbs sel root v.
Proof.
  induction 1 as [u|u w H IH]; intros Hr.
  - subst. apply climbs_root.
  - destruct (Z.eq_dec u root) as [->|Hne]; [apply climbs_root|].
    apply climbs_step; auto.
Qed.
(** * Cycle detection (lines 54-85) *)

(** Reading [edges[inEdge[v]]] succeeds at a vertex other than the root. *)
Lemma read_sel (n root : Z) (edges : list Edge) (inEdge : list Z) :
  n <= Z.of_nat (length inEdge) ->
  (forall v, 0 <= v < n -> v <> root ->
     0 <= rd inEdge v < Z.of_nat (length edges) /\
     0 <= par edges inEdge v < n /\ par edges inEdge v <> v) ->
  forall v, 0 <= v < n -> v <> root ->
  vec_get inEdge v = Ok (rd inEdge v) /\
  vec_get edges (rd inEdge v) = Ok (sel_of edges inEdge v).
Proof.
  intros Hlen Hp v Hv Hne. destruct (Hp v Hv Hne) as (Hr & _). split.
  - apply get_rd. lia.
  - apply get_edge. lia.
Qed.

Lemma chain_length (n root : Z) (chain : list Z) :
  0 <= root < n ->
  NoDup chain ->
  (forall v, In v chain -> 0 <= v < n /\ v <> root) ->
  (length chain < Z.to_nat n)%nat.
Proof.
  intros Hroot Hnd Hin.
  assert (Hle : (length (root :: chain) <= length (vertices n))%nat).
  { apply NoDup_incl_length.
    - constructor; [|assumption]. intros Hr. now destruct (Hin root Hr).
    - intros v [<-|Hv]; apply in_vertices; [assumption|now apply Hin]. }
  rewrite length_vertices in Hle. simpl in Hle. lia.
Qed.

Section Detect.

#[local] Set Default Proof Using "All".

Variables (n root : Z) (edges : list Edge) (inEdge : list Z) (fuel : nat).

Let p : Z -> Z := par edges inEdge.

Hypothesis Hroot : 0 <= root < n.
Hypothesis Hfuel : (Z.to_nat n <= fuel)%nat.
Hypothesis HlenI : n <= Z.of_nat (length inEdge).
Hypothesis Hp : forall v, 0 <= v < n -> v <> root ->
  0 <= rd inEdge v < Z.of_nat (length edges) /\ 0 <= p v < n /\ p v <> v.

Ltac step_par v :=
  let H1 := fresh in
  let H2 := fresh in
  destruct (read_sel n root edges inEdge HlenI Hp v) as (H1 & H2);
  [assumption|assumption|];
  rewrite H1; cbn [bind]; rewrite H2; cbn [bind];
  change (from (sel_of edges inEdge v)) with (p v); clear H1 H2.

(** ** The walk along selected edges (lines 62-69) *)

Lemma walk_spec (visited0 : list Z) (i : Z) :
  n <= Z.of_nat (length visited0) ->
  (forall v, 0 <= v < n -> rd visited0 v = 0 \/ rd visited0 v = 2) ->
  rd visited0 root = 2 ->
  0 <= i < n -> rd visited0 i = 0 ->
  exists visited1 u hasCycle chain,
    while_loop fuel (walk_body edges inEdge) (visited0, i) =
      Ok (visited1, u, hasCycle) /\
    walk_inv n p visited0 i chain (visited1, u) /\
    In i chain /\
    (if hasCycle : bool then In u chain else rd visited0 u = 2).
Proof.
  intros Hlen H02 Hvroot Hi Hi0.
  destruct (while_loop_ghost
              (walk_inv n p visited0 i)
              (fun r : list Z * Z * bool =>
                 let '(visited1, u, hasCycle) := r in
                 exists chain,
                   walk_inv n p visited0 i chain (visited1, u) /\
                   (if hasCycle : bool then In u chain
                    else rd visited0 u = 2))
              (fun chain => (Z.to_nat n - 1 - length chain)%nat)
              (walk_body edges inEdge)) with (fuel := fuel) (g := @nil Z)
              (s := (visited0, i)) as (((visited1, u), hasCycle) & Hrun & Hpost).
  - intros chain (visited, u) Hinv.
    pose proof Hinv as (Hseg & Hnd & Hchain & Hu & Hl & H1 & Hout).
    unfold walk_body.
    rewrite (get_rd visited u) by lia. cbn [bind].
    destruct (in_dec Z.eq_dec u chain) as [Hin|Hnin].
    + rewrite (H1 u Hin). change (1 =? 2) with false.
      change (1 =? 1) with true. cbv iota. eexists. split; [reflexivity|]. cbv beta iota.
      exists chain. split; assumption.
    + rewrite (Hout u) by (lia || assumption).
      destruct (H02 u Hu) as [H0|H2].
      * rewrite H0. change (0 =? 2) with false. change (0 =? 1) with false.
        cbv iota.
        assert (Hune : u <> root) by (intros ->; lia).
        rewrite (set_upd visited u 1) by lia. cbn [bind].
        step_par u.
        eexists. split; [reflexivity|]. cbv beta iota.
        assert (Hchain' : forall v, In v (chain ++ [u]) ->
                  0 <= v < n /\ rd visited0 v = 0).
        { intros v Hv. apply in_app_iff in Hv.
          destruct Hv as [Hv|[<-|[]]]; auto. }
        assert (Hnd' : NoDup (chain ++ [u])) by (now apply NoDup_snoc).
        exists (chain ++ [u]). split.
        -- split; [now apply seg_snoc|]. split; [assumption|].
           split; [assumption|]. split; [now apply Hp|].
           split; [now rewrite length_upd|]. split.
           ++ intros v Hv. apply in_app_iff in Hv.
              destruct Hv as [Hv|[<-|[]]].
              ** rewrite rd_upd_neq; auto; try lia.
                 --- destruct (Hchain v Hv). lia.
                 --- intros ->. contradiction.
              ** apply rd_upd_eq. lia.
           ++ intros v Hv Hnv. rewrite rd_upd_neq; try lia.
              ** apply Hout; auto. intros Hc. apply Hnv.
                 apply in_app_iff. now left.
              ** intros ->. apply Hnv. apply in_app_iff. right. now left.
        -- assert (Hlt : (length (chain ++ [u]) < Z.to_nat n)%nat).
           { apply (chain_length n root); [assumption|assumption|].
             intros v Hv. destruct (Hchain' v Hv) as (? & Hz).
             split; [assumption|]. intros ->. lia. }
           rewrite length_app in Hlt |- *. simpl in Hlt |- *. lia.
      * rewrite H2. change (2 =? 2) with true. cbv iota. eexists. split; [reflexivity|]. cbv beta iota.
        exists chain. split; assumption.
  - split; [apply seg_nil|]. split; [constructor|].
    split; [intros v []|]. split; [assumption|]. split; [reflexivity|].
    split; [intros v []|]. auto.
  - simpl. lia.
  - destruct Hpost as (chain & Hinv & Hexit).
    exists visited1, u, hasCycle, chain.
    split; [assumption|]. split; [assumption|]. split; [|assumption].
    destruct Hinv as (Hseg & _).
    destruct chain as [|x chain].
    + apply seg_nil_inv in Hseg. subst u.
      destruct hasCycle; [destruct Hexit|lia].
    + apply seg_head in Hseg. destruct Hseg as (-> & _). now left.
Qed.

(** ** Labelling a cycle (lines 74-77) *)

Lemma mark_spec (cycle : list Z) (cid u : Z) (C : list Z) :
  n <= Z.of_nat (length cycle) ->
  seg p u u C -> In u C -> NoDup C ->
  (forall v, In v C -> 0 <= v < n /\ v <> root) ->
  exists cycle1,
    while_loop fuel (mark_body edges inEdge cid u) (cycle, u) = Ok cycle1 /\
    length cycle1 = length cycle /\
    (forall v, In v C -> rd cycle1 v = cid) /\
    (forall v, 0 <= v -> ~ In v C -> rd cycle1 v = rd cycle v).
Proof.
  intros Hlen Hseg Hu Hnd HC.
  destruct C as [|x C']; [destruct Hu|].
  pose proof (seg_head p _ _ _ _ Hseg) as (-> & _).
  apply (while_loop_ghost
           (fun (g : list Z * list Z) (s : list Z * Z) =>
              let '(done, rest) := g in
              let '(cyc, v) := s in
              u :: C' = done ++ v :: rest /\
              seg p v u (v :: rest) /\
              length cyc = length cycle /\
              (forall x, In x done -> rd cyc x = cid) /\
              (forall x, 0 <= x -> ~ In x done -> rd cyc x = rd cycle x))
           (fun cycle1 =>
              length cycle1 = length cycle /\
              (forall v, In v (u :: C') -> rd cycle1 v = cid) /\
              (forall v, 0 <= v -> ~ In v (u :: C') ->
                 rd cycle1 v = rd cycle v))
           (fun g => length (snd g))
           (mark_body edges inEdge cid u)) with (g := (@nil Z, C')).
  - intros (done, rest) (cyc, v) (Hsplit & Hsg & Hl & Hdone & Hout).
    assert (Hv : In v (u :: C')) by (rewrite Hsplit; apply in_elt).
    destruct (HC v Hv) as (Hvr & Hvne).
    assert (Hvd : ~ In v done).
    { rewrite Hsplit in Hnd. apply NoDup_remove_2 in Hnd.
      intros Hc. apply Hnd. apply in_app_iff. now left. }
    assert (Hurest : ~ In u rest).
    { destruct done as [|y done].
      - simpl in Hsplit. injection Hsplit as Hy Hrest. subst rest.
        now inversion Hnd.
      - simpl in Hsplit. injection Hsplit as Hy Hrest. subst y.
        rewrite Hrest in Hnd. inversion Hnd as [|? ? Hnotin _]; subst.
        intros Hc. apply Hnotin. apply in_app_iff. right. now right. }
    unfold mark_body.
    rewrite (set_upd cyc v cid) by lia. cbn [bind].
    step_par v.
    apply seg_head in Hsg. destruct Hsg as (_ & Hsg).
    assert (Hdone' : forall x, In x (done ++ [v]) ->
              rd (upd cyc v cid) x = cid).
    { intros x Hx. apply in_app_iff in Hx. destruct Hx as [Hx|[<-|[]]].
      - rewrite rd_upd_neq; auto; try lia.
        + assert (In x (u :: C'))
            by (rewrite Hsplit; apply in_app_iff; now left).
          destruct (HC x); auto. lia.
        + intros ->. contradiction.
      - apply rd_upd_eq. lia. }
    assert (Hout' : forall x, 0 <= x -> ~ In x (done ++ [v]) ->
              rd (upd cyc v cid) x = rd cycle x).
    { intros x Hx Hnx. rewrite rd_upd_neq; try lia.
      - apply Hout; auto. intros Hc. apply Hnx. apply in_app_iff. now left.
      - intros ->. apply Hnx. apply in_app_iff. right. now left. }
    destruct rest as [|y rest].
    + apply seg_nil_inv in Hsg. rewrite Hsg, Z.eqb_refl.
      eexists. split; [reflexivity|]. cbv beta iota. rewrite Hsplit.
      split; [now rewrite length_upd|]. auto.
    + pose proof (seg_head p _ _ _ _ Hsg) as (-> & _).
      replace (p v =? u) with false.
      2:{ symmetry. apply Z.eqb_neq. intros Heq. apply Hurest.
          left. assumption. }
      eexists. split; [reflexivity|]. cbv beta iota.
      exists (done ++ [v], rest). split; [|simpl; lia].
      split; [rewrite Hsplit, <- app_assoc; reflexivity|].
      split; [assumption|]. split; [now rewrite length_upd|]. auto.
  - split; [reflexivity|]. split; [assumption|]. split; [reflexivity|].
    split; [intros x []|]. auto.
  - simpl.
    assert ((length (u :: C') < Z.to_nat n)%nat) by (now apply (chain_length n root)).
    simpl in *. lia.
Qed.

(** ** Settling a chain (lines 79-83) *)

Lemma settle_spec (visited1 : list Z) (i u : Z) (chain : list Z) :
  n <= Z.of_nat (length visited1) ->
  seg p i u chain -> NoDup chain ->
  (forall v, In v chain -> 0 <= v < n /\ v <> root /\ rd visited1 v = 1) ->
  0 <= i < n -> 0 <= u < n ->
  In u chain \/ rd visited1 u = 2 ->
  exists visited2,
    while_loop fuel (settle_body edges inEdge) (visited1, i) = Ok visited2 /\
    length visited2 = length visited1 /\
    (forall v, In v chain -> rd visited2 v = 2) /\
    (forall v, 0 <= v -> ~ In v chain -> rd visited2 v = rd visited1 v).
Proof.
  intros Hlen Hseg Hnd Hchain Hi Hu Hend.
  apply (while_loop_ghost
           (fun (g : list Z * list Z) (s : list Z * Z) =>
              let '(done, rest) := g in
              let '(vis, u2) := s in
              chain = done ++ rest /\
              seg p u2 u rest /\
              0 <= u2 < n /\
              length vis = length visited1 /\
              (forall x, In x done -> rd vis x = 2) /\
              (forall x, 0 <= x -> ~ In x done -> rd vis x = rd visited1 x))
           (fun visited2 =>
              length visited2 = length visited1 /\
              (forall v, In v chain -> rd visited2 v = 2) /\
              (forall v, 0 <= v -> ~ In v chain ->
                 rd visited2 v = rd visited1 v))
           (fun g => length (snd g))
           (settle_body edges inEdge)) with (g := (@nil Z, chain)).
  - intros (done, rest) (vis, u2) (Hsplit & Hsg & Hu2 & Hl & Hdone & Hout).
    unfold settle_body.
    rewrite (get_rd vis u2) by lia. cbn [bind].
    destruct rest as [|y rest].
    + apply seg_nil_inv in Hsg. subst u2. rewrite app_nil_r in Hsplit.
      subst done.
      assert (Hu2' : rd vis u = 2).
      { destruct (in_dec Z.eq_dec u chain) as [Hin|Hnin]; [auto|].
        rewrite Hout by (lia || assumption). destruct Hend; tauto. }
      rewrite Hu2'. change (2 =? 2) with true. cbv iota. eexists. split; [reflexivity|]. cbv beta iota. auto.
    + pose proof (seg_head p _ _ _ _ Hsg) as (-> & Hsg').
      assert (Hin : In u2 chain) by (rewrite Hsplit; apply in_elt).
      destruct (Hchain u2 Hin) as (_ & Hne & H1).
      assert (Hnd2 : ~ In u2 done).
      { rewrite Hsplit in Hnd. apply NoDup_remove_2 in Hnd.
        intros Hc. apply Hnd. apply in_app_iff. now left. }
      rewrite Hout by (lia || assumption). rewrite H1.
      change (1 =? 2) with false. cbv iota.
      rewrite (set_upd vis u2 2) by lia. cbn [bind].
      step_par u2.
      eexists. split; [reflexivity|]. cbv beta iota.
      exists (done ++ [u2], rest). split; [|simpl; lia].
      split; [rewrite Hsplit, <- app_assoc; reflexivity|].
      split; [assumption|]. split; [now apply Hp|].
      split; [now rewrite length_upd|]. split.
      * intros x Hx. apply in_app_iff in Hx. destruct Hx as [Hx|[<-|[]]].
        -- rewrite rd_upd_neq; auto; try lia.
           ++ assert (In x chain)
                by (rewrite Hsplit; apply in_app_iff; now left).
              destruct (Hchain x); auto. lia.
           ++ intros ->. contradiction.
        -- apply rd_upd_eq. lia.
      * intros x Hx Hnx. rewrite rd_upd_neq; try lia.
        -- apply Hout; auto. intros Hc. apply Hnx. apply in_app_iff.
           now left.
        -- intros ->. apply Hnx. apply in_app_iff. right. now left.
  - split; [reflexivity|]. split; [assumption|]. split; [assumption|].
    split; [reflexivity|]. split; [intros x []|]. auto.
  - simpl.
    assert ((length chain < Z.to_nat n)%nat); [|lia].
    apply (chain_length n root); [assumption|assumption|]. intros v Hv.
    destruct (Hchain v Hv) as (? & ? & _). auto.
Qed.

(** ** One pass of the detection loop (lines 58-85) *)

Lemma detect_step (i cc : Z) (cycle visited : list Z) :
  0 <= i < n ->
  detect_inv n root p i cc cycle visited ->
  exists cc' cycle' visited',
    detect_body fuel edges inEdge i (cc, cycle, visited) =
      Ok (cc', cycle', visited') /\
    length cycle' = length cycle /\ length visited' = length visited /\
    detect_inv n root p (i + 1) cc' cycle' visited'.
Proof.
  intros Hi Hinv. pose proof Hinv as
    [Hlc Hlv H02 Hvroot Hdone Hclosed Hleads Hcc Hids Hsome Hcyc Hsame].
  unfold detect_body.
  rewrite (get_rd visited i) by lia. cbn [bind].
  destruct (H02 i Hi) as [Hi0|Hi2].
  2:{ rewrite Hi2. change (2 =? 0) with false. cbv iota.
      exists cc, cycle, visited. split; [reflexivity|].
      split; [reflexivity|]. split; [reflexivity|].
      constructor; auto. intros v Hv Hlt.
      destruct (Z.eq_dec v i) as [->|Hne]; [assumption|].
      apply Hdone; auto. lia. }
  rewrite Hi0. change (0 =? 0) with true. cbv iota.
  destruct (walk_spec visited i Hlv H02 Hvroot Hi Hi0)
    as (visited1 & u & hasCycle & chain & Hwalk & Hwinv & Hich & Hexit).
  rewrite Hwalk. cbn [bind].
  destruct Hwinv as (Hseg & Hnd & Hchain & Hu & Hl1 & Hone & Hout1).
  assert (Hchain' : forall v, In v chain ->
            0 <= v < n /\ v <> root /\ rd visited1 v = 1).
  { intros v Hv. destruct (Hchain v Hv) as (Hvr & Hv0).
    split; [assumption|]. split; [intros ->; lia|now apply Hone]. }
  assert (Hend : In u chain \/ rd visited1 u = 2).
  { destruct hasCycle; [now left|].
    destruct (in_dec Z.eq_dec u chain) as [Hin|Hnin]; [now left|].
    right. rewrite Hout1 by (lia || assumption). assumption. }
  assert (Hlv1 : n <= Z.of_nat (length visited1)) by lia.
  destruct (settle_spec visited1 i u chain Hlv1 Hseg Hnd Hchain' Hi Hu Hend)
    as (visited2 & Hsettle & Hl2 & Htwo & Hout2).
  (* the final [visited] *)
  assert (Hin2 : forall v, In v chain -> rd visited2 v = 2) by assumption.
  assert (Hkeep : forall v, 0 <= v -> ~ In v chain ->
            rd visited2 v = rd visited v).
  { intros v Hv Hnv. rewrite Hout2, Hout1; auto. }
  assert (Hold : forall v, 0 <= v < n -> rd visited v = 2 ->
            ~ In v chain /\ rd visited2 v = 2).
  { intros v Hv H2.
    assert (Hnv : ~ In v chain).
    { intros Hc. destruct (Hchain v Hc). lia. }
    split; [assumption|]. rewrite Hkeep; auto. lia. }
  assert (Hnew : forall v, 0 <= v < n -> rd visited2 v = 2 ->
            In v chain \/ rd visited v = 2).
  { intros v Hv H2. destruct (in_dec Z.eq_dec v chain) as [Hin|Hnin];
      [now left|]. right. rewrite <- Hkeep; auto. lia. }
  assert (Hu2 : rd visited2 u = 2).
  { destruct (in_dec Z.eq_dec u chain) as [Hin|Hnin]; [auto|].
    rewrite Hout2 by (lia || assumption). destruct Hend; tauto. }
  assert (H02' : forall v, 0 <= v < n ->
            rd visited2 v = 0 \/ rd visited2 v = 2).
  { intros v Hv. destruct (in_dec Z.eq_dec v chain) as [Hin|Hnin].
    - right. auto.
    - rewrite Hkeep by (lia || assumption). auto. }
  assert (Hroot' : rd visited2 root = 2) by (now apply Hold).
  assert (Hdone' : forall v, 0 <= v < n -> v < i + 1 -> rd visited2 v = 2).
  { intros v Hv Hlt. destruct (Z.eq_dec v i) as [->|Hne]; [auto|].
    apply Hold; auto. apply Hdone; auto. lia. }
  assert (Hclosed' : forall v, 0 <= v < n -> rd visited2 v = 2 ->
            v <> root -> rd visited2 (p v) = 2).
  { intros v Hv H2 Hne. destruct (Hnew v Hv H2) as [Hin|Hv2].
    - destruct (seg_closed p i u v chain Hseg Hin) as [Hpin|Hpu].
      + auto.
      + now rewrite Hpu.
    - apply Hold; [now apply Hp|]. now apply Hclosed. }
  destruct hasCycle.
  - (* a new cycle *)
    destruct (in_split _ _ Hexit) as (pre & cyc' & Hsplit).
    assert (HsegC : seg p u u (u :: cyc')).
    { rewrite Hsplit in Hseg. apply seg_app_inv in Hseg.
      destruct Hseg as (m & _ & Hm).
      pose proof (seg_head p _ _ _ _ Hm) as (-> & _). assumption. }
    assert (HCin : forall v, In v (u :: cyc') -> In v chain).
    { intros v Hv. rewrite Hsplit. apply in_app_iff. now right. }
    assert (HndC : NoDup (u :: cyc')).
    { rewrite Hsplit in Hnd. now apply NoDup_app_remove_l in Hnd. }
    assert (HC : forall v, In v (u :: cyc') -> 0 <= v < n /\ v <> root).
    { intros v Hv. destruct (Hchain' v (HCin v Hv)) as (? & ? & _). auto. }
    destruct (mark_spec cycle cc u (u :: cyc') Hlc HsegC
                (or_introl eq_refl) HndC HC)
      as (cycle1 & Hmark & Hlc1 & Hmarked & Hrest).
    rewrite Hmark. cbn [bind]. rewrite Hsettle. cbn [bind].
    exists (cc + 1), cycle1, visited2. split; [reflexivity|].
    split; [assumption|]. split; [congruence|].
    assert (Holdflag : forall v, 0 <= v < n -> rd cycle v <> -1 ->
              ~ In v (u :: cyc') /\ rd cycle1 v = rd cycle v).
    { intros v Hv Hf. destruct (Hcyc v Hv Hf) as (_ & Hv2 & _).
      assert (Hnv : ~ In v (u :: cyc')).
      { intros Hc. now destruct (Hold v Hv Hv2) as (Hnc & _); apply Hnc, HCin. }
      split; [assumption|]. apply Hrest; [lia|assumption]. }
    constructor; auto; try lia.
    + (* every settled vertex leads to the root or to a cycle *)
      intros v Hv H2. destruct (Hnew v Hv H2) as [Hin|Hv2].
      * right. exists u. split; [assumption|]. split.
        -- rewrite Hmarked by (now left). lia.
        -- now apply (seg_orbit_from p i u v chain).
      * destruct (Hleads v Hv Hv2) as [Hr|(c & Hc & Hcf & Hvc)];
          [now left|].
        right. exists c. split; [assumption|]. split; [|assumption].
        destruct (Holdflag c Hc Hcf) as (_ & ->). assumption.
    + intros v Hv. destruct (in_dec Z.eq_dec v (u :: cyc')) as [Hin|Hnin].
      * right. rewrite Hmarked by assumption. lia.
      * rewrite Hrest by (lia || assumption).
        destruct (Hids v Hv); [now left|right; lia].
    + intros _. exists u. split; [assumption|].
      rewrite Hmarked by (now left). lia.
    + intros v Hv Hf.
      destruct (in_dec Z.eq_dec v (u :: cyc')) as [Hin|Hnin].
      * destruct (HC v Hin) as (_ & Hne). split; [assumption|].
        split; [auto|].
        rewrite (Hmarked v Hin). apply Hmarked.
        destruct (seg_closed p u u v _ HsegC Hin) as [Hpin|Hpu];
          [assumption|]. rewrite Hpu. now left.
      * rewrite Hrest in Hf by (lia || assumption).
        destruct (Hcyc v Hv Hf) as (Hne & Hv2 & Hpf).
        split; [assumption|]. split; [now apply Hold|].
        rewrite (Hrest v) by (lia || assumption).
        assert (Hpr : 0 <= p v < n) by (now apply Hp).
        assert (Hpflag : rd cycle (p v) <> -1) by congruence.
        destruct (Holdflag (p v) Hpr Hpflag) as (_ & ->). assumption.
    + intros a b Ha Hb Hfa Hab.
      destruct (in_dec Z.eq_dec a (u :: cyc')) as [Hina|Hnina];
        destruct (in_dec Z.eq_dec b (u :: cyc')) as [Hinb|Hninb].
      * now apply (seg_cycle_orbit p u a b (u :: cyc')).
      * exfalso. rewrite (Hmarked a Hina) in Hab.
        rewrite (Hrest b) in Hab by (lia || assumption).
        destruct (Hids b Hb); lia.
      * exfalso. rewrite (Hmarked b Hinb) in Hab.
        rewrite (Hrest a) in Hab by (lia || assumption).
        destruct (Hids a Ha); lia.
      * rewrite (Hrest a) in Hfa, Hab by (lia || assumption).
        rewrite (Hrest b) in Hab by (lia || assumption).
        now apply Hsame.
  - (* the chain arrives at a settled vertex *)
    cbn [bind]. rewrite Hsettle. cbn [bind].
    exists cc, cycle, visited2. split; [reflexivity|].
    split; [reflexivity|]. split; [congruence|].
    constructor; auto; try lia.
    + intros v Hv H2. destruct (Hnew v Hv H2) as [Hin|Hv2]; [|auto].
      assert (Hvu : orbit p v u) by (now apply (seg_orbit_from p i u v chain)).
      destruct (Hleads u Hu Hexit) as [Hr|(c & Hc & Hcf & Huc)].
      * left. now apply (orbit_trans p v u root).
      * right. exists c. split; [assumption|]. split; [assumption|].
        now apply (orbit_trans p v u c).
    + intros v Hv Hf. destruct (Hcyc v Hv Hf) as (Hne & Hv2 & Hpf).
      split; [assumption|]. split; [now apply Hold|assumption].
Qed.

(** ** The detection loop *)

Lemma detect_spec (cycle0 visited0 : list Z) :
  n <= Z.of_nat (length cycle0) ->
  n <= Z.of_nat (length visited0) ->
  exists cc cycle visited,
    for_upto n (detect_body fuel edges inEdge)
      (0, fill cycle0 (-1), upd (fill visited0 0) root 2) =
      Ok (cc, cycle, visited) /\
    length cycle = length cycle0 /\ length visited = length visited0 /\
    detect_inv n root p n cc cycle visited.
Proof.
  intros Hlc Hlv.
  destruct (for_upto_rule
              (fun i (s : Z * list Z * list Z) =>
                 let '(cc, cycle, visited) := s in
                 length cycle = length cycle0 /\
                 length visited = length visited0 /\
                 detect_inv n root p i cc cycle visited)
              (detect_body fuel edges inEdge) n
              (0, fill cycle0 (-1), upd (fill visited0 0) root 2))
    as (((cc, cycle), visited) & Hrun & Hpost).
  - lia.
  - split; [apply length_fill|].
    split; [now rewrite length_upd, length_fill|].
    assert (Hvis : forall v, 0 <= v < n ->
              rd (upd (fill visited0 0) root 2) v =
              if v =? root then 2 else 0).
    { intros v Hv. destruct (v =? root) eqn:Hvr.
      - apply Z.eqb_eq in Hvr. subst v. apply rd_upd_eq.
        rewrite length_fill. lia.
      - apply Z.eqb_neq in Hvr. rewrite rd_upd_neq by lia.
        apply rd_fill. lia. }
    assert (Hcy : forall v, 0 <= v < n -> rd (fill cycle0 (-1)) v = -1).
    { intros v Hv. apply rd_fill. lia. }
    constructor.
    + rewrite length_fill. lia.
    + rewrite length_upd, length_fill. lia.
    + intros v Hv. rewrite Hvis by assumption. destruct (v =? root); auto.
    + rewrite Hvis by assumption. now rewrite Z.eqb_refl.
    + intros v Hv Hlt. lia.
    + intros v Hv H2 Hne. rewrite Hvis in H2 by assumption.
      apply Z.eqb_neq in Hne. rewrite Hne in H2. discriminate.
    + intros v Hv H2. rewrite Hvis in H2 by assumption.
      destruct (v =? root) eqn:Hvr; [|discriminate].
      apply Z.eqb_eq in Hvr. subst v. left. apply orbit_refl.
    + lia.
    + intros v Hv. left. now apply Hcy.
    + lia.
    + intros v Hv Hf. now rewrite Hcy in Hf.
    + intros a b Ha Hb Hf. now rewrite Hcy in Hf.
  - intros j ((cc, cycle), visited) Hj (Hl1 & Hl2 & Hinv).
    destruct (detect_step j cc cycle visited Hj Hinv)
      as (cc' & cycle' & visited' & Hstep & Hl1' & Hl2' & Hinv').
    exists (cc', cycle', visited'). split; [assumption|].
    split; [congruence|]. split; [congruence|]. assumption.
  - exists cc, cycle, visited. tauto.
Qed.

End Detect.
(** * Accumulation (lines 87-91) *)

Lemma accumulate_exact_spec (n root : Z) (edges : list Edge) (inEdge : list Z)
  (acc : Z) :
  0 <= n <= Z.of_nat (length inEdge) ->
  (forall v, 0 <= v < n -> v <> root ->
     0 <= rd inEdge v < Z.of_nat (length edges)) ->
  for_upto n (accumulate_exact root edges inEdge) acc =
  Ok (acc + zsum (fun v => weight (sel_of edges inEdge v)) (nonroot n root)).
Proof.
  intros Hn Hsel.
  destruct (for_upto_rule
              (fun i a => a = acc +
                 zsum (fun v => if v =? root then 0
                                else weight (sel_of edges inEdge v))
                   (vertices i))
              (accumulate_exact root edges inEdge) n acc) as (t & Ht & Hpost).
  - lia.
  - simpl. lia.
  - intros j t Hj ->. rewrite vertices_succ by lia. rewrite zsum_app.
    cbn [zsum fold_right]. unfold accumulate_exact.
    destruct (j =? root) eqn:Hjr; cbn [negb].
    + eexists. split; [reflexivity|]. lia.
    + apply Z.eqb_neq in Hjr. specialize (Hsel j Hj Hjr).
      rewrite (get_rd inEdge j) by lia. cbn [bind].
      replace (rd inEdge j =? -1) with false
        by (symmetry; apply Z.eqb_neq; lia).
      cbn [negb]. rewrite (get_edge edges (rd inEdge j)) by lia.
      cbn [bind]. eexists. split; [reflexivity|].
      unfold sel_of. lia.
  - rewrite Ht, Hpost. now rewrite nonroot_sum.
Qed.
(** * Relabelling (lines 98-113) *)

Section Relabel.

#[local] Set Default Proof Using "All".

Variables (n root : Z) (edges : list Edge) (inEdge cycle : list Z).
Variable fuel : nat.

Let p : Z -> Z := par edges inEdge.

Hypothesis Hroot : 0 <= root < n.
Hypothesis Hfuel : (Z.to_nat n <= fuel)%nat.
Hypothesis HlenI : n <= Z.of_nat (length inEdge).
Hypothesis Hlc : n <= Z.of_nat (length cycle).
Hypothesis Hp : forall v, 0 <= v < n -> v <> root ->
  0 <= rd inEdge v < Z.of_nat (length edges) /\ 0 <= p v < n /\ p v <> v.
Hypothesis Hflag : forall v, 0 <= v < n -> rd cycle v <> -1 ->
  v <> root /\ rd cycle (p v) = rd cycle v.
Hypothesis Hsame : forall u v, 0 <= u < n -> 0 <= v < n ->
  rd cycle u <> -1 -> rd cycle u = rd cycle v -> orbit p u v.

Ltac step_sel v :=
  let H1 := fresh in
  let H2 := fresh in
  destruct (read_sel n root edges inEdge HlenI Hp v) as (H1 & H2);
  [assumption|assumption|];
  rewrite H1; cbn [bind]; rewrite H2; cbn [bind];
  change (from (sel_of edges inEdge v)) with (p v); clear H1 H2.

(** The vertices of a segment that starts at a labelled vertex carry its
    label. *)
Lemma seg_flagged (a u : Z) (l : list Z) :
  seg p a u l -> 0 <= a < n -> rd cycle a <> -1 ->
  forall x, In x l -> 0 <= x < n /\ rd cycle x = rd cycle a.
Proof.
  induction 1 as [u|a u l H IH]; intros Ha Hf x Hx; [destruct Hx|].
  destruct Hx as [<-|Hx]; [auto|].
  destruct (Hflag a Ha Hf) as (Hne & Hpf).
  destruct (IH (proj1 (proj2 (Hp a Ha Hne)))) with (x := x) as (Hxr & Hxc);
    [congruence|assumption|].
  split; [assumption|congruence].
Qed.

(** ** The walk around a cycle (lines 104-108) *)

Lemma relabel_walk_spec (id1 : list Z) (nn i c0 : Z) (L : list Z) :
  n <= Z.of_nat (length id1) ->
  seg p c0 i L -> ~ In i L -> 0 <= c0 < n ->
  (forall x, In x L -> 0 <= x < n /\ x <> root) ->
  exists id2,
    while_loop fuel (relabel_walk_body edges inEdge nn i) (id1, c0) = Ok id2 /\
    length id2 = length id1 /\
    (forall x, In x L -> rd id2 x = nn) /\
    (forall x, 0 <= x -> ~ In x L -> rd id2 x = rd id1 x).
Proof.
  intros Hlen Hseg Hi Hc0 HL.
  assert (Hnd : NoDup L) by (now apply (seg_NoDup p c0 i)).
  apply (while_loop_ghost
           (fun (g : list Z * list Z) (s : list Z * Z) =>
              let '(done, rest) := g in
              let '(id, cur) := s in
              L = done ++ rest /\
              seg p cur i rest /\
              0 <= cur < n /\
              length id = length id1 /\
              (forall x, In x done -> rd id x = nn) /\
              (forall x, 0 <= x -> ~ In x done -> rd id x = rd id1 x))
           (fun id2 =>
              length id2 = length id1 /\
              (forall x, In x L -> rd id2 x = nn) /\
              (forall x, 0 <= x -> ~ In x L -> rd id2 x = rd id1 x))
           (fun g => length (snd g))
           (relabel_walk_body edges inEdge nn i)) with (g := (@nil Z, L)).
  - intros (done, rest) (id, cur) (Hsplit & Hsg & Hcur & Hl & Hdone & Hout).
    unfold relabel_walk_body.
    destruct rest as [|y rest].
    + apply seg_nil_inv in Hsg. subst cur. rewrite app_nil_r in Hsplit.
      subst done. rewrite Z.eqb_refl.
      eexists. split; [reflexivity|]. cbv beta iota. auto.
    + pose proof (seg_head p _ _ _ _ Hsg) as (-> & Hsg').
      assert (Hin : In cur L) by (rewrite Hsplit; apply in_elt).
      destruct (HL cur Hin) as (_ & Hne).
      replace (cur =? i) with false
        by (symmetry; apply Z.eqb_neq; intros ->; contradiction).
      assert (Hnd2 : ~ In cur done).
      { rewrite Hsplit in Hnd. apply NoDup_remove_2 in Hnd.
        intros Hc. apply Hnd. apply in_app_iff. now left. }
      rewrite (set_upd id cur nn) by lia. cbn [bind].
      step_sel cur.
      eexists. split; [reflexivity|]. cbv beta iota.
      exists (done ++ [cur], rest). split; [|simpl; lia].
      split; [rewrite Hsplit, <- app_assoc; reflexivity|].
      split; [assumption|]. split; [now apply Hp|].
      split; [now rewrite length_upd|]. split.
      * intros x Hx. apply in_app_iff in Hx. destruct Hx as [Hx|[<-|[]]].
        -- rewrite rd_upd_neq; auto; try lia.
           ++ assert (In x L)
                by (rewrite Hsplit; apply in_app_iff; now left).
              destruct (HL x); auto. lia.
           ++ intros ->. contradiction.
        -- apply rd_upd_eq. lia.
      * intros x Hx Hnx. rewrite rd_upd_neq; try lia.
        -- apply Hout; auto. intros Hc. apply Hnx. apply in_app_iff.
           now left.
        -- intros ->. apply Hnx. apply in_app_iff. right. now left.
  - split; [reflexivity|]. split; [assumption|]. split; [assumption|].
    split; [reflexivity|]. split; [intros x []|]. auto.
  - simpl.
    assert ((length L < Z.to_nat n)%nat); [|lia].
    apply (chain_length n root); assumption.
Qed.

(** A labelled vertex that already has a new index shares it with the
    vertices it leads to. *)
Lemma relabelled_orbit (i : Z) (id : list Z) (nn : Z) (x y : Z) :
  relabel_inv n p cycle i id nn ->
  orbit p x y -> 0 <= x < n -> rd cycle x <> -1 -> rd id x <> 0 ->
  rd id y = rd id x.
Proof.
  intros Hinv. induction 1 as [u|u v H IH]; intros Hu Hf Hid;
    [reflexivity|].
  destruct (Hflag u Hu Hf) as (Hne & Hpf).
  assert (Hpid : rd id (p u) = rd id u) by (now apply (ri_closed _ _ _ _ _ _ Hinv)).
  rewrite <- Hpid. apply IH; try congruence. now apply Hp.
Qed.

(** ** One pass of the relabelling loop *)

Lemma relabel_step (i : Z) (id : list Z) (nn : Z) :
  0 <= i < n ->
  relabel_inv n p cycle i id nn ->
  exists id' nn',
    relabel_body fuel edges inEdge cycle i (id, nn) = Ok (id', nn') /\
    relabel_inv n p cycle (i + 1) id' nn'.
Proof.
  intros Hi Hinv. pose proof Hinv as
    [Hlen Hcount Hrange Hdone Hclosed Hclass Honto Hmerge Hfresh].
  unfold relabel_body.
  rewrite (get_rd cycle i) by lia. cbn [bind].
  destruct (rd cycle i =? -1) eqn:Hci; cbn [negb].
  - (* a vertex outside every cycle *)
    apply Z.eqb_eq in Hci.
    rewrite (set_upd id i (nn + 1)) by lia. cbn [bind].
    exists (upd id i (nn + 1)), (nn + 1). split; [reflexivity|].
    assert (Hi0 : rd id i = 0).
    { destruct (Z.eq_dec (rd id i) 0) as [|Hnz]; [assumption|].
      destruct (Hfresh i Hi Hnz); [lia|contradiction]. }
    assert (Hnew : rd (upd id i (nn + 1)) i = nn + 1)
      by (apply rd_upd_eq; lia).
    assert (Hold : forall v, 0 <= v -> v <> i ->
              rd (upd id i (nn + 1)) v = rd id v)
      by (intros v Hv Hne; apply rd_upd_neq; lia).
    constructor.
    + now rewrite length_upd.
    + lia.
    + intros v Hv. destruct (Z.eq_dec v i) as [->|Hne].
      * rewrite Hnew. lia.
      * rewrite Hold by lia. specialize (Hrange v Hv). lia.
    + intros v Hv Hlt. destruct (Z.eq_dec v i) as [->|Hne].
      * rewrite Hnew. lia.
      * rewrite Hold by lia. apply Hdone; auto. lia.
    + intros v Hv Hid Hf.
      assert (Hvi : v <> i) by congruence.
      rewrite (Hold v) in Hid |- * by lia.
      destruct (Hflag v Hv Hf) as (Hne & Hpf).
      destruct (Hp v Hv Hne) as (_ & Hpr & _).
      rewrite Hold; [now apply Hclosed|lia|congruence].
    + intros u v Hu Hv Hid Heq.
      destruct (Z.eq_dec u i) as [->|Hui];
        destruct (Z.eq_dec v i) as [->|Hvi]; auto.
      * rewrite Hnew, Hold in Heq by lia. specialize (Hrange v Hv). lia.
      * rewrite Hnew, Hold in Heq by lia. specialize (Hrange u Hu). lia.
      * rewrite !Hold in Heq by lia. rewrite Hold in Hid by lia. auto.
    + intros x Hx. destruct (Z.eq_dec x (nn + 1)) as [->|Hne].
      * exists i. auto.
      * destruct (Honto x) as (v & Hv & Hidv); [lia|].
        exists v. split; [assumption|]. rewrite Hold; [assumption|lia|].
        intros ->. lia.
    + intros u v Hu Hv Huv Hlt Heq.
      destruct (Z.eq_dec v i) as [->|Hvi].
      * rewrite Hnew, Hold in Heq by lia. specialize (Hrange u Hu). lia.
      * rewrite !Hold in Heq by lia.
        assert (nn < i); [|lia]. apply (Hmerge u v); auto. lia.
    + intros v Hv Hid. destruct (Z.eq_dec v i) as [->|Hne]; [left; lia|].
      rewrite Hold in Hid by lia. destruct (Hfresh v Hv Hid); [left; lia|auto].
  - apply Z.eqb_neq in Hci.
    rewrite (get_rd id i) by lia. cbn [bind].
    destruct (Hflag i Hi Hci) as (Hine & Hpci).
    destruct (Hp i Hi Hine) as (_ & Hpi & Hpne).
    destruct (rd id i =? 0) eqn:Hidi.
    + (* the first vertex of its cycle *)
      apply Z.eqb_eq in Hidi.
      rewrite (set_upd id i (nn + 1)) by lia. cbn [bind].
      step_sel i.
      assert (Horb : orbit p (p i) i) by (apply Hsame; auto; congruence).
      destruct (orbit_seg_first p _ _ Horb) as (L & HsegL & HiL).
      assert (HLflag : forall x, In x L ->
                0 <= x < n /\ rd cycle x = rd cycle i).
      { intros x Hx.
        destruct (seg_flagged _ _ _ HsegL Hpi) with (x := x);
          [congruence|assumption|]. split; [assumption|congruence]. }
      assert (HL : forall x, In x L -> 0 <= x < n /\ x <> root).
      { intros x Hx. destruct (HLflag x Hx) as (Hxr & Hxc).
        split; [assumption|]. apply Hflag; [assumption|congruence]. }
      destruct (relabel_walk_spec (upd id i (nn + 1)) (nn + 1) i (p i) L)
        as (id2 & Hwalk & Hl2 & Hin2 & Hout2); auto.
      { rewrite length_upd. lia. }
      rewrite Hwalk. cbn [bind].
      exists id2, (nn + 1). split; [reflexivity|].
      set (W := i :: L).
      assert (HsegW : seg p i i W) by (now apply seg_cons).
      assert (HW : forall x, In x W -> 0 <= x < n /\ rd cycle x = rd cycle i).
      { intros x [<-|Hx]; auto. }
      assert (HWzero : forall x, In x W -> rd id x = 0).
      { intros x Hx. destruct (HW x Hx) as (Hxr & Hxc).
        destruct (Z.eq_dec (rd id x) 0) as [|Hnz]; [assumption|].
        exfalso.
        assert (Hxi : orbit p x i)
          by (now apply (seg_orbit_from p i i x W)).
        assert (rd id i = rd id x)
          by (apply (relabelled_orbit i id nn x i); auto; congruence).
        congruence. }
      assert (Hnew : forall x, In x W -> rd id2 x = nn + 1).
      { intros x [<-|Hx]; [|auto].
        rewrite Hout2 by (lia || assumption). apply rd_upd_eq. lia. }
      assert (Hold : forall x, 0 <= x -> ~ In x W -> rd id2 x = rd id x).
      { intros x Hx Hnx. rewrite Hout2.
        - apply rd_upd_neq; try lia. intros ->. apply Hnx. now left.
        - assumption.
        - intros Hc. apply Hnx. now right. }
      assert (Hnz : forall x, 0 <= x < n -> rd id x <> 0 ->
                ~ In x W /\ rd id2 x = rd id x).
      { intros x Hx Hid.
        assert (Hnx : ~ In x W)
          by (intros Hc; apply Hid; now apply HWzero).
        split; [assumption|]. apply Hold; [lia|assumption]. }
      constructor.
      * rewrite Hl2, length_upd. assumption.
      * lia.
      * intros v Hv. destruct (in_dec Z.eq_dec v W) as [Hin|Hnin].
        -- rewrite (Hnew v Hin). lia.
        -- rewrite Hold by (lia || assumption). specialize (Hrange v Hv). lia.
      * intros v Hv Hlt. destruct (in_dec Z.eq_dec v W) as [Hin|Hnin].
        -- rewrite (Hnew v Hin). lia.
        -- rewrite Hold by (lia || assumption). apply Hdone; auto.
           assert (v <> i) by (intros ->; apply Hnin; now left). lia.
      * intros v Hv Hid Hf. destruct (in_dec Z.eq_dec v W) as [Hin|Hnin].
        -- rewrite (Hnew v Hin). apply Hnew.
           destruct (seg_closed p i i v W HsegW Hin) as [Hpin|Hpu];
             [assumption|]. rewrite Hpu. now left.
        -- rewrite (Hold v) in Hid |- * by (lia || assumption).
           destruct (Hflag v Hv Hf) as (Hne & Hpf).
           destruct (Hp v Hv Hne) as (_ & Hpr & _).
           assert (Hpid : rd id (p v) = rd id v) by (now apply Hclosed).
           destruct (Hnz (p v) Hpr) as (_ & ->); congruence.
      * intros u v Hu Hv Hid Heq.
        destruct (in_dec Z.eq_dec u W) as [Hinu|Hninu];
          destruct (in_dec Z.eq_dec v W) as [Hinw|Hninw].
        -- right. destruct (HW u Hinu) as (_ & Hcu).
           destruct (HW v Hinw) as (_ & Hcv). split; congruence.
        -- rewrite (Hnew u Hinu), Hold in Heq by (lia || assumption).
           specialize (Hrange v Hv). lia.
        -- rewrite (Hnew v Hinw), Hold in Heq by (lia || assumption).
           specialize (Hrange u Hu). lia.
        -- rewrite !Hold in Heq by (lia || assumption).
           rewrite Hold in Hid by (lia || assumption). auto.
      * intros x Hx. destruct (Z.eq_dec x (nn + 1)) as [->|Hne].
        -- exists i. split; [assumption|]. apply Hnew. now left.
        -- destruct (Honto x) as (v & Hv & Hidv); [lia|].
           exists v. split; [assumption|].
           destruct (Hnz v Hv) as (_ & ->); [lia|assumption].
      * intros u v Hu Hv Huv Hlt Heq.
        assert (Hu1 : 1 <= rd id u) by (apply Hdone; auto; lia).
        destruct (Hnz u Hu) as (_ & Hequ); [lia|]. rewrite Hequ in Heq.
        destruct (Z.eq_dec v i) as [->|Hvi].
        -- rewrite Hnew in Heq by (now left). specialize (Hrange u Hu). lia.
        -- assert (Hv1 : 1 <= rd id v) by (apply Hdone; auto; lia).
           destruct (Hnz v Hv) as (_ & Heqv); [lia|]. rewrite Heqv in Heq.
           assert (nn < i); [|lia]. apply (Hmerge u v); auto. lia.
      * intros v Hv Hid. destruct (in_dec Z.eq_dec v W) as [Hin|Hnin].
        -- right. destruct (HW v Hin). congruence.
        -- rewrite Hold in Hid by (lia || assumption).
           destruct (Hfresh v Hv Hid); [left; lia|auto].
    + (* a vertex of a cycle that has its index already *)
      apply Z.eqb_neq in Hidi.
      exists id, nn. split; [reflexivity|].
      constructor; auto.
      * lia.
      * intros v Hv Hlt. destruct (Z.eq_dec v i) as [->|Hne].
        -- specialize (Hrange i Hi). lia.
        -- apply Hdone; auto. lia.
      * intros u v Hu Hv Huv Hlt Heq.
        destruct (Z.eq_dec v i) as [->|Hvi]; [lia|].
        assert (nn < i); [|lia]. apply (Hmerge u v); auto. lia.
      * intros v Hv Hid. destruct (Hfresh v Hv Hid); [left; lia|auto].
Qed.

(** ** The relabelling loop *)

Lemma relabel_spec :
  exists id nn,
    for_upto n (relabel_body fuel edges inEdge cycle)
      (repeat 0 (Z.to_nat n), 0) = Ok (id, nn) /\
    relabel_inv n p cycle n id nn.
Proof.
  destruct (for_upto_rule
              (fun i (s : list Z * Z) =>
                 let '(id, nn) := s in relabel_inv n p cycle i id nn)
              (relabel_body fuel edges inEdge cycle) n
              (repeat 0 (Z.to_nat n), 0)) as ((id, nn) & Hrun & Hpost).
  - lia.
  - assert (Hz : forall v, 0 <= v < n -> rd (repeat 0 (Z.to_nat n)) v = 0)
      by (intros v Hv; apply rd_repeat; lia).
    constructor.
    + rewrite repeat_length. lia.
    + lia.
    + intros v Hv. rewrite Hz by assumption. lia.
    + intros v Hv Hlt. lia.
    + intros v Hv Hid. now rewrite Hz in Hid.
    + intros u v Hu Hv Hid. now rewrite Hz in Hid.
    + intros x Hx. lia.
    + intros u v Hu Hv Huv Hlt. lia.
    + intros v Hv Hid. now rewrite Hz in Hid.
  - intros j (id, nn) Hj Hinv.
    destruct (relabel_step j id nn Hj Hinv) as (id' & nn' & Hstep & Hinv').
    exists (id', nn'). auto.
  - exists id, nn. auto.
Qed.

(** ** The classes of the new indices *)

Lemma relabel_same_cycle (id : list Z) (nn u v : Z) :
  relabel_inv n p cycle n id nn ->
  0 <= u < n -> 0 <= v < n ->
  rd cycle u <> -1 -> rd cycle u = rd cycle v -> rd id u = rd id v.
Proof.
  intros Hinv Hu Hv Hf Heq. symmetry.
  apply (relabelled_orbit n id nn u v Hinv); auto.
  assert (1 <= rd id u) by (apply (ri_done _ _ _ _ _ _ Hinv); auto; lia).
  lia.
Qed.

Lemma relabel_same_class (id : list Z) (nn u v : Z) :
  relabel_inv n p cycle n id nn ->
  0 <= u < n -> 0 <= v < n -> rd id u = rd id v ->
  same_class (sel_of edges inEdge) (idf_of id) u v.
Proof.
  intros Hinv Hu Hv Heq.
  assert (Hnz : forall x, 0 <= x < n -> rd id x <> 0).
  { intros x Hx.
    assert (1 <= rd id x) by (apply (ri_done _ _ _ _ _ _ Hinv); auto; lia).
    lia. }
  destruct (ri_class _ _ _ _ _ _ Hinv u v Hu Hv (Hnz u Hu) Heq)
    as [->|(Hf & Hc)]; [apply same_class_refl|].
  assert (Horb : orbit p u v) by (now apply Hsame).
  clear Heq Hc Hv. induction Horb as [u|u v H IH]; [apply same_class_refl|].
  destruct (Hflag u Hu Hf) as (Hne & Hpf).
  destruct (Hp u Hu Hne) as (_ & Hpr & _).
  apply same_class_step.
  - unfold idf_of. change (from (sel_of edges inEdge u)) with (p u).
    rewrite (ri_closed _ _ _ _ _ _ Hinv u); auto.
  - apply IH; [assumption|congruence].
Qed.

Lemma relabel_contraction (id : list Z) (nn : Z) :
  wf_input n root edges ->
  selected n root edges (sel_of edges inEdge) ->
  relabel_inv n p cycle n id nn ->
  contraction n root edges (sel_of edges inEdge) (idf_of id) nn.
Proof.
  intros Hwf Hsel Hinv.
  assert (Hid : forall v, 0 <= v < n -> 1 <= rd id v <= nn).
  { intros v Hv. split.
    - apply (ri_done _ _ _ _ _ _ Hinv); auto. lia.
    - now apply (ri_range _ _ _ _ _ _ Hinv). }
  split; [assumption|]. split; [|split; [|split]].
  - intros v Hv. unfold idf_of. specialize (Hid v Hv). lia.
  - intros x Hx. destruct (ri_onto _ _ _ _ _ _ Hinv (x + 1)) as (v & Hv & Hidv);
      [lia|]. exists v. split; [assumption|]. unfold idf_of. lia.
  - intros v Hv Heq. unfold idf_of in Heq.
    assert (Heq' : rd id v = rd id root) by lia.
    assert (Hnz : rd id v <> 0) by (specialize (Hid v Hv); lia).
    destruct (ri_class _ _ _ _ _ _ Hinv v root Hv Hroot Hnz Heq')
      as [?|(Hf & Hc)]; [assumption|].
    exfalso. assert (Hfr : rd cycle root <> -1) by congruence.
    destruct (Hflag root Hroot Hfr) as (Hne & _). now apply Hne.
  - intros u v Hu Hv Heq. unfold idf_of in Heq.
    apply (relabel_same_class id nn); auto. lia.
Qed.

(** A cycle makes the contracted graph smaller. *)
Lemma relabel_smaller (id : list Z) (nn c : Z) :
  relabel_inv n p cycle n id nn ->
  0 <= c < n -> rd cycle c <> -1 -> 1 <= nn < n.
Proof.
  intros Hinv Hc Hf.
  destruct (Hflag c Hc Hf) as (Hne & Hpf).
  destruct (Hp c Hc Hne) as (_ & Hpr & Hpne).
  assert (H1 : 1 <= rd id c) by (apply (ri_done _ _ _ _ _ _ Hinv); auto; lia).
  assert (H2 := ri_range _ _ _ _ _ _ Hinv c Hc).
  assert (Heq : rd id (p c) = rd id c)
    by (apply (ri_closed _ _ _ _ _ _ Hinv); auto; lia).
  split; [lia|].
  destruct (Z_lt_le_dec c (p c)) as [Hlt|Hge].
  - apply (ri_merge _ _ _ _ _ _ Hinv c (p c)); auto; lia.
  - apply (ri_merge _ _ _ _ _ _ Hinv (p c) c); auto; lia.
Qed.

End Relabel.

(** * The contracted edges (lines 115-124) *)

Lemma contracted_edges_snoc (sel : Z -> Edge) (idf : Z -> Z)
  (d : list Edge) (e : Edge) :
  contracted_edges sel idf (d ++ [e]) =
  contracted_edges sel idf d ++
  (if crossing idf e then [contract_edge sel idf e] else []).
Proof.
  unfold contracted_edges. rewrite filter_app, map_app. simpl.
  now destruct (crossing idf e).
Qed.

Lemma contract_exact_spec (n : Z) (edges : list Edge) (inEdge id : list Z) :
  Z.of_nat (length id) = n ->
  n <= Z.of_nat (length inEdge) ->
  (forall e, In e edges -> 0 <= from e < n /\ 0 <= to e < n) ->
  (forall e, In e edges -> from e <> to e ->
     0 <= rd inEdge (to e) < Z.of_nat (length edges)) ->
  for_each edges 0 (contract_exact edges inEdge id) [] =
  Ok (contracted_edges (sel_of edges inEdge) (idf_of id) edges).
Proof.
  intros Hlen HlenI Hrange Hsel.
  destruct (for_each_rule
              (fun done acc =>
                 acc = contracted_edges (sel_of edges inEdge) (idf_of id) done)
              (contract_exact edges inEdge id) edges []) as (t & Ht & Hpost).
  - reflexivity.
  - intros d e r t Hsplit ->.
    assert (He : In e edges) by (rewrite Hsplit; apply in_elt).
    destruct (Hrange e He) as (Hf & Ht).
    unfold contract_exact.
    rewrite (get_rd id (from e)) by lia. cbn [bind].
    rewrite (get_rd id (to e)) by lia. cbn [bind].
    rewrite contracted_edges_snoc. unfold crossing, idf_of.
    destruct (rd id (from e) - 1 =? rd id (to e) - 1) eqn:Hcr; cbn [negb].
    + eexists. split; [reflexivity|]. now rewrite app_nil_r.
    + apply Z.eqb_neq in Hcr.
      assert (Hne : from e <> to e) by (intros Heq; rewrite Heq in Hcr; lia).
      specialize (Hsel e He Hne).
      rewrite (get_rd inEdge (to e)) by lia. cbn [bind].
      rewrite (get_edge edges (rd inEdge (to e))) by lia. cbn [bind].
      eexists. split; reflexivity.
  - now rewrite Ht, Hpost.
Qed.
(** * One iteration over unbounded integers *)

Lemma select_phase_spec (n root : Z) (edges : list Edge) (inEdge0 : list Z) :
  wf_input n root edges ->
  n <= Z.of_nat (length inEdge0) ->
  exists inEdge,
    select_phase n edges inEdge0 = Ok inEdge /\
    length inEdge = length inEdge0 /\
    selection_inv n edges edges inEdge.
Proof.
  intros (Hn & Hroot & Hedges) Hlen. unfold select_phase.
  destruct (reset_spec n inEdge0) as (inEdge1 & Hreset & Hl1 & Hinit); [lia|].
  rewrite Hreset. cbn [bind].
  destruct (select_spec n edges inEdge1) as (inEdge & Hsel & Hl & Hinv).
  - lia.
  - intros e He. now apply Hedges.
  - assumption.
  - exists inEdge. split; [assumption|]. split; [congruence|assumption].
Qed.

(** The edge selected for the target of an edge that is not a self-loop. *)
Lemma selection_entering (n root : Z) (edges : list Edge) (inEdge : list Z)
  (e : Edge) :
  wf_input n root edges ->
  selection_inv n edges edges inEdge ->
  In e edges -> from e <> to e ->
  0 <= rd inEdge (to e) < Z.of_nat (length edges) /\
  weight (sel_of edges inEdge (to e)) <= weight e.
Proof.
  intros (_ & _ & Hedges) Hinv He Hne.
  destruct (Hinv (to e)) as [(_ & Hall)|(Hr & _ & _ & Hmin)].
  - now apply Hedges.
  - exfalso. apply Hne. now apply Hall.
  - split; [assumption|]. apply Hmin; auto.
Qed.

Lemma selection_selected (n root : Z) (edges : list Edge) (inEdge : list Z) :
  wf_input n root edges ->
  selection_inv n edges edges inEdge ->
  (forall v, 0 <= v < n -> v <> root -> rd inEdge v <> -1) ->
  selected n root edges (sel_of edges inEdge) /\
  forall v, 0 <= v < n -> v <> root ->
    0 <= rd inEdge v < Z.of_nat (length edges) /\
    0 <= par edges inEdge v < n /\ par edges inEdge v <> v.
Proof.
  intros (_ & _ & Hedges) Hinv Hall.
  assert (Hv0 : forall v, 0 <= v < n -> v <> root ->
            0 <= rd inEdge v < Z.of_nat (length edges) /\
            In (sel_of edges inEdge v) edges /\
            to (sel_of edges inEdge v) = v /\
            from (sel_of edges inEdge v) <> v /\
            forall e, In e edges -> to e = v -> from e <> v ->
              weight (sel_of edges inEdge v) <= weight e).
  { intros v Hv Hne.
    destruct (Hinv v Hv) as [(Hm & _)|(Hr & Hto & Hfrom & Hmin)].
    - exfalso. now apply (Hall v).
    - split; [assumption|]. split; [now apply edge_at_in|auto]. }
  split.
  - intros v Hv Hne. destruct (Hv0 v Hv Hne) as (_ & H). exact H.
  - intros v Hv Hne. destruct (Hv0 v Hv Hne) as (Hr & Hin & _ & Hfrom & _).
    split; [assumption|]. split; [|assumption]. now apply Hedges.
Qed.

Theorem iteration_exact_spec (fuel : nat) (s : state) :
  state_ok s ->
  (Z.to_nat (st_n s) <= fuel)%nat ->
  exists r, iteration_exact fuel s = Ok r /\ iteration_post s r.
Proof.
  destruct s as [n root edges acc inEdge0 cycle0 visited0].
  unfold state_ok, iteration_exact, iteration_post. cbn [st_n st_root st_edges
    st_minWeight st_inEdge st_cycle st_visited].
  intros (Hwf & HlI & Hlc & Hlv) Hfuel.
  pose proof Hwf as (Hn & Hroot & Hedges).
  destruct (select_phase_spec n root edges inEdge0 Hwf HlI)
    as (inEdge & Hselect & HlI' & Hinv).
  rewrite Hselect. cbn [bind].
  destruct (check_spec root inEdge (Z.to_nat n) 0)
    as (missing & Hcheck & Hmiss & Hnomiss); [lia|lia|].
  rewrite Hcheck. cbn [bind].
  destruct missing.
  { (* some vertex has no entering edge *)
    eexists. split; [reflexivity|]. cbn [out_edges out_exit out_value].
    split; [reflexivity|]. split; [reflexivity|].
    destruct (Hmiss eq_refl) as (v & Hv & Hne & Hm).
    assert (Hv' : 0 <= v < n) by lia.
    exists v. split; [assumption|]. split; [assumption|].
    destruct (Hinv v Hv') as [(_ & Hall)|(Hr & _)]; [assumption|lia]. }
  assert (Hall : forall v, 0 <= v < n -> v <> root -> rd inEdge v <> -1).
  { intros v Hv Hne. apply Hnomiss; auto. lia. }
  destruct (selection_selected n root edges inEdge Hwf Hinv Hall)
    as (Hsel & Hp).
  assert (HlI2 : n <= Z.of_nat (length inEdge)) by lia.
  (* cycle detection *)
  unfold detect_phase.
  rewrite (set_upd (fill visited0 0) root 2) by (rewrite length_fill; lia).
  cbn [bind].
  destruct (detect_spec n root edges inEdge fuel Hroot Hfuel HlI2 Hp
              cycle0 visited0 Hlc Hlv)
    as (cc & cycle & visited & Hdetect & Hlc' & Hlv' & Hdinv).
  rewrite Hdetect. cbn [bind].
  (* accumulation *)
  rewrite (accumulate_exact_spec n root edges inEdge acc)
    by (lia || (intros v Hv Hne; now apply Hp)).
  cbn [bind]. fold (selected_weight n root (sel_of edges inEdge)).
  destruct (cc =? 0) eqn:Hcc.
  { (* no cycle: the selected edges are the answer *)
    apply Z.eqb_eq in Hcc. subst cc.
    eexists. split; [reflexivity|]. cbn [out_edges out_exit out_value].
    split; [reflexivity|].
    exists (sel_of edges inEdge). split; [assumption|].
    split; [|reflexivity].
    intros v Hv. apply (orbit_climbs _ root v root); [|reflexivity].
    assert (Hv2 : rd visited v = 2)
      by (apply (di_done _ _ _ _ _ _ _ Hdinv); auto; lia).
    destruct (di_leads _ _ _ _ _ _ _ Hdinv v Hv Hv2)
      as [Hr|(c & Hc & Hcf & _)]; [exact Hr|].
    exfalso. destruct (di_ids _ _ _ _ _ _ _ Hdinv c Hc); lia. }
  apply Z.eqb_neq in Hcc.
  assert (Hflag : forall v, 0 <= v < n -> rd cycle v <> -1 ->
            v <> root /\ rd cycle (par edges inEdge v) = rd cycle v).
  { intros v Hv Hf.
    destruct (di_cycle _ _ _ _ _ _ _ Hdinv v Hv Hf) as (? & _ & ?). auto. }
  assert (Hsame := di_same _ _ _ _ _ _ _ Hdinv).
  assert (Hlc2 : n <= Z.of_nat (length cycle)) by lia.
  destruct (di_some _ _ _ _ _ _ _ Hdinv) as (c & Hc & Hcf).
  { assert (H0 := di_count _ _ _ _ _ _ _ Hdinv). lia. }
  (* contraction *)
  unfold contract_phase_exact.
  destruct (relabel_spec n root edges inEdge cycle fuel Hroot Hfuel HlI2
              Hlc2 Hp Hflag Hsame) as (id & nn & Hrelabel & Hrinv).
  rewrite Hrelabel. cbn [bind].
  assert (Hlid := ri_len _ _ _ _ _ _ Hrinv).
  rewrite (contract_exact_spec n edges inEdge id Hlid HlI2 Hedges).
  2:{ intros e He Hne. now apply (selection_entering n root edges inEdge e). }
  cbn [bind]. rewrite (get_rd id root) by lia. cbn [bind].
  eexists. split; [reflexivity|].
  cbn [st_n st_root st_edges st_minWeight st_inEdge st_cycle st_visited].
  assert (Hcon : contraction n root edges (sel_of edges inEdge)
                   (idf_of id) nn)
    by (now apply (relabel_contraction n root edges inEdge cycle fuel)).
  assert (Hsmall : 1 <= nn < n)
    by (now apply (relabel_smaller n root edges inEdge cycle fuel Hroot Hfuel
                     HlI2 Hlc2 Hp Hflag Hsame id nn c)).
  split; [|split; [lia|]].
  - unfold state_ok.
    cbn [st_n st_root st_edges st_minWeight st_inEdge st_cycle st_visited].
    split; [|lia].
    apply (contraction_wf n root edges (sel_of edges inEdge) (idf_of id) nn);
      assumption.
  - exists (sel_of edges inEdge), (idf_of id).
    split; [assumption|]. split; [reflexivity|]. split; [reflexivity|].
    split; [reflexivity|]. split.
    { intros e He Hne.
      destruct (selection_entering n root edges inEdge e Hwf Hinv He Hne)
        as (Hr & Hle).
      split; [|assumption]. now apply edge_at_in. }
    destruct (Hflag c Hc Hcf) as (Hne & Hpf).
    exists c. split; [assumption|]. split; [assumption|].
    unfold idf_of. change (from (sel_of edges inEdge c))
      with (par edges inEdge c).
    rewrite (ri_closed _ _ _ _ _ _ Hrinv c); auto.
    assert (1 <= rd id c) by (apply (ri_done _ _ _ _ _ _ Hrinv); auto; lia).
    lia.
Qed.
(** * The outer loop *)

Lemma no_entering_unreachable (edges : list Edge) (root v : Z) :
  v <> root ->
  (forall e, In e edges -> to e = v -> from e = v) ->
  ~ reach edges root v.
Proof.
  intros Hne Hall Hr.
  destruct (reach_entering edges root v Hr Hne) as (e & He & Hto & Hfrom).
  apply Hfrom. now apply Hall.
Qed.

Theorem solver_exact_spec (fuel : nat) (rounds : nat) :
  forall s : state,
    state_ok s ->
    (Z.to_nat (st_n s) <= rounds)%nat ->
    (Z.to_nat (st_n s) <= fuel)%nat ->
    exists o, solver_loop_exact rounds fuel s = Ok o /\ solver_post s o.
Proof.
  unfold solver_loop_exact.
  induction rounds as [|rounds IH]; intros s Hok Hrounds Hfuel.
  - destruct Hok as ((Hn & _) & _). lia.
  - cbn [while_loop].
    destruct (iteration_exact_spec fuel s Hok Hfuel) as (r & Hr & Hpost).
    rewrite Hr. cbn [bind].
    pose proof Hok as (Hwf & _).
    destruct r as [s'|o].
    + destruct Hpost as (Hok' & Hlt & sel & idf & Hcon & Hroot' & Hedges'
                         & Hacc & _).
      pose proof Hok' as ((Hn' & _) & _).
      destruct (IH s' Hok') as (o & Ho & Hpost'); [lia|lia|].
      exists o. split; [assumption|].
      unfold solver_post in Hpost' |- *.
      rewrite Hroot', Hedges', Hacc in Hpost'.
      destruct Hpost' as [(Hexit & Hmin)|(Hexit & Hval & Hun)].
      * left. split; [assumption|].
        apply (contraction_minimum _ _ _ sel idf _ Hwf Hcon) in Hmin.
        unfold selected_weight in Hmin |- *.
        match goal with
        | H : min_arb_weight _ _ _ ?a |- min_arb_weight _ _ _ ?b =>
            replace b with a by lia
        end.
        assumption.
      * right. split; [assumption|]. split; [assumption|].
        now apply (unreachable_contracted _ _ _ sel idf (st_n s')).
    + exists o. split; [reflexivity|].
      unfold iteration_post in Hpost. destruct Hpost as (_ & Hpost).
      unfold solver_post.
      destruct (out_exit o).
      * right. destruct Hpost as (Hval & v & Hv & Hne & Hall).
        split; [reflexivity|]. split; [assumption|].
        exists v. split; [assumption|]. split; [assumption|].
        now apply no_entering_unreachable.
      * left. destruct Hpost as (sel & Hsel & Hclimb & Hval).
        split; [reflexivity|].
        replace (out_value o - st_minWeight s)
          with (selected_weight (st_n s) (st_root s) sel) by lia.
        now apply (selected_minimum _ _ (st_edges s)).
Qed.

Lemma initial_state_ok (n root : Z) (edges : list Edge) :
  wf_input n root edges -> state_ok (initial_state n root edges).
Proof.
  intros Hwf. pose proof Hwf as (Hn & _).
  unfold state_ok, initial_state. cbn.
  split; [assumption|]. rewrite !repeat_length. lia.
Qed.

(** With fuel for [n] passes, a run on an input that satisfies the
    preconditions returns, either with the minimum weight or with the
    failure value and an unreachable vertex. *)
Theorem run_exact_spec (fuel : nat) (n root : Z) (edges : list Edge) :
  wf_input n root edges ->
  (Z.to_nat n <= fuel)%nat ->
  exists o,
    chuLiuEdmonds_run_exact fuel n root edges = Ok o /\
    ((out_exit o = ExitTotal /\
      min_arb_weight n root edges (out_value o)) \/
     (out_exit o = ExitNoArborescence /\ out_value o = -1 /\
      exists v, 0 <= v < n /\ v <> root /\ ~ reach edges root v)).
Proof.
  intros Hwf Hfuel. unfold chuLiuEdmonds_run_exact.
  destruct (solver_exact_spec fuel fuel (initial_state n root edges))
    as (o & Ho & Hpost); try (cbn; assumption).
  - now apply initial_state_ok.
  - exists o. split; [assumption|].
    unfold solver_post in Hpost. cbn in Hpost.
    now rewrite Z.sub_0_r in Hpost.
Qed.

Lemma min_arb_weight_unique (n root : Z) (edges : list Edge) (w1 w2 : Z) :
  min_arb_weight n root edges w1 -> min_arb_weight n root edges w2 ->
  w1 = w2.
Proof.
  intros ((A1 & HA1 & Hw1) & Hmin1) ((A2 & HA2 & Hw2) & Hmin2).
  specialize (Hmin1 A2 HA2). specialize (Hmin2 A1 HA1). lia.
Qed.
(** * More fuel does not change a result *)

Lemma fuel_le_refl {A : Type} (r : res A) : fuel_le r r.
Proof. now right. Qed.

Lemma fuel_le_bind {A B : Type} (m m' : res A) (k k' : A -> res B) :
  fuel_le m m' -> (forall a, fuel_le (k a) (k' a)) ->
  fuel_le (bind m k) (bind m' k').
Proof.
  intros [->| ->] Hk; [now left|].
  destruct m' as [a| |]; simpl; [apply Hk|now right|now left].
Qed.

Lemma fuel_le_while {S R : Type} (body body' : S -> res (S + R)) :
  (forall s, fuel_le (body s) (body' s)) ->
  forall (f f' : nat) (s : S), (f <= f')%nat ->
    fuel_le (while_loop f body s) (while_loop f' body' s).
Proof.
  intros Hbody. induction f as [|f IH]; intros f' s Hle; [now left|].
  destruct f' as [|f']; [lia|]. cbn [while_loop].
  apply fuel_le_bind; [apply Hbody|].
  intros [s'|x]; [apply IH; lia|apply fuel_le_refl].
Qed.

Lemma fuel_le_for {S : Type} (body body' : Z -> S -> res S) (count : nat) :
  (forall i s, fuel_le (body i s) (body' i s)) ->
  forall (i : Z) (s : S),
    fuel_le (for_loop count i body s) (for_loop count i body' s).
Proof.
  intros Hbody. induction count as [|count IH]; intros i s; cbn [for_loop].
  - apply fuel_le_refl.
  - apply fuel_le_bind; [apply Hbody|]. intros a. apply IH.
Qed.

Lemma fuel_le_detect_body (f f' : nat) (edges : list Edge) (inEdge : list Z)
  (i : Z) (s : Z * list Z * list Z) :
  (f <= f')%nat ->
  fuel_le (detect_body f edges inEdge i s) (detect_body f' edges inEdge i s).
Proof.
  intros Hle. destruct s as ((cc, cycle), visited). unfold detect_body.
  apply fuel_le_bind; [apply fuel_le_refl|]. intros vi.
  destruct (vi =? 0); [|apply fuel_le_refl].
  apply fuel_le_bind.
  { apply fuel_le_while; [intros; apply fuel_le_refl|assumption]. }
  intros ((visited1, u), hasCycle).
  apply fuel_le_bind.
  { destruct hasCycle; [|apply fuel_le_refl].
    apply fuel_le_bind; [|intros; apply fuel_le_refl].
    apply fuel_le_while; [intros; apply fuel_le_refl|assumption]. }
  intros (cc1, cycle1).
  apply fuel_le_bind; [|intros; apply fuel_le_refl].
  apply fuel_le_while; [intros; apply fuel_le_refl|assumption].
Qed.

Lemma fuel_le_relabel_body (f f' : nat) (edges : list Edge)
  (inEdge cycle : list Z) (i : Z) (s : list Z * Z) :
  (f <= f')%nat ->
  fuel_le (relabel_body f edges inEdge cycle i s)
          (relabel_body f' edges inEdge cycle i s).
Proof.
  intros Hle. destruct s as (id, nn). unfold relabel_body.
  apply fuel_le_bind; [apply fuel_le_refl|]. intros c.
  destruct (negb (c =? -1)); [|apply fuel_le_refl].
  apply fuel_le_bind; [apply fuel_le_refl|]. intros idi.
  destruct (idi =? 0); [|apply fuel_le_refl].
  apply fuel_le_bind; [apply fuel_le_refl|]. intros id1.
  apply fuel_le_bind; [apply fuel_le_refl|]. intros k.
  apply fuel_le_bind; [apply fuel_le_refl|]. intros e.
  apply fuel_le_bind; [|intros; apply fuel_le_refl].
  apply fuel_le_while; [intros; apply fuel_le_refl|assumption].
Qed.

Lemma fuel_le_iteration (f f' : nat) (s : state) :
  (f <= f')%nat -> fuel_le (iteration f s) (iteration f' s).
Proof.
  intros Hle. unfold iteration.
  apply fuel_le_bind; [apply fuel_le_refl|]. intros inEdge.
  apply fuel_le_bind; [apply fuel_le_refl|]. intros missing.
  destruct missing; [apply fuel_le_refl|].
  apply fuel_le_bind.
  { unfold detect_phase. apply fuel_le_bind; [apply fuel_le_refl|].
    intros visited0. apply fuel_le_for. intros i t.
    now apply fuel_le_detect_body. }
  intros ((cc, cycle), visited).
  apply fuel_le_bind; [apply fuel_le_refl|]. intros minWeight.
  destruct (cc =? 0); [apply fuel_le_refl|].
  apply fuel_le_bind; [|intros; apply fuel_le_refl].
  unfold contract_phase. apply fuel_le_bind; [|intros; apply fuel_le_refl].
  apply fuel_le_for. intros i t. now apply fuel_le_relabel_body.
Qed.

Lemma fuel_le_chuLiuEdmonds (f f' : nat) (n root : Z) (edges : list Edge) :
  (f <= f')%nat ->
  fuel_le (chuLiuEdmonds f n root edges) (chuLiuEdmonds f' n root edges).
Proof.
  intros Hle. unfold chuLiuEdmonds, chuLiuEdmonds_run, solver_loop.
  apply fuel_le_bind; [|intros; apply fuel_le_refl].
  apply fuel_le_while; [|assumption].
  intros s. now apply fuel_le_iteration.
Qed.
(** * The solver in [int] arithmetic *)

(** ** Reduction to [int] *)

Lemma wrap_in_int (x : Z) : in_int (wrap x).
Proof.
  unfold in_int, wrap, INT_MIN, INT_MAX.
  assert (H := Z.mod_pos_bound (x + 2 ^ 31) (2 ^ 32)). lia.
Qed.

Lemma wrap_id (x : Z) : in_int x -> wrap x = x.
Proof.
  unfold in_int, wrap, INT_MIN, INT_MAX. intros H.
  rewrite Z.mod_small; lia.
Qed.

Lemma wrap_wrap (x : Z) : wrap (wrap x) = wrap x.
Proof. apply wrap_id, wrap_in_int. Qed.

Lemma wrap_add (a a' b : Z) :
  wrap a = wrap a' -> wrap (a + b) = wrap (a' + b).
Proof.
  unfold wrap. intros H.
  assert (H' : (a + 2 ^ 31) mod 2 ^ 32 = (a' + 2 ^ 31) mod 2 ^ 32) by lia.
  replace (a + b + 2 ^ 31) with ((a + 2 ^ 31) + b) by lia.
  replace (a' + b + 2 ^ 31) with ((a' + 2 ^ 31) + b) by lia.
  rewrite <- (Zplus_mod_idemp_l (a + 2 ^ 31)).
  rewrite <- (Zplus_mod_idemp_l (a' + 2 ^ 31)).
  now rewrite H'.
Qed.

Lemma wrap_add_r (a b : Z) : wrap (a + wrap b) = wrap (a + b).
Proof.
  rewrite (Z.add_comm a (wrap b)), (Z.add_comm a b).
  apply wrap_add, wrap_wrap.
Qed.

Lemma wrap_eq_in_int (a b : Z) :
  in_int a -> in_int b -> wrap a = wrap b -> a = b.
Proof. intros Ha Hb H. now rewrite (wrap_id a), (wrap_id b) in H. Qed.

Lemma wrap_edge_id (e : Edge) : in_int (weight e) -> wrap_edge e = e.
Proof.
  intros H. destruct e as [u v w]. unfold wrap_edge. cbn in *.
  now rewrite wrap_id.
Qed.

Lemma map_wrap_edge_id (l : list Edge) :
  (forall e, In e l -> in_int (weight e)) -> map wrap_edge l = l.
Proof.
  intros H. rewrite <- (map_id l) at 2. apply map_ext_in.
  intros e He. apply wrap_edge_id. now apply H.
Qed.

(** ** Two runs side by side *)

Lemma res_sim_refl {A : Type} (m : res A) : res_sim eq m m.
Proof. destruct m; simpl; auto. Qed.

Lemma res_sim_bind {A B A' B' : Type} (R : A -> B -> Prop)
  (R' : A' -> B' -> Prop) (mx : res A) (m : res B)
  (kx : A -> res A') (k : B -> res B') :
  res_sim R mx m ->
  (forall a b, R a b -> res_sim R' (kx a) (k b)) ->
  res_sim R' (bind mx kx) (bind m k).
Proof.
  intros Hm Hk. destruct mx, m; simpl in *; try contradiction; auto.
Qed.

Lemma for_loop_sim {A B : Type} (R : A -> B -> Prop)
  (bodyx : Z -> A -> res A) (body : Z -> B -> res B) (count : nat) :
  (forall i a b, R a b -> res_sim R (bodyx i a) (body i b)) ->
  forall i a b, R a b ->
    res_sim R (for_loop count i bodyx a) (for_loop count i body b).
Proof.
  intros Hbody. induction count as [|count IH]; intros i a b Hab;
    cbn [for_loop]; [exact Hab|].
  apply (res_sim_bind R); [now apply Hbody|]. intros a' b' Hab'.
  now apply IH.
Qed.

Lemma for_each_sim {A B : Type} (R : A -> B -> Prop)
  (bodyx : Z -> Edge -> A -> res A) (body : Z -> Edge -> B -> res B)
  (l : list Edge) :
  (forall k e a b, R a b -> res_sim R (bodyx k e a) (body k e b)) ->
  forall k a b, R a b ->
    res_sim R (for_each l k bodyx a) (for_each l k body b).
Proof.
  intros Hbody. induction l as [|e l IH]; intros k a b Hab;
    cbn [for_each]; [exact Hab|].
  apply (res_sim_bind R); [now apply Hbody|]. intros a' b' Hab'.
  now apply IH.
Qed.

Lemma for_loop_preserves {S : Type} (P : S -> Prop)
  (body : Z -> S -> res S) (count : nat) :
  (forall i a b, P a -> body i a = Ok b -> P b) ->
  forall i a b, P a -> for_loop count i body a = Ok b -> P b.
Proof.
  intros Hbody. induction count as [|count IH]; intros i a b Ha;
    cbn [for_loop].
  - now intros [= <-].
  - destruct (body i a) as [a'| |] eqn:Hb; cbn [bind]; try discriminate.
    apply IH. now apply (Hbody i a).
Qed.

(** ** Accumulation (lines 87-91) *)

Lemma accumulate_sim (root : Z) (edges : list Edge) (inEdge : list Z)
  (i a b : Z) :
  wrap b = wrap a ->
  res_sim (fun a b => wrap b = wrap a)
    (accumulate_exact root edges inEdge i a)
    (accumulate_body root edges inEdge i b).
Proof.
  intros Hab. unfold accumulate_exact, accumulate_body.
  destruct (negb (i =? root)); [|exact Hab].
  destruct (vec_get inEdge i) as [k| |]; cbn [bind res_sim]; auto.
  destruct (negb (k =? -1)); [|exact Hab].
  destruct (vec_get edges k) as [e| |]; cbn [bind res_sim]; auto.
  rewrite wrap_wrap. now apply wrap_add.
Qed.

Lemma accumulate_in_int (root : Z) (edges : list Edge) (inEdge : list Z)
  (i a b : Z) :
  in_int a -> accumulate_body root edges inEdge i a = Ok b -> in_int b.
Proof.
  intros Ha. unfold accumulate_body.
  destruct (negb (i =? root)); [|now intros [= <-]].
  destruct (vec_get inEdge i) as [k| |]; cbn [bind]; try discriminate.
  destruct (negb (k =? -1)); [|now intros [= <-]].
  destruct (vec_get edges k) as [e| |]; cbn [bind]; try discriminate.
  intros [= <-]. apply wrap_in_int.
Qed.

(** ** The contracted edges (lines 115-124) *)

Lemma contract_sim (edges : list Edge) (inEdge id : list Z) (k : Z)
  (e : Edge) (a b : list Edge) :
  b = map wrap_edge a ->
  res_sim (fun a b => b = map wrap_edge a)
    (contract_exact edges inEdge id k e a)
    (contract_body edges inEdge id k e b).
Proof.
  intros ->. unfold contract_exact, contract_body.
  destruct (vec_get id (from e)) as [iu| |]; cbn [bind res_sim]; auto.
  destruct (vec_get id (to e)) as [iv| |]; cbn [bind res_sim]; auto.
  destruct (negb (iu - 1 =? iv - 1)); [|reflexivity].
  destruct (vec_get inEdge (to e)) as [sel| |]; cbn [bind res_sim]; auto.
  destruct (vec_get edges sel) as [best| |]; cbn [bind res_sim]; auto.
  now rewrite map_app.
Qed.

(** ** One iteration *)

(** From two states that differ at most in [minWeight], an iteration of
    the reference and an iteration of the solver go the same way. *)
Lemma iteration_sim (fuel : nat) (sx s : state) :
  state_sim sx s ->
  res_sim step_sim (iteration_exact fuel sx) (iteration fuel s).
Proof.
  destruct sx as [n root edges accx inEdge0 cycle0 visited0].
  destruct s as [n1 root1 edges1 acc inEdge1 cycle1 visited1].
  unfold state_sim.
  cbn [st_n st_root st_edges st_minWeight st_inEdge st_cycle st_visited].
  intros (-> & -> & -> & -> & -> & -> & Hacc).
  unfold iteration_exact, iteration.
  cbn [st_n st_root st_edges st_minWeight st_inEdge st_cycle st_visited].
  destruct (select_phase n edges inEdge0) as [inEdge| |];
    cbn [bind res_sim]; auto.
  destruct (check_loop (Z.to_nat n) 0 root inEdge) as [missing| |];
    cbn [bind res_sim]; auto.
  destruct missing.
  { cbn. auto. }
  destruct (detect_phase fuel n root edges inEdge cycle0 visited0)
    as [((cc, cycle), visited)| |]; cbn [bind res_sim]; auto.
  apply (res_sim_bind (fun a b => wrap b = wrap a)).
  { unfold for_upto. apply for_loop_sim; [|assumption].
    intros i a b. apply accumulate_sim. }
  intros mx m Hm.
  destruct (cc =? 0).
  { cbn. repeat split; auto; discriminate. }
  unfold contract_phase_exact, contract_phase.
  destruct (for_upto n (relabel_body fuel edges inEdge cycle)
              (repeat 0 (Z.to_nat n), 0)) as [(id, nn)| |];
    cbn [bind res_sim]; auto.
  pose proof (for_each_sim (fun a b => b = map wrap_edge a)
                (contract_exact edges inEdge id) (contract_body edges inEdge id)
                edges (contract_sim edges inEdge id) 0 [] [] eq_refl) as Hc.
  destruct (for_each edges 0 (contract_exact edges inEdge id) [])
    as [cx| |];
    destruct (for_each edges 0 (contract_body edges inEdge id) [])
      as [c| |]; cbn [res_sim] in Hc; try contradiction; cbn [bind res_sim];
    auto.
  destruct (vec_get id root) as [idroot| |]; cbn [bind res_sim]; auto.
  cbn. auto 10.
Qed.

(** The total stays an [int]. *)
Lemma iteration_in_int (fuel : nat) (s : state) (r : state + outcome) :
  in_int (st_minWeight s) ->
  iteration fuel s = Ok r ->
  match r with
  | inl s' => in_int (st_minWeight s')
  | inr o => in_int (out_value o)
  end.
Proof.
  destruct s as [n root edges acc inEdge0 cycle0 visited0].
  cbn [st_minWeight]. intros Hacc. unfold iteration.
  cbn [st_n st_root st_edges st_minWeight st_inEdge st_cycle st_visited].
  destruct (select_phase n edges inEdge0) as [inEdge| |];
    cbn [bind]; try discriminate.
  destruct (check_loop (Z.to_nat n) 0 root inEdge) as [missing| |];
    cbn [bind]; try discriminate.
  destruct missing.
  { intros [= <-]. cbn. unfold in_int, INT_MIN, INT_MAX. lia. }
  destruct (detect_phase fuel n root edges inEdge cycle0 visited0)
    as [((cc, cycle), visited)| |]; cbn [bind]; try discriminate.
  destruct (for_upto n (accumulate_body root edges inEdge) acc)
    as [m| |] eqn:Hm; cbn [bind]; try discriminate.
  assert (Hin : in_int m).
  { unfold for_upto in Hm.
    apply (for_loop_preserves in_int (accumulate_body root edges inEdge)
             (Z.to_nat n)) with (i := 0) (a := acc); auto.
    intros i a b. apply accumulate_in_int. }
  destruct (cc =? 0).
  { now intros [= <-]. }
  destruct (contract_phase fuel n root edges inEdge cycle)
    as [(((id, nn), c), newRoot)| |]; cbn [bind]; try discriminate.
  now intros [= <-].
Qed.
(** * The outer loop in [int] arithmetic *)

Lemma state_sim_refl (s : state) : state_sim s s.
Proof. unfold state_sim. auto 10. Qed.

Lemma state_sim_ok (sx s : state) :
  state_sim sx s -> state_ok sx -> state_ok s.
Proof.
  unfold state_sim, state_ok.
  intros (-> & -> & -> & -> & -> & -> & _). auto.
Qed.

Lemma reach_wrap_edge (edges : list Edge) (r v : Z) :
  reach (map wrap_edge edges) r v <-> reach edges r v.
Proof.
  split.
  - induction 1 as [|e' Hr IH He']; [apply reach_refl|].
    apply in_map_iff in He'. destruct He' as (e & <- & He).
    change (to (wrap_edge e)) with (to e).
    apply reach_edge; [exact IH|assumption].
  - induction 1 as [|e Hr IH He]; [apply reach_refl|].
    change (to e) with (to (wrap_edge e)).
    apply reach_edge; [exact IH|]. now apply in_map.
Qed.

Lemma wf_input_wrap_edge (n root : Z) (edges : list Edge) :
  wf_input n root edges -> wf_input n root (map wrap_edge edges).
Proof.
  intros (Hn & Hroot & Hedges). split; [assumption|]. split; [assumption|].
  intros e' He'. apply in_map_iff in He'. destruct He' as (e & <- & He).
  cbn [wrap_edge from to]. now apply Hedges.
Qed.

(** An iteration of the solver beside the iteration of the reference. *)
Theorem iteration_spec (fuel : nat) (sx s : state) :
  state_ok sx ->
  state_sim sx s ->
  (Z.to_nat (st_n sx) <= fuel)%nat ->
  exists rx r,
    iteration_exact fuel sx = Ok rx /\ iteration fuel s = Ok r /\
    iteration_post sx rx /\ step_sim rx r.
Proof.
  intros Hok Hsim Hfuel.
  destruct (iteration_exact_spec fuel sx Hok Hfuel) as (rx & Hrx & Hpost).
  pose proof (iteration_sim fuel sx s Hsim) as H. rewrite Hrx in H.
  destruct (iteration fuel s) as [r| |]; cbn [res_sim] in H;
    try contradiction.
  now exists rx, r.
Qed.

(** The state that a contraction of the solver leaves is a state of the
    solver again. *)
Lemma step_sim_ok (sx' s' : state) :
  step_sim (inl sx') (inl s') -> state_ok sx' -> state_ok s'.
Proof.
  unfold step_sim, state_ok.
  intros (-> & -> & -> & -> & -> & -> & _) (Hwf & Hlen).
  split; [|assumption]. now apply wf_input_wrap_edge.
Qed.

(** With fuel for [n] passes the outer loop returns: through line 94 when
    every vertex is reachable from the root, through line 51 otherwise. *)
Theorem solver_spec (fuel : nat) (rounds : nat) :
  forall s : state,
    state_ok s ->
    (Z.to_nat (st_n s) <= rounds)%nat ->
    (Z.to_nat (st_n s) <= fuel)%nat ->
    exists o, solver_loop rounds fuel s = Ok o /\ solver_reach s o.
Proof.
  unfold solver_loop.
  induction rounds as [|rounds IH]; intros s Hok Hrounds Hfuel.
  - destruct Hok as ((Hn & _) & _). lia.
  - cbn [while_loop].
    destruct (iteration_spec fuel s s Hok (state_sim_refl s) Hfuel)
      as (rx & r & Hrx & Hr & Hpost & Hsim).
    rewrite Hr. cbn [bind].
    pose proof Hok as (Hwf & _).
    destruct rx as [sx'|ox]; destruct r as [s'|o];
      cbn [step_sim] in Hsim; try contradiction.
    + destruct Hpost as (Hok' & Hlt & sel & idf & Hcon & Hroot' & Hedges'
                         & _).
      assert (Hoks : state_ok s') by (now apply (step_sim_ok sx')).
      destruct Hsim as (Hn' & Hr' & He' & _).
      pose proof Hok' as (Hwf' & _). pose proof Hwf' as (Hn1 & _).
      destruct (IH s' Hoks) as (o & Ho & Hpost'); [lia|lia|].
      exists o. split; [assumption|].
      unfold solver_reach in Hpost' |- *.
      rewrite Hn', Hr', He' in Hpost'. rewrite Hroot', Hedges' in Hpost'.
      rewrite Hroot', Hedges' in Hwf'.
      destruct Hpost' as [(Hexit & Hall)|(Hexit & Hval & v & Hv & Hne & Hnr)].
      * left. split; [assumption|].
        assert (Hall' : all_reachable (st_n sx') (idf (st_root s))
                  (contracted_edges sel idf (st_edges s))).
        { intros v Hv. apply reach_wrap_edge. now apply Hall. }
        destruct (spanning_arborescence _ _ _ Hwf' Hall') as (A' & HA').
        destruct (arborescence_expand _ _ _ sel idf _ Hwf Hcon A' HA')
          as (HA & _).
        now apply (arborescence_all_reachable _ _ _ _ Hwf HA).
      * right. split; [assumption|]. split; [assumption|].
        apply (unreachable_contracted _ _ _ sel idf (st_n sx')); auto.
        exists v. split; [assumption|]. split; [assumption|].
        intros Hr2. apply Hnr. now apply reach_wrap_edge.
    + exists o. split; [reflexivity|].
      unfold iteration_post in Hpost. destruct Hpost as (_ & Hpost).
      destruct Hsim as (Hexit & _ & _ & Hval).
      unfold solver_reach. rewrite Hexit.
      destruct (out_exit ox).
      * right. destruct Hpost as (Hvx & v & Hv & Hne & Hall).
        split; [reflexivity|]. split; [rewrite Hval; auto|].
        exists v. split; [assumption|]. split; [assumption|].
        now apply no_entering_unreachable.
      * left. destruct Hpost as (sel & Hsel & Hclimb & _).
        split; [reflexivity|]. intros v Hv.
        apply (climbs_reach (st_n s) _ _ sel); auto.
        intros u Hu Hne. destruct (Hsel u Hu Hne) as (? & ? & _). auto.
Qed.

Theorem run_spec (fuel : nat) (n root : Z) (edges : list Edge) :
  wf_input n root edges ->
  (Z.to_nat n <= fuel)%nat ->
  exists o,
    chuLiuEdmonds_run fuel n root edges = Ok o /\
    ((out_exit o = ExitTotal /\ all_reachable n root edges) \/
     (out_exit o = ExitNoArborescence /\ out_value o = -1 /\
      exists v, 0 <= v < n /\ v <> root /\ ~ reach edges root v)).
Proof.
  intros Hwf Hfuel. unfold chuLiuEdmonds_run.
  destruct (solver_spec fuel fuel (initial_state n root edges))
    as (o & Ho & Hpost); try (cbn; assumption).
  - now apply initial_state_ok.
  - exists o. split; assumption.
Qed.

(** ** Weights for which the solver computes without overflow *)

Lemma length_nonroot (n root : Z) :
  0 <= root < n -> Z.of_nat (length (nonroot n root)) = n - 1.
Proof.
  intros Hroot.
  assert (Hperm : Permutation (vertices n) (root :: nonroot n root)).
  { apply NoDup_Permutation.
    - apply NoDup_vertices.
    - constructor; [|apply NoDup_nonroot].
      intros Hc. apply in_nonroot in Hc. now destruct Hc.
    - intros v. rewrite in_vertices. cbn [In]. rewrite in_nonroot.
      destruct (Z.eq_dec root v); split; intros; try tauto; try lia. }
  apply Permutation_length in Hperm. rewrite length_vertices in Hperm.
  cbn [length] in Hperm. lia.
Qed.

Lemma zsum_bound {X : Type} (f : X -> Z) (W : Z) (l : list X) :
  (forall x, In x l -> - W <= f x <= W) ->
  - (Z.of_nat (length l) * W) <= zsum f l <= Z.of_nat (length l) * W.
Proof.
  induction l as [|x l IH]; intros H; [cbn; lia|].
  assert (Hx := H x (or_introl eq_refl)).
  assert (Hl : forall y, In y l -> - W <= f y <= W)
    by (intros y Hy; apply H; now right).
  specialize (IH Hl). cbn [zsum fold_right length] in *.
  fold (zsum f l). nia.
Qed.

(** The weight of an arborescence of a graph with bounded weights. *)
Lemma arb_weight_bound (n root : Z) (edges : list Edge) (A : Z -> Edge)
  (W : Z) :
  0 <= root < n ->
  weights_within W edges ->
  arborescence n root edges A ->
  - ((n - 1) * W) <= arb_weight n root A <= (n - 1) * W.
Proof.
  intros Hroot HW (HA & _). unfold arb_weight.
  rewrite <- (length_nonroot n root Hroot).
  apply zsum_bound. intros v Hv. apply in_nonroot in Hv.
  destruct Hv as (Hv & Hne). apply HW. now apply HA.
Qed.

(** A contraction needs three vertices: the root and two vertices of a
    cycle. *)
Lemma contraction_three (n root : Z) (edges : list Edge) (sel : Z -> Edge)
  (idf : Z -> Z) (n' : Z) :
  wf_input n root edges ->
  contraction n root edges sel idf n' ->
  (exists v, 0 <= v < n /\ v <> root /\ idf (from (sel v)) = idf v) ->
  3 <= n.
Proof.
  intros (Hn & Hroot & Hedges) (Hsel & _ & _ & Hrootclass & _)
    (v & Hv & Hne & Hid).
  destruct (Hsel v Hv Hne) as (Hin & _ & Hfrom & _).
  destruct (Hedges _ Hin) as (Hu & _).
  assert (from (sel v) <> root).
  { intros Heq. rewrite Heq in Hid. apply Hne. now apply Hrootclass. }
  lia.
Qed.

(** The weights of a contracted graph lie between zero and the largest
    difference of two weights of the graph. *)
Lemma contracted_weights (s : state) (sx' : state) (D : Z) :
  iteration_post s (inl sx') ->
  spread D (st_edges s) ->
  forall e', In e' (st_edges sx') -> 0 <= weight e' <= D.
Proof.
  intros (_ & _ & sel & idf & _ & _ & Hedges' & _ & Hle & _) HD e' He'.
  rewrite Hedges' in He'. apply in_contracted_edges in He'.
  destruct He' as (e & He & Hcr & <-).
  assert (Hne : from e <> to e).
  { intros Heq. unfold crossing in Hcr. rewrite Heq, Z.eqb_refl in Hcr.
    discriminate. }
  destruct (Hle e He Hne) as (Hin & Hw).
  specialize (HD e (sel (to e)) He Hin).
  cbn [contract_edge weight]. lia.
Qed.

(** When no two weights differ by more than [INT_MAX], the solver and the
    reference take the same exit with the same edges, and with the same
    total up to a multiple of [2^32]. *)
Theorem solver_agrees (fuel : nat) (D : Z) (rounds : nat) :
  forall sx s : state,
    state_ok sx ->
    state_sim sx s ->
    in_int (st_minWeight s) ->
    spread D (st_edges sx) ->
    (3 <= st_n sx -> D <= INT_MAX) ->
    (Z.to_nat (st_n sx) <= rounds)%nat ->
    (Z.to_nat (st_n sx) <= fuel)%nat ->
    exists ox o,
      solver_loop_exact rounds fuel sx = Ok ox /\
      solver_loop rounds fuel s = Ok o /\
      out_exit o = out_exit ox /\ out_edges o = out_edges ox /\
      wrap (out_value o) = wrap (out_value ox) /\
      in_int (out_value o) /\
      (out_exit ox = ExitNoArborescence -> out_value o = out_value ox).
Proof.
  unfold solver_loop_exact, solver_loop.
  induction rounds as [|rounds IH];
    intros sx s Hok Hsim Hint HD HDmax Hrounds Hfuel.
  - destruct Hok as ((Hn & _) & _). lia.
  - cbn [while_loop].
    destruct (iteration_spec fuel sx s Hok Hsim Hfuel)
      as (rx & r & Hrx & Hr & Hpost & Hstep).
    rewrite Hrx, Hr. cbn [bind].
    pose proof (iteration_in_int fuel s r Hint Hr) as Hint'.
    pose proof Hok as (Hwf & _).
    destruct rx as [sx'|ox]; destruct r as [s'|o];
      cbn [step_sim] in Hstep; try contradiction.
    + pose proof (contracted_weights sx sx' D Hpost HD) as Hw.
      destruct Hpost as (Hok' & Hlt & sel & idf & Hcon & _ & _ & _ & _
                         & Hcyc).
      assert (H3 : 3 <= st_n sx)
        by (now apply (contraction_three _ _ _ sel idf (st_n sx') Hwf)).
      specialize (HDmax H3).
      destruct Hstep as (Hn' & Hr' & He' & HI' & Hc' & Hv' & Hm').
      rewrite map_wrap_edge_id in He'.
      2:{ intros e He. specialize (Hw e He).
          unfold in_int, INT_MIN, INT_MAX in *. lia. }
      pose proof Hok' as ((Hn1 & _) & _).
      apply (IH sx' s'); auto; try lia.
      * unfold state_sim. auto 10.
      * intros e1 e2 H1 H2. specialize (Hw e1 H1) as Hw1.
        specialize (Hw e2 H2) as Hw2. lia.
    + exists ox, o. split; [reflexivity|]. split; [reflexivity|].
      destruct Hstep as (Hexit & Hedges & Hval & Hfail). auto 10.
Qed.

(** On weights of absolute value at most [W], where [W] and [(n - 1) * W]
    are [int]s, the solver computes what the reference computes. *)
Theorem run_exact (fuel : nat) (n root : Z) (edges : list Edge) (W : Z) :
  wf_input n root edges ->
  weights_within W edges ->
  W <= INT_MAX ->
  (n - 1) * W <= INT_MAX ->
  (Z.to_nat n <= fuel)%nat ->
  chuLiuEdmonds_run fuel n root edges =
  chuLiuEdmonds_run_exact fuel n root edges.
Proof.
  intros Hwf HW HWmax Hsum Hfuel.
  pose proof Hwf as (Hn & Hroot & _).
  destruct (run_exact_spec fuel n root edges Hwf Hfuel)
    as (ox' & Hox' & Hpost).
  destruct (solver_agrees fuel (2 * W) fuel (initial_state n root edges)
              (initial_state n root edges))
    as (ox & o & Hox & Ho & Hexit & Hedges & Hval & Hint & Hfail).
  - now apply initial_state_ok.
  - apply state_sim_refl.
  - cbn. unfold in_int, INT_MIN, INT_MAX. lia.
  - cbn [initial_state st_edges]. intros e1 e2 H1 H2.
    specialize (HW e1 H1) as Hw1. specialize (HW e2 H2) as Hw2. lia.
  - cbn [initial_state st_n]. intros H3. nia.
  - cbn [initial_state st_n]. assumption.
  - cbn [initial_state st_n]. assumption.
  - unfold chuLiuEdmonds_run, chuLiuEdmonds_run_exact in *.
    rewrite Hox in Hox'. injection Hox' as <-.
    rewrite Ho, Hox. f_equal.
    assert (Hv : out_value o = out_value ox).
    { destruct Hpost as [(Hex & (A & HA & Hw) & _)|(Hex & _)];
        [|now apply Hfail].
      apply wrap_eq_in_int; [assumption| |assumption].
      pose proof (arb_weight_bound n root edges A W Hroot HW HA) as Hb.
      rewrite Hw in Hb. unfold in_int, INT_MIN, INT_MAX in *. lia. }
    destruct o, ox. cbn in *. congruence.
Qed.
(** * The phases of an iteration, one by one *)

(** Lines 115-124 in [int] arithmetic: the contracted edges, with their
    weights reduced to [int]. *)
Lemma contract_spec (n : Z) (edges : list Edge) (inEdge id : list Z) :
  Z.of_nat (length id) = n ->
  n <= Z.of_nat (length inEdge) ->
  (forall e, In e edges -> 0 <= from e < n /\ 0 <= to e < n) ->
  (forall e, In e edges -> from e <> to e ->
     0 <= rd inEdge (to e) < Z.of_nat (length edges)) ->
  for_each edges 0 (contract_body edges inEdge id) [] =
  Ok (map wrap_edge
        (contracted_edges (sel_of edges inEdge) (idf_of id) edges)).
Proof.
  intros Hlen HlenI Hrange Hsel.
  pose proof (for_each_sim (fun a b => b = map wrap_edge a)
                (contract_exact edges inEdge id)
                (contract_body edges inEdge id)
                edges (contract_sim edges inEdge id) 0 [] [] eq_refl) as H.
  rewrite (contract_exact_spec n edges inEdge id Hlen HlenI Hrange Hsel) in H.
  destruct (for_each edges 0 (contract_body edges inEdge id) [])
    as [c| |]; cbn [res_sim] in H; try contradiction.
  now rewrite H.
Qed.

(** An iteration that contracts has gone through every phase. *)
Lemma iteration_contracts (fuel : nat) (s s' : state) :
  iteration fuel s = Ok (inl s') ->
  exists inEdge cc cycle visited id,
    select_phase (st_n s) (st_edges s) (st_inEdge s) = Ok inEdge /\
    check_loop (Z.to_nat (st_n s)) 0 (st_root s) inEdge = Ok false /\
    detect_phase fuel (st_n s) (st_root s) (st_edges s) inEdge
      (st_cycle s) (st_visited s) = Ok (cc, cycle, visited) /\
    cc <> 0 /\
    contract_phase fuel (st_n s) (st_root s) (st_edges s) inEdge cycle =
      Ok (id, st_n s', st_edges s', st_root s') /\
    st_inEdge s' = inEdge /\ st_cycle s' = cycle /\ st_visited s' = visited.
Proof.
  unfold iteration.
  destruct (select_phase (st_n s) (st_edges s) (st_inEdge s))
    as [inEdge| |] eqn:Hselect; cbn [bind]; try discriminate.
  destruct (check_loop (Z.to_nat (st_n s)) 0 (st_root s) inEdge)
    as [missing| |] eqn:Hcheck; cbn [bind]; try discriminate.
  destruct missing; [discriminate|].
  destruct (detect_phase fuel (st_n s) (st_root s) (st_edges s) inEdge
              (st_cycle s) (st_visited s))
    as [((cc, cycle), visited)| |] eqn:Hdetect; cbn [bind];
    try discriminate.
  destruct (for_upto (st_n s) (accumulate_body (st_root s) (st_edges s) inEdge)
              (st_minWeight s)) as [minWeight| |]; cbn [bind];
    try discriminate.
  destruct (cc =? 0) eqn:Hcc; [discriminate|]. apply Z.eqb_neq in Hcc.
  destruct (contract_phase fuel (st_n s) (st_root s) (st_edges s) inEdge
              cycle)
    as [(((id, numNodes), contractedEdges), newRoot)| |] eqn:Hcontract;
    cbn [bind]; try discriminate.
  intros H. injection H as <-.
  exists inEdge, cc, cycle, visited, id.
  cbn [st_n st_root st_edges st_inEdge st_cycle st_visited].
  repeat (split; [reflexivity || assumption|]). reflexivity.
Qed.

(** What selection and cycle detection have established when the
    iteration goes on to the accumulation. *)
Lemma detection_facts (fuel : nat) (s : state) (inEdge : list Z) (cc : Z)
  (cycle visited : list Z) :
  state_ok s ->
  (Z.to_nat (st_n s) <= fuel)%nat ->
  select_phase (st_n s) (st_edges s) (st_inEdge s) = Ok inEdge ->
  check_loop (Z.to_nat (st_n s)) 0 (st_root s) inEdge = Ok false ->
  detect_phase fuel (st_n s) (st_root s) (st_edges s) inEdge
    (st_cycle s) (st_visited s) = Ok (cc, cycle, visited) ->
  length inEdge = length (st_inEdge s) /\
  length cycle = length (st_cycle s) /\
  length visited = length (st_visited s) /\
  selection_inv (st_n s) (st_edges s) (st_edges s) inEdge /\
  selected (st_n s) (st_root s) (st_edges s) (sel_of (st_edges s) inEdge) /\
  (forall v, 0 <= v < st_n s -> v <> st_root s ->
     0 <= rd inEdge v < Z.of_nat (length (st_edges s)) /\
     0 <= par (st_edges s) inEdge v < st_n s /\
     par (st_edges s) inEdge v <> v) /\
  detect_inv (st_n s) (st_root s) (par (st_edges s) inEdge) (st_n s)
    cc cycle visited.
Proof.
  destruct s as [n root edges acc inEdge0 cycle0 visited0].
  unfold state_ok.
  cbn [st_n st_root st_edges st_minWeight st_inEdge st_cycle st_visited].
  intros (Hwf & HlI & Hlc & Hlv) Hfuel Hselect Hcheck Hdetect.
  pose proof Hwf as (Hn & Hroot & Hedges).
  destruct (select_phase_spec n root edges inEdge0 Hwf HlI)
    as (inEdge' & Hselect' & HlI' & Hinv).
  rewrite Hselect in Hselect'. injection Hselect' as <-.
  destruct (check_spec root inEdge (Z.to_nat n) 0)
    as (missing & Hcheck' & _ & Hnomiss); [lia|lia|].
  rewrite Hcheck in Hcheck'. injection Hcheck' as <-.
  assert (Hall : forall v, 0 <= v < n -> v <> root -> rd inEdge v <> -1).
  { intros v Hv Hne. apply Hnomiss; auto. lia. }
  destruct (selection_selected n root edges inEdge Hwf Hinv Hall)
    as (Hsel & Hp).
  assert (HlI2 : n <= Z.of_nat (length inEdge)) by lia.
  unfold detect_phase in Hdetect.
  rewrite (set_upd (fill visited0 0) root 2) in Hdetect
    by (rewrite length_fill; lia).
  cbn [bind] in Hdetect.
  destruct (detect_spec n root edges inEdge fuel Hroot Hfuel HlI2 Hp
              cycle0 visited0 Hlc Hlv)
    as (cc' & cycle' & visited' & Hdetect' & Hlc' & Hlv' & Hdinv).
  rewrite Hdetect in Hdetect'. injection Hdetect' as <- <- <-.
  tauto.
Qed.

(** What the contraction has established. *)
Lemma contraction_facts (fuel : nat) (s : state) (inEdge : list Z) (cc : Z)
  (cycle visited : list Z) :
  state_ok s ->
  (Z.to_nat (st_n s) <= fuel)%nat ->
  select_phase (st_n s) (st_edges s) (st_inEdge s) = Ok inEdge ->
  check_loop (Z.to_nat (st_n s)) 0 (st_root s) inEdge = Ok false ->
  detect_phase fuel (st_n s) (st_root s) (st_edges s) inEdge
    (st_cycle s) (st_visited s) = Ok (cc, cycle, visited) ->
  exists id nn,
    contract_phase fuel (st_n s) (st_root s) (st_edges s) inEdge cycle =
      Ok (id, nn,
          map wrap_edge
            (contracted_edges (sel_of (st_edges s) inEdge) (idf_of id)
               (st_edges s)),
          idf_of id (st_root s)) /\
    relabel_inv (st_n s) (par (st_edges s) inEdge) cycle (st_n s) id nn /\
    contraction (st_n s) (st_root s) (st_edges s)
      (sel_of (st_edges s) inEdge) (idf_of id) nn.
Proof.
  intros Hok Hfuel Hselect Hcheck Hdetect.
  destruct (detection_facts fuel s inEdge cc cycle visited Hok Hfuel Hselect
              Hcheck Hdetect)
    as (HlI' & Hlc' & Hlv' & Hinv & Hsel & Hp & Hdinv).
  destruct s as [n root edges acc inEdge0 cycle0 visited0].
  unfold state_ok in Hok.
  cbn [st_n st_root st_edges st_minWeight st_inEdge st_cycle st_visited] in *.
  destruct Hok as (Hwf & HlI & Hlc & Hlv).
  pose proof Hwf as (Hn & Hroot & Hedges).
  assert (HlI2 : n <= Z.of_nat (length inEdge)) by lia.
  assert (Hlc2 : n <= Z.of_nat (length cycle)) by lia.
  assert (Hflag : forall v, 0 <= v < n -> rd cycle v <> -1 ->
            v <> root /\ rd cycle (par edges inEdge v) = rd cycle v).
  { intros v Hv Hf.
    destruct (di_cycle _ _ _ _ _ _ _ Hdinv v Hv Hf) as (? & _ & ?). auto. }
  assert (Hsame := di_same _ _ _ _ _ _ _ Hdinv).
  unfold contract_phase.
  destruct (relabel_spec n root edges inEdge cycle fuel Hroot Hfuel HlI2
              Hlc2 Hp Hflag Hsame) as (id & nn & Hrelabel & Hrinv).
  rewrite Hrelabel. cbn [bind].
  assert (Hlid := ri_len _ _ _ _ _ _ Hrinv).
  rewrite (contract_spec n edges inEdge id Hlid HlI2 Hedges).
  2:{ intros e He Hne. now apply (selection_entering n root edges inEdge e). }
  cbn [bind]. rewrite (get_rd id root) by lia. cbn [bind].
  exists id, nn. split; [reflexivity|]. split; [assumption|].
  now apply (relabel_contraction n root edges inEdge cycle fuel).
Qed.

(** What the relabelling loop and the loop over the edges leave. *)
Lemma relabel_facts (fuel : nat) (s : state) (inEdge : list Z)
  (cycleCount : Z) (cycle visited id : list Z) (numNodes : Z)
  (contractedEdges : list Edge) (newRoot : Z) :
  state_ok s ->
  (Z.to_nat (st_n s) <= fuel)%nat ->
  select_phase (st_n s) (st_edges s) (st_inEdge s) = Ok inEdge ->
  check_loop (Z.to_nat (st_n s)) 0 (st_root s) inEdge = Ok false ->
  detect_phase fuel (st_n s) (st_root s) (st_edges s) inEdge
    (st_cycle s) (st_visited s) = Ok (cycleCount, cycle, visited) ->
  contract_phase fuel (st_n s) (st_root s) (st_edges s) inEdge cycle =
    Ok (id, numNodes, contractedEdges, newRoot) ->
  (forall v, 0 <= v < st_n s -> 0 <= idf_of id v < numNodes) /\
  (forall x, 0 <= x < numNodes ->
     exists v, 0 <= v < st_n s /\ idf_of id v = x) /\
  (forall u v, 0 <= u < st_n s -> 0 <= v < st_n s ->
     (idf_of id u = idf_of id v <->
      u = v \/ (rd cycle u <> -1 /\ rd cycle u = rd cycle v))) /\
  ((exists v, 0 <= v < st_n s /\ rd cycle v <> -1) ->
   1 <= numNodes < st_n s) /\
  ((forall v, 0 <= v < st_n s -> rd cycle v = -1) -> numNodes = st_n s) /\
  contractedEdges =
    map wrap_edge
      (contracted_edges (sel_of (st_edges s) inEdge) (idf_of id)
         (st_edges s)) /\
  newRoot = idf_of id (st_root s) /\
  rd cycle (st_root s) = -1.
Proof.
  intros Hok Hfuel Hselect Hcheck Hdetect Hcontract.
  destruct (detection_facts fuel s inEdge cycleCount cycle visited Hok Hfuel
              Hselect Hcheck Hdetect)
    as (HlI & Hlc & _ & _ & _ & Hp & Hdinv).
  destruct (contraction_facts fuel s inEdge cycleCount cycle visited Hok Hfuel
              Hselect Hcheck Hdetect)
    as (id' & nn & Hcontract' & Hrinv & Hcon).
  rewrite Hcontract in Hcontract'. injection Hcontract' as <- <- He' Hr'.
  destruct Hok as ((Hn & Hroot & Hedges) & HlI0 & Hlc0 & _).
  set (n := st_n s) in *. set (root := st_root s) in *.
  set (p := par (st_edges s) inEdge) in *.
  assert (Hflag : forall v, 0 <= v < n -> rd cycle v <> -1 ->
            v <> root /\ rd cycle (p v) = rd cycle v).
  { intros v Hv Hf.
    destruct (di_cycle _ _ _ _ _ _ _ Hdinv v Hv Hf) as (? & _ & ?). auto. }
  assert (Hsame := di_same _ _ _ _ _ _ _ Hdinv).
  assert (Hid : forall v, 0 <= v < n -> 1 <= rd id v <= numNodes).
  { intros v Hv. split.
    - apply (ri_done _ _ _ _ _ _ Hrinv); auto. lia.
    - now apply (ri_range _ _ _ _ _ _ Hrinv). }
  assert (Hclass : forall u v, 0 <= u < n -> 0 <= v < n ->
            (idf_of id u = idf_of id v <->
             u = v \/ (rd cycle u <> -1 /\ rd cycle u = rd cycle v))).
  { intros u v Hu Hv. unfold idf_of. split.
    - intros Heq. apply (ri_class _ _ _ _ _ _ Hrinv); auto.
      + specialize (Hid u Hu). lia.
      + lia.
    - intros [->|(Hf & Heq)]; [reflexivity|]. f_equal.
      apply (relabel_same_cycle n root (st_edges s) inEdge cycle fuel)
        with (nn := numNodes); auto; lia. }
  assert (Hrootflag : rd cycle root = -1).
  { destruct (Z.eq_dec (rd cycle root) (-1)) as [|Hf]; [assumption|].
    destruct (Hflag root Hroot Hf) as (Hne & _). now contradiction Hne. }
  split; [|split; [|split; [assumption|split; [|split; [|auto]]]]].
  - intros v Hv. unfold idf_of. specialize (Hid v Hv). lia.
  - destruct Hcon as (_ & _ & Honto & _). exact Honto.
  - intros (c & Hc & Hf).
    apply (relabel_smaller n root (st_edges s) inEdge cycle fuel)
      with (c := c) (id := id); auto; lia.
  - intros Hnone.
    assert (Hle := ri_count _ _ _ _ _ _ Hrinv).
    assert (Hlen : (length (map (idf_of id) (vertices n))
                    <= length (vertices numNodes))%nat).
    { apply NoDup_incl_length.
      - apply Finite.Injective_map_NoDup_in; [|apply NoDup_vertices].
        intros u v Hu Hv Heq. apply in_vertices in Hu, Hv.
        apply Hclass in Heq; auto. destruct Heq as [|(Hf & _)]; [assumption|].
        exfalso. apply Hf. now apply Hnone.
      - intros x Hx. apply in_map_iff in Hx. destruct Hx as (v & <- & Hv).
        apply in_vertices in Hv. apply in_vertices. unfold idf_of.
        specialize (Hid v Hv). lia. }
    rewrite length_map, !length_vertices in Hlen. lia.
Qed.


(** * The result of a run on weights that do not overflow *)

Theorem run_minimum (fuel : nat) (n root : Z) (edges : list Edge) (W : Z) :
  wf_input n root edges ->
  weights_within W edges ->
  W <= INT_MAX ->
  (n - 1) * W <= INT_MAX ->
  (Z.to_nat n <= fuel)%nat ->
  exists o,
    chuLiuEdmonds_run fuel n root edges = Ok o /\
    ((out_exit o = ExitTotal /\
      min_arb_weight n root edges (out_value o)) \/
     (out_exit o = ExitNoArborescence /\ out_value o = -1 /\
      exists v, 0 <= v < n /\ v <> root /\ ~ reach edges root v)).
Proof.
  intros Hwf HW HWmax Hsum Hfuel.
  rewrite (run_exact fuel n root edges W Hwf HW HWmax Hsum Hfuel).
  now apply run_exact_spec.
Qed.
(** * Properties of the solver *)

Lemma wf_inputb_spec (n root : Z) (edges : list Edge) :
  wf_inputb n root edges = true -> wf_input n root edges.
Proof.
  unfold wf_inputb, in_range. intros H.
  apply andb_true_iff in H. destruct H as (H & Hedges).
  apply andb_true_iff in H. destruct H as (Hn & Hroot).
  apply andb_true_iff in Hroot. destruct Hroot as (Hr1 & Hr2).
  rewrite forallb_forall in Hedges.
  split; [lia|]. split; [lia|]. intros e He.
  specialize (Hedges e He).
  apply andb_true_iff in Hedges. destruct Hedges as (Hf & Ht).
  apply andb_true_iff in Hf. apply andb_true_iff in Ht. lia.
Qed.

Lemma min_arb_weight_equiv (n root : Z) (edges1 edges2 : list Edge) (w : Z) :
  (forall e, In e edges1 <-> In e edges2) ->
  min_arb_weight n root edges1 w -> min_arb_weight n root edges2 w.
Proof.
  intros Heq ((A & HA & Hw) & Hmin). split.
  - exists A. split; [|assumption].
    apply (arborescence_incl n root edges1); [|assumption].
    intros e. apply Heq.
  - intros B HB. apply Hmin.
    apply (arborescence_incl n root edges2); [|assumption].
    intros e. apply Heq.
Qed.

(** The graph with the single edge [0 -> 1] of weight [w]. *)
Lemma single_edge_arborescence (w : Z) :
  arborescence 2 0 [E 0 1 w] (fun _ => E 0 1 w).
Proof.
  split.
  - intros v Hv Hne. assert (v = 1) by lia. subst v.
    split; [now left|reflexivity].
  - intros v Hv. assert (Hv' : v = 0 \/ v = 1) by lia.
    destruct Hv' as [->| ->]; [apply climbs_root|].
    apply climbs_step; [lia|]. apply climbs_root.
Qed.

Lemma single_edge_reachable (w v : Z) :
  0 <= v < 2 -> reach [E 0 1 w] 0 v.
Proof.
  intros Hv. assert (Hv' : v = 0 \/ v = 1) by lia.
  destruct Hv' as [->| ->]; [apply reach_refl|].
  change 1 with (to (E 0 1 w)). apply reach_edge; [apply reach_refl|].
  now left.
Qed.

Lemma single_edge_arborescence_edges (w : Z) :
  arborescence_edges 2 0 [E 0 1 w] [E 0 1 w].
Proof.
  split; [apply incl_refl|]. split; [|split].
  - intros v Hv Hne. assert (v = 1) by lia. subst v. reflexivity.
  - reflexivity.
  - apply single_edge_reachable.
Qed.

Lemma arborescence_edges_map (n root : Z) (edges : list Edge) :
  wf_input n root edges ->
  (exists T, arborescence_edges n root edges T) ->
  exists A, arborescence n root edges A.
Proof.
  intros Hwf (T & HT). exists (entering_edge T).
  now apply (arborescence_of_edges n root edges T).
Qed.

Lemma weights_within_one (w W : Z) :
  - W <= w <= W -> weights_within W [E 0 1 w].
Proof. intros H e [<-|[]]. exact H. Qed.

(** On an input that has a spanning arborescence and weights that do not
    overflow the run ends with the minimum weight. *)
Lemma minimum_of_run (fuel : nat) (n root : Z) (edges : list Edge) (W : Z) :
  wf_input n root edges ->
  weights_within W edges ->
  W <= INT_MAX ->
  (n - 1) * W <= INT_MAX ->
  (exists A, arborescence n root edges A) ->
  (Z.to_nat n <= fuel)%nat ->
  exists w edges',
    chuLiuEdmonds fuel n root edges = Ok (w, edges') /\
    min_arb_weight n root edges w.
Proof.
  intros Hwf HW HWmax Hsum (A & HA) Hfuel.
  destruct (run_minimum fuel n root edges W Hwf HW HWmax Hsum Hfuel)
    as (o & Ho & [(Hexit & Hmin)|(Hexit & Hval & v & Hv & Hne & Hnr)]).
  - exists (out_value o), (out_edges o). split; [|assumption].
    unfold chuLiuEdmonds. now rewrite Ho.
  - exfalso. apply Hnr.
    now apply (arborescence_all_reachable n root edges A).
Qed.

(** A run returns a result. *)
Lemma run_returns (fuel : nat) (n root : Z) (edges : list Edge) :
  wf_input n root edges ->
  (Z.to_nat n <= fuel)%nat ->
  exists r, chuLiuEdmonds fuel n root edges = Ok r.
Proof.
  intros Hwf Hfuel.
  destruct (run_spec fuel n root edges Hwf Hfuel) as (o & Ho & _).
  unfold chuLiuEdmonds. rewrite Ho. cbn [bind]. eauto.
Qed.

(** An iteration that returns leaves the edges as they are; one that
    contracts leaves fewer vertices. *)
Lemma iteration_frame (fuel : nat) (s : state) (r : state + outcome) :
  state_ok s ->
  (Z.to_nat (st_n s) <= fuel)%nat ->
  iteration fuel s = Ok r ->
  match r with
  | inl s' => state_ok s' /\ 1 <= st_n s' < st_n s
  | inr o => out_edges o = st_edges s
  end.
Proof.
  intros Hok Hfuel Hit.
  destruct (iteration_spec fuel s s Hok (state_sim_refl s) Hfuel)
    as (rx & r' & Hrx & Hr & Hpost & Hsim).
  rewrite Hit in Hr. injection Hr as <-.
  destruct rx as [sx'|ox]; destruct r as [s'|o];
    cbn [step_sim] in Hsim; try contradiction.
  - destruct Hpost as (Hok' & Hlt & _).
    split; [now apply (step_sim_ok sx')|].
    destruct Hsim as (-> & _). destruct Hok' as ((Hn' & _) & _). lia.
  - destruct Hpost as (Hedges & _). destruct Hsim as (_ & -> & _).
    exact Hedges.
Qed.

(** ** Correctness *)




(** ** The failure value *)

(** C2, as stated, fails: on the graph with the single edge [0 -> 1] of
    weight [-1] every vertex is reachable from the root, and the solver
    returns [-1], the value of NO_ARBORESCENCE. *)
Lemma sentinel_without_unreachable_vertex :
  ~ (returns (chuLiuEdmonds 2 2 0 [E 0 1 (-1)]) NO_ARBORESCENCE <->
     exists v, 0 <= v < 2 /\ v <> 0 /\ ~ reach [E 0 1 (-1)] 0 v).
Proof.
  intros (Hto & _).
  destruct Hto as (v & Hv & _ & Hnr); [vm_compute; reflexivity|].
  apply Hnr. now apply single_edge_reachable.
Qed.

(** C2, amended: the solver leaves through [return -1] of line 51 exactly
    when some vertex other than the root is not reachable from the root in
    the input graph, and the value it returns is then NO_ARBORESCENCE. *)
Theorem failure_exit_iff_unreachable (fuel : nat) (n root : Z)
  (edges : list Edge) :
  wf_input n root edges ->
  (Z.to_nat n <= fuel)%nat ->
  exists o,
    chuLiuEdmonds_run fuel n root edges = Ok o /\
    (out_exit o = ExitNoArborescence <->
     exists v, 0 <= v < n /\ v <> root /\ ~ reach edges root v) /\
    (out_exit o = ExitNoArborescence -> out_value o = NO_ARBORESCENCE).
Proof.
  intros Hwf Hfuel.
  destruct (run_spec fuel n root edges Hwf Hfuel)
    as (o & Ho & [(Hexit & Hall)|(Hexit & Hval & Hun)]);
    exists o; (split; [assumption|]); rewrite Hexit.
  - split; [|discriminate]. split; [discriminate|].
    intros (v & Hv & Hne & Hnr). exfalso. apply Hnr. now apply Hall.
  - split; [|intros _; exact Hval]. split; [intros _; exact Hun|reflexivity].
Qed.

Lemma failure_exit_iff_unreachable_witness :
  exists o,
    chuLiuEdmonds_run 3 3 0 [E 0 1 10] = Ok o /\
    (out_exit o = ExitNoArborescence <->
     exists v, 0 <= v < 3 /\ v <> 0 /\ ~ reach [E 0 1 10] 0 v) /\
    (out_exit o = ExitNoArborescence -> out_value o = NO_ARBORESCENCE).
Proof.
  apply failure_exit_iff_unreachable.
  - apply wf_inputb_spec. reflexivity.
  - simpl. lia.
Defined.

(** C4, as stated, fails: the graph with the single edge [0 -> 1] of
    weight [-1] has a spanning arborescence, of total weight [-1], and
    the solver returns the value of NO_ARBORESCENCE on it. *)
Lemma total_equal_to_sentinel :
  wf_input 2 0 [E 0 1 (-1)] /\
  (exists T, arborescence_edges 2 0 [E 0 1 (-1)] T) /\
  returns (chuLiuEdmonds 2 2 0 [E 0 1 (-1)]) NO_ARBORESCENCE.
Proof.
  split; [apply wf_inputb_spec; reflexivity|]. split.
  - exists [E 0 1 (-1)]. apply single_edge_arborescence_edges.
  - vm_compute. reflexivity.
Qed.

(** C4, amended: on an input that has a spanning arborescence and weights
    of absolute value at most [W], where [W] and [(n - 1) * W] are at most
    [INT_MAX], the solver returns the value of NO_ARBORESCENCE exactly
    when the minimum total weight of a spanning arborescence is [-1]. *)
Theorem sentinel_iff_minimum_is_minus_one (fuel : nat) (n root : Z)
  (edges : list Edge) (W : Z) :
  wf_input n root edges ->
  weights_within W edges ->
  W <= INT_MAX ->
  (n - 1) * W <= INT_MAX ->
  (exists T, arborescence_edges n root edges T) ->
  (Z.to_nat n <= fuel)%nat ->
  exists w edges',
    chuLiuEdmonds fuel n root edges = Ok (w, edges') /\
    (w = NO_ARBORESCENCE <->
     (exists T, arborescence_edges n root edges T /\ zsum weight T = -1) /\
     (forall T, arborescence_edges n root edges T -> -1 <= zsum weight T)).
Proof.
  intros Hwf HW HWmax Hsum HT Hfuel.
  destruct (minimum_of_run fuel n root edges W Hwf HW HWmax Hsum
              (arborescence_edges_map n root edges Hwf HT) Hfuel)
    as (w & edges' & Hrun & Hmin).
  exists w, edges'. split; [assumption|]. unfold NO_ARBORESCENCE.
  rewrite <- (min_arb_weight_edges n root edges (-1) Hwf). split.
  - intros <-. assumption.
  - intros Hm. now apply (min_arb_weight_unique n root edges).
Qed.

Lemma sentinel_iff_minimum_is_minus_one_witness :
  exists w edges',
    chuLiuEdmonds 2 2 0 [E 0 1 (-3)] = Ok (w, edges') /\
    (w = NO_ARBORESCENCE <->
     (exists T, arborescence_edges 2 0 [E 0 1 (-3)] T /\
                zsum weight T = -1) /\
     (forall T, arborescence_edges 2 0 [E 0 1 (-3)] T ->
                -1 <= zsum weight T)).
Proof.
  apply (sentinel_iff_minimum_is_minus_one 2 2 0 [E 0 1 (-3)] 3).
  - apply wf_inputb_spec. reflexivity.
  - apply weights_within_one. lia.
  - unfold INT_MAX. lia.
  - unfold INT_MAX. lia.
  - exists [E 0 1 (-3)]. apply single_edge_arborescence_edges.
  - simpl. lia.
Defined.

(** ** The caller's edge list *)

(** C3, as stated, fails: the call on the graph of test case 2 returns
    with the caller's vector holding the contracted edge list. *)
Lemma caller_edges_overwritten :
  chuLiuEdmonds 3 3 0 [E 0 1 10; E 1 2 20; E 2 1 5] = Ok (30, [E 0 1 5]) /\
  [E 0 1 5] <> [E 0 1 10; E 1 2 20; E 2 1 5].
Proof. split; [vm_compute; reflexivity|discriminate]. Qed.

(** C3, amended: when the call returns in its first iteration, that is
    without a contraction, the caller's edge list is unchanged. *)
Theorem edges_unchanged_without_contraction (fuel : nat) (n root : Z)
  (edges : list Edge) (o : outcome) :
  wf_input n root edges ->
  (Z.to_nat n <= fuel)%nat ->
  iteration fuel (initial_state n root edges) = Ok (inr o) ->
  chuLiuEdmonds fuel n root edges = Ok (out_value o, edges).
Proof.
  intros Hwf Hfuel Hit. pose proof Hwf as (Hn & _).
  pose proof (iteration_frame fuel (initial_state n root edges) (inr o))
    as Hedges.
  cbn [initial_state st_n st_edges] in Hedges.
  specialize (Hedges (initial_state_ok n root edges Hwf) Hfuel Hit).
  unfold chuLiuEdmonds, chuLiuEdmonds_run, solver_loop.
  destruct fuel as [|fuel]; [lia|].
  cbn [while_loop]. rewrite Hit. cbn [bind]. now rewrite Hedges.
Qed.

Lemma edges_unchanged_without_contraction_witness :
  chuLiuEdmonds 3 3 0 [E 0 1 10; E 0 2 5] =
  Ok (out_value (mkOutcome ExitTotal 15 [E 0 1 10; E 0 2 5]),
      [E 0 1 10; E 0 2 5]).
Proof.
  apply edges_unchanged_without_contraction.
  - apply wf_inputb_spec. reflexivity.
  - simpl. lia.
  - vm_compute. reflexivity.
Defined.

(** ** Termination *)

(** C5: on every input that satisfies the preconditions the solver
    returns: an iteration that contracts leaves a strictly smaller vertex
    count, and [n] passes through the outer loop, hence at most [n - 1]
    contractions, are enough. *)
Theorem chuLiuEdmonds_terminates (fuel : nat) (n root : Z)
  (edges : list Edge) :
  wf_input n root edges ->
  (Z.to_nat n <= fuel)%nat ->
  (exists r, chuLiuEdmonds fuel n root edges = Ok r) /\
  (exists o,
     solver_loop (Z.to_nat n) fuel (initial_state n root edges) = Ok o) /\
  (forall s s',
     state_ok s -> (Z.to_nat (st_n s) <= fuel)%nat ->
     iteration fuel s = Ok (inl s') -> 1 <= st_n s' < st_n s).
Proof.
  intros Hwf Hfuel. split; [|split].
  - now apply run_returns.
  - destruct (solver_spec fuel (Z.to_nat n) (initial_state n root edges))
      as (o & Ho & _); try (cbn; lia).
    + now apply initial_state_ok.
    + now exists o.
  - intros s s' Hok Hf Hit.
    now destruct (iteration_frame fuel s (inl s') Hok Hf Hit).
Qed.

Lemma chuLiuEdmonds_terminates_witness :
  (exists r, chuLiuEdmonds 3 3 0 [E 0 1 10; E 1 2 20; E 2 1 5] = Ok r) /\
  (exists o,
     solver_loop (Z.to_nat 3) 3
       (initial_state 3 0 [E 0 1 10; E 1 2 20; E 2 1 5]) = Ok o) /\
  (forall s s',
     state_ok s -> (Z.to_nat (st_n s) <= 3)%nat ->
     iteration 3 s = Ok (inl s') -> 1 <= st_n s' < st_n s).
Proof.
  apply chuLiuEdmonds_terminates.
  - apply wf_inputb_spec. reflexivity.
  - simpl. lia.
Defined.

(** ** The order of the edges *)

(** C7, as stated, fails: with the edges [0 -> 1] and [2 -> 1] of weight
    [0], [1 -> 2] of weight [-1073741825] and [0 -> 2] of weight
    [1073741824], the solver returns [-1073741825] when [0 -> 1] comes
    first and [1073741824] when [2 -> 1] comes first: the tie between the
    two edges into [1] decides whether there is a contraction, in which
    line 121 overflows. *)
Lemma order_changes_value_on_overflow :
  Permutation
    [E 0 1 0; E 2 1 0; E 1 2 (-1073741825); E 0 2 1073741824]
    [E 2 1 0; E 0 1 0; E 1 2 (-1073741825); E 0 2 1073741824] /\
  wf_input 3 0 [E 0 1 0; E 2 1 0; E 1 2 (-1073741825); E 0 2 1073741824] /\
  returns
    (chuLiuEdmonds 3 3 0
       [E 0 1 0; E 2 1 0; E 1 2 (-1073741825); E 0 2 1073741824])
    (-1073741825) /\
  returns
    (chuLiuEdmonds 3 3 0
       [E 2 1 0; E 0 1 0; E 1 2 (-1073741825); E 0 2 1073741824])
    1073741824.
Proof.
  split; [apply perm_swap|].
  split; [apply wf_inputb_spec; reflexivity|].
  split; vm_compute; reflexivity.
Qed.

(** C7, amended: when all weights have absolute value at most [W], where
    [W] and [(n - 1) * W] are at most [INT_MAX], the returned value does
    not depend on the order of the edge list. *)
Theorem permutation_invariant (fuel : nat) (n root : Z)
  (edges1 edges2 : list Edge) (W : Z) :
  wf_input n root edges1 ->
  weights_within W edges1 ->
  W <= INT_MAX ->
  (n - 1) * W <= INT_MAX ->
  Permutation edges1 edges2 ->
  (Z.to_nat n <= fuel)%nat ->
  exists w out1 out2,
    chuLiuEdmonds fuel n root edges1 = Ok (w, out1) /\
    chuLiuEdmonds fuel n root edges2 = Ok (w, out2).
Proof.
  intros Hwf1 HW1 HWmax Hsum Hperm Hfuel.
  assert (Heq : forall e, In e edges1 <-> In e edges2).
  { intros e. split; apply Permutation_in; [|symmetry]; assumption. }
  assert (Hwf2 : wf_input n root edges2).
  { destruct Hwf1 as (Hn & Hroot & Hedges). split; [assumption|].
    split; [assumption|]. intros e He. apply Hedges. now apply Heq. }
  assert (HW2 : weights_within W edges2).
  { intros e He. apply HW1. now apply Heq. }
  destruct (run_minimum fuel n root edges1 W Hwf1 HW1 HWmax Hsum Hfuel)
    as (o1 & Ho1 & Hpost1).
  destruct (run_minimum fuel n root edges2 W Hwf2 HW2 HWmax Hsum Hfuel)
    as (o2 & Ho2 & Hpost2).
  exists (out_value o1), (out_edges o1), (out_edges o2).
  unfold chuLiuEdmonds. rewrite Ho1, Ho2. cbn [bind].
  split; [reflexivity|]. do 2 f_equal.
  destruct Hpost1 as [(_ & Hmin1)|(_ & Hval1 & v1 & Hv1 & Hne1 & Hnr1)];
    destruct Hpost2 as [(_ & Hmin2)|(_ & Hval2 & v2 & Hv2 & Hne2 & Hnr2)].
  - apply (min_arb_weight_unique n root edges1); [|assumption].
    apply (min_arb_weight_equiv n root edges2); [|assumption].
    intros e. symmetry. apply Heq.
  - exfalso. apply Hnr2. destruct Hmin1 as ((A & HA & _) & _).
    apply (reach_incl edges1); [intros e; apply Heq|].
    now apply (arborescence_all_reachable n root edges1 A).
  - exfalso. apply Hnr1. destruct Hmin2 as ((A & HA & _) & _).
    apply (reach_incl edges2); [intros e; apply Heq|].
    now apply (arborescence_all_reachable n root edges2 A).
  - lia.
Qed.

Lemma permutation_invariant_witness :
  exists w out1 out2,
    chuLiuEdmonds 3 3 0 [E 0 1 10; E 1 2 20; E 2 1 5] = Ok (w, out1) /\
    chuLiuEdmonds 3 3 0 [E 2 1 5; E 0 1 10; E 1 2 20] = Ok (w, out2).
Proof.
  apply (permutation_invariant 3 3 0 [E 0 1 10; E 1 2 20; E 2 1 5]
           [E 2 1 5; E 0 1 10; E 1 2 20] 20).
  - apply wf_inputb_spec. reflexivity.
  - intros e [<-|[<-|[<-|[]]]]; simpl; lia.
  - unfold INT_MAX. lia.
  - unfold INT_MAX. lia.
  - apply Permutation_sym.
    apply (Permutation_cons_app [E 0 1 10; E 1 2 20] [] (E 2 1 5)).
    simpl. apply Permutation_refl.
  - simpl. lia.
Defined.

(** ** A single vertex *)

(** C9: for every input with [n = 1] the solver returns [0], whatever the
    edge list. *)
Theorem single_vertex (fuel : nat) (root : Z) (edges : list Edge) :
  wf_input 1 root edges ->
  (1 <= fuel)%nat ->
  exists edges', chuLiuEdmonds fuel 1 root edges = Ok (0, edges').
Proof.
  intros Hwf Hfuel. pose proof Hwf as (_ & Hroot & _).
  assert (root = 0) by lia. subst root.
  set (s := initial_state 1 0 edges).
  assert (Hok : state_ok s) by (now apply initial_state_ok).
  destruct (iteration_spec fuel s s Hok (state_sim_refl s))
    as (rx & r & Hrx & Hr & Hpost & Hsim); [simpl; lia|].
  pose proof (iteration_in_int fuel s r) as Hint.
  destruct rx as [sx'|ox]; destruct r as [s'|o];
    cbn [step_sim] in Hsim; try contradiction.
  - exfalso. destruct Hpost as (((Hn' & _) & _) & Hlt & _).
    cbn in Hlt. lia.
  - destruct Hpost as (_ & Hpost).
    destruct Hsim as (Hexit & Hedges & Hval & _).
    destruct (out_exit ox).
    + exfalso. destruct Hpost as (_ & v & Hv & Hne & _). cbn in Hv, Hne. lia.
    + destruct Hpost as (sel & _ & _ & Hvx).
      change (out_value ox = 0) in Hvx. rewrite Hvx in Hval.
      exists (out_edges o).
      unfold chuLiuEdmonds, chuLiuEdmonds_run, solver_loop.
      destruct fuel as [|fuel]; [lia|].
      cbn [while_loop]. fold s. rewrite Hr. cbn [bind]. do 2 f_equal.
      apply wrap_eq_in_int; [|unfold in_int, INT_MIN, INT_MAX; lia|exact Hval].
      apply Hint; [|exact Hr].
      cbn. unfold in_int, INT_MIN, INT_MAX. lia.
Qed.

Lemma single_vertex_witness :
  exists edges', chuLiuEdmonds 1 1 0 [E 0 0 7; E 0 0 (-3)] = Ok (0, edges').
Proof.
  apply single_vertex.
  - apply wf_inputb_spec. reflexivity.
  - lia.
Defined.

(** ** Subscripts *)

(** C10: under the preconditions no subscript of the solver leaves its
    vector: with enough fuel the run ends with a result, and on any
    smaller budget it either gives the same result or stops for lack of
    fuel. *)
Theorem subscripts_in_bounds (fuel : nat) (n root : Z) (edges : list Edge) :
  wf_input n root edges ->
  chuLiuEdmonds fuel n root edges <> OutOfBounds /\
  ((Z.to_nat n <= fuel)%nat ->
   exists r, chuLiuEdmonds fuel n root edges = Ok r).
Proof.
  intros Hwf.
  assert (Hok : forall f, (Z.to_nat n <= f)%nat ->
            exists r, chuLiuEdmonds f n root edges = Ok r)
    by (intros f Hf; now apply run_returns).
  split; [|apply Hok].
  destruct (Hok (Nat.max fuel (Z.to_nat n))) as (r & Hr); [lia|].
  destruct (fuel_le_chuLiuEdmonds fuel (Nat.max fuel (Z.to_nat n))
              n root edges) as [Hout|Hsame]; [lia| |]; congruence.
Qed.

(** The graph of test case 5, on which the run goes through cycle
    detection and contraction, with fuel for the four vertices. *)
Lemma subscripts_in_bounds_witness :
  chuLiuEdmonds 4 4 0
    [E 0 1 10; E 1 2 10; E 2 3 10; E 3 1 10; E 0 3 30] <> OutOfBounds /\
  exists r, chuLiuEdmonds 4 4 0
              [E 0 1 10; E 1 2 10; E 2 3 10; E 3 1 10; E 0 3 30] = Ok r.
Proof.
  destruct (subscripts_in_bounds 4 4 0
              [E 0 1 10; E 1 2 10; E 2 3 10; E 3 1 10; E 0 3 30])
    as (Hbounds & Hresult).
  - apply wf_inputb_spec. reflexivity.
  - split; [exact Hbounds|]. apply Hresult. simpl. lia.
Defined.
(** ** The contraction step *)

(** C6, as stated, fails: on the graph with the edges [1 -> 2] and
    [2 -> 1] of weight [-2147483648] and [0 -> 1] of weight [1], the edge
    selected for the vertex [1] is [2 -> 1], and the edge that the
    contraction emits for [0 -> 1] has the weight [-2147483647], not
    [1 - (-2147483648) = 2147483649]. *)
Lemma contracted_weight_overflows :
  iteration 3
    (initial_state 3 0
       [E 1 2 (-2147483648); E 2 1 (-2147483648); E 0 1 1]) =
    Ok (inl (mkState 2 0 [E 0 1 (-2147483647)] 0
               [-1; 1; 0] [-1; 0; 0] [2; 2; 2])) /\
  sel_of [E 1 2 (-2147483648); E 2 1 (-2147483648); E 0 1 1] [-1; 1; 0] 1 =
    E 2 1 (-2147483648) /\
  weight (E 0 1 1) - weight (E 2 1 (-2147483648)) = 2147483649.
Proof. split; [|split]; vm_compute; reflexivity. Qed.

(** C6, amended: an iteration that contracts leaves the next snapshot as
    follows.  Two vertices receive the same new index exactly when they
    are the same vertex or carry the same cycle id, so the vertices of
    one cycle share a new index, different cycles receive different new
    indices, and every vertex outside the cycles an index of its own; the
    new indices are below the new vertex count.  The next edge list has
    one edge [(new u, new v, w - selection[v].weight)], the weight
    computed in [int] arithmetic, for each edge [(u, v, w)] whose ends
    have different new indices, in the order of the edges, and none for
    the other edges; the weight is the difference itself when no two
    weights of the snapshot differ by more than [INT_MAX].  The new root
    is the new index of the root, which is in no cycle. *)
Theorem contraction_step (fuel : nat) (s s' : state) :
  state_ok s ->
  (Z.to_nat (st_n s) <= fuel)%nat ->
  iteration fuel s = Ok (inl s') ->
  exists id,
    (forall v, 0 <= v < st_n s -> 0 <= idf_of id v < st_n s') /\
    (forall u v, 0 <= u < st_n s -> 0 <= v < st_n s ->
       (idf_of id u = idf_of id v <->
        u = v \/
        (rd (st_cycle s') u <> -1 /\
         rd (st_cycle s') u = rd (st_cycle s') v))) /\
    selected (st_n s) (st_root s) (st_edges s)
      (sel_of (st_edges s) (st_inEdge s')) /\
    st_edges s' =
      map (fun e =>
             mkEdge (idf_of id (from e)) (idf_of id (to e))
               (wrap (weight e -
                      weight (sel_of (st_edges s) (st_inEdge s') (to e)))))
        (filter (fun e => negb (idf_of id (from e) =? idf_of id (to e)))
           (st_edges s)) /\
    (spread INT_MAX (st_edges s) ->
     st_edges s' =
       map (fun e =>
              mkEdge (idf_of id (from e)) (idf_of id (to e))
                (weight e -
                 weight (sel_of (st_edges s) (st_inEdge s') (to e))))
         (filter (fun e => negb (idf_of id (from e) =? idf_of id (to e)))
            (st_edges s))) /\
    st_root s' = idf_of id (st_root s) /\
    rd (st_cycle s') (st_root s) = -1.
Proof.
  intros Hok Hfuel Hit.
  destruct (iteration_contracts fuel s s' Hit)
    as (inEdge & cc & cycle & visited & id & Hselect & Hcheck & Hdetect
        & Hcc & Hcontract & HI & HC & HV).
  destruct (detection_facts fuel s inEdge cc cycle visited Hok Hfuel Hselect
              Hcheck Hdetect)
    as (_ & _ & _ & Hinv & Hsel & _).
  destruct (relabel_facts fuel s inEdge cc cycle visited id (st_n s')
              (st_edges s') (st_root s') Hok Hfuel Hselect Hcheck Hdetect
              Hcontract)
    as (Hrange & _ & Hclass & _ & _ & Hedges & Hroot & Hrootflag).
  rewrite HI, HC. exists id.
  assert (Hmap : st_edges s' =
            map (fun e =>
                   mkEdge (idf_of id (from e)) (idf_of id (to e))
                     (wrap (weight e -
                            weight (sel_of (st_edges s) inEdge (to e)))))
              (filter (fun e =>
                         negb (idf_of id (from e) =? idf_of id (to e)))
                 (st_edges s))).
  { rewrite Hedges. unfold contracted_edges. rewrite map_map. reflexivity. }
  split; [assumption|]. split; [assumption|]. split; [assumption|].
  split; [assumption|]. split; [|split; assumption].
  intros Hspread. rewrite Hmap. apply map_ext_in. intros e He.
  apply filter_In in He. destruct He as (He & Hcr). f_equal.
  apply wrap_id.
  assert (Hne : from e <> to e).
  { intros Heq. rewrite Heq, Z.eqb_refl in Hcr. discriminate. }
  pose proof Hok as (Hwf & _).
  destruct (selection_entering (st_n s) (st_root s) (st_edges s) inEdge e
              Hwf Hinv He Hne) as (Hr & Hle).
  assert (Hin : In (sel_of (st_edges s) inEdge (to e)) (st_edges s))
    by (now apply edge_at_in).
  specialize (Hspread e _ He Hin).
  unfold in_int, INT_MIN, INT_MAX in *. lia.
Qed.

Lemma contraction_step_witness :
  exists id,
    (forall v, 0 <= v < 3 -> 0 <= idf_of id v < 2) /\
    (forall u v, 0 <= u < 3 -> 0 <= v < 3 ->
       (idf_of id u = idf_of id v <->
        u = v \/
        (rd [-1; 0; 0] u <> -1 /\ rd [-1; 0; 0] u = rd [-1; 0; 0] v))) /\
    selected 3 0 [E 0 1 10; E 1 2 20; E 2 1 5]
      (sel_of [E 0 1 10; E 1 2 20; E 2 1 5] [-1; 2; 1]) /\
    [E 0 1 5] =
      map (fun e =>
             mkEdge (idf_of id (from e)) (idf_of id (to e))
               (wrap (weight e -
                      weight (sel_of [E 0 1 10; E 1 2 20; E 2 1 5]
                                [-1; 2; 1] (to e)))))
        (filter (fun e => negb (idf_of id (from e) =? idf_of id (to e)))
           [E 0 1 10; E 1 2 20; E 2 1 5]) /\
    (spread INT_MAX [E 0 1 10; E 1 2 20; E 2 1 5] ->
     [E 0 1 5] =
       map (fun e =>
              mkEdge (idf_of id (from e)) (idf_of id (to e))
                (weight e -
                 weight (sel_of [E 0 1 10; E 1 2 20; E 2 1 5]
                           [-1; 2; 1] (to e))))
         (filter (fun e => negb (idf_of id (from e) =? idf_of id (to e)))
            [E 0 1 10; E 1 2 20; E 2 1 5])) /\
    0 = idf_of id 0 /\
    rd [-1; 0; 0] 0 = -1.
Proof.
  apply (contraction_step 3
           (initial_state 3 0 [E 0 1 10; E 1 2 20; E 2 1 5])
           (mkState 2 0 [E 0 1 5] 25 [-1; 2; 1] [-1; 0; 0] [2; 2; 2])).
  - apply initial_state_ok. apply wf_inputb_spec. reflexivity.
  - simpl. lia.
  - vm_compute. reflexivity.
Defined.

(** ** Trees *)

Lemma reach_path (edges : list Edge) (r u : Z) :
  reach edges r u ->
  forall e, In e edges -> from e = u -> path edges r (to e).
Proof.
  induction 1 as [|e0 Hr IH He0]; intros e He Hfrom.
  - now apply path_one.
  - apply path_more; [|assumption]. rewrite Hfrom. now apply IH.
Qed.

(** Two vertices of one class lie on a path of the graph. *)
Lemma same_class_path (n root : Z) (edges : list Edge) (sel : Z -> Edge)
  (idf : Z -> Z) (n' : Z) :
  wf_input n root edges ->
  contraction n root edges sel idf n' ->
  forall a b, same_class sel idf a b ->
    0 <= a < n -> idf a <> idf root ->
    a = b \/ path edges b a.
Proof.
  intros (_ & _ & Hedges) (Hsel & _ & _ & _ & _).
  induction 1 as [v|u v Hstep Hsc IH]; intros Hu Hid; [now left|].
  assert (Hne : u <> root) by congruence.
  destruct (Hsel u Hu Hne) as (Hin & Hto & _).
  right. rewrite <- Hto.
  destruct IH as [Heq|Hpath].
  - now apply Hedges.
  - congruence.
  - now apply path_one.
  - now apply path_more.
Qed.

(** The graph with the two edges [0 -> 1] and [0 -> 2] is a pure tree. *)
Lemma two_leaves_pure_tree (w1 w2 : Z) : pure_tree 3 0 [E 0 1 w1; E 0 2 w2].
Proof.
  split.
  - assert (Hpath : forall u w, path [E 0 1 w1; E 0 2 w2] u w ->
              u = 0 /\ (w = 1 \/ w = 2)).
    { intros u w. induction 1 as [e He Hfrom|e Hp IH He].
      - destruct He as [<-|[<-|[]]]; cbn in *; lia.
      - destruct He as [<-|[<-|[]]]; cbn in *; lia. }
    intros v Hv. apply Hpath in Hv. lia.
  - intros v Hv Hne. assert (Hv' : v = 1 \/ v = 2) by lia.
    destruct Hv' as [->| ->]; reflexivity.
Qed.

(** On a pure tree the first iteration of the reference returns the sum
    of all edge weights. *)
Lemma pure_tree_exact (fuel : nat) (n root : Z) (edges : list Edge) :
  wf_input n root edges ->
  pure_tree n root edges ->
  (Z.to_nat n <= fuel)%nat ->
  iteration_exact fuel (initial_state n root edges) =
    Ok (inr (mkOutcome ExitTotal (zsum weight edges) edges)).
Proof.
  intros Hwf (Hacyc & Hone) Hfuel.
  pose proof Hwf as (Hn & Hroot & Hedges).
  assert (Hentering : forall v e, In e (entering edges v) <->
            In e edges /\ to e = v).
  { intros v e. unfold entering. rewrite filter_In, Z.eqb_eq. tauto. }
  destruct (iteration_exact_spec fuel (initial_state n root edges))
    as (r & Hr & Hpost); [now apply initial_state_ok|assumption|].
  assert (Hfirst : r = inr (mkOutcome ExitTotal (zsum weight edges) edges)).
  { destruct r as [s'|o].
    - (* a contraction needs a cycle *)
      exfalso.
      destruct Hpost as (_ & _ & sel & idf & Hcon & _ & _ & _ & _ & v & Hv
                         & Hne & Hidv).
      cbn [initial_state st_n st_root st_edges] in *.
      pose proof Hcon as (Hsel & _ & _ & Hrootclass & Hclass).
      destruct (Hsel v Hv Hne) as (Hin & Hto & Hfrom & _).
      assert (Ha : 0 <= from (sel v) < n) by (now apply Hedges).
      assert (Hsc : same_class sel idf (from (sel v)) v)
        by (now apply Hclass).
      apply (Hacyc v).
      destruct (same_class_path n root edges sel idf _ Hwf Hcon _ _ Hsc Ha)
        as [Heq|Hpath].
      + rewrite Hidv. intros Heq. apply Hne. now apply Hrootclass.
      + contradiction.
      + rewrite <- Hto at 2. now apply path_more.
    - destruct o as [exit value out]. unfold iteration_post in Hpost.
      cbn [initial_state st_n st_root st_edges st_minWeight out_edges
             out_exit out_value] in Hpost.
      destruct Hpost as (-> & Hpost). destruct exit.
      + (* every vertex has an entering edge *)
        exfalso. destruct Hpost as (_ & v & Hv & Hne & Hall).
        specialize (Hone v Hv Hne).
        destruct (entering edges v) as [|e l] eqn:Hent; [discriminate|].
        assert (He : In e edges /\ to e = v)
          by (apply Hentering; rewrite Hent; now left).
        destruct He as (He & Hto).
        apply (Hacyc v). rewrite <- Hto at 2. apply path_one; auto.
      + destruct Hpost as (sel & Hsel & Hclimb & ->).
        do 2 f_equal. unfold selected_weight.
        rewrite (zsum_by_target weight (vertices n) edges).
        2:{ apply NoDup_vertices. }
        2:{ intros e He. apply in_vertices. now apply Hedges. }
        rewrite nonroot_sum. rewrite Z.add_0_l.
        apply zsum_ext. intros v Hv. apply in_vertices in Hv.
        destruct (v =? root) eqn:Hvr.
        * (* no edge enters the root *)
          apply Z.eqb_eq in Hvr. subst v.
          destruct (entering edges root) as [|e l] eqn:Hent; [reflexivity|].
          exfalso.
          assert (He : In e edges /\ to e = root)
            by (apply Hentering; rewrite Hent; now left).
          destruct He as (He & Hto).
          apply (Hacyc root). rewrite <- Hto at 2.
          apply (reach_path edges root (from e)); auto.
          apply (climbs_reach n root edges sel); auto.
          -- intros u Hu Hne. destruct (Hsel u Hu Hne) as (? & ? & _). auto.
          -- apply Hclimb. now apply Hedges.
          -- now apply Hedges.
        * apply Z.eqb_neq in Hvr.
          destruct (Hsel v Hv Hvr) as (Hin & Hto & _).
          assert (Hs : In (sel v) (entering edges v))
            by (now apply Hentering).
          specialize (Hone v Hv Hvr).
          destruct (entering edges v) as [|e [|e' l]]; try discriminate.
          destruct Hs as [->|[]]. cbn. lia. }
  now subst r.
Qed.



(** C8, as stated, fails: on the pure tree with the edges [0 -> 1] of
    weight [2147483647] and [0 -> 2] of weight [1] the addition of line 89
    overflows; the solver returns [-2147483648], and the sum of the edge
    weights is [2147483648]. *)
Lemma tree_sum_overflows :
  wf_input 3 0 [E 0 1 2147483647; E 0 2 1] /\
  pure_tree 3 0 [E 0 1 2147483647; E 0 2 1] /\
  returns (chuLiuEdmonds 3 3 0 [E 0 1 2147483647; E 0 2 1]) (-2147483648) /\
  zsum weight [E 0 1 2147483647; E 0 2 1] = 2147483648.
Proof.
  split; [apply wf_inputb_spec; reflexivity|].
  split; [apply two_leaves_pure_tree|].
  split; vm_compute; reflexivity.
Qed.

(** C8, amended: on a pure tree rooted at the root (an acyclic graph in
    which every vertex other than the root has exactly one entering edge)
    the solver returns in its first iteration, without a contraction and
    with the edge list unchanged; the value is the sum of all edge
    weights computed in [int] arithmetic, which is the sum itself when
    the sum is an [int]. *)
Theorem pure_tree_total (fuel : nat) (n root : Z) (edges : list Edge) :
  wf_input n root edges ->
  pure_tree n root edges ->
  (Z.to_nat n <= fuel)%nat ->
  iteration fuel (initial_state n root edges) =
    Ok (inr (mkOutcome ExitTotal (wrap (zsum weight edges)) edges)) /\
  chuLiuEdmonds fuel n root edges = Ok (wrap (zsum weight edges), edges) /\
  (in_int (zsum weight edges) ->
   chuLiuEdmonds fuel n root edges = Ok (zsum weight edges, edges)).
Proof.
  intros Hwf Htree Hfuel. pose proof Hwf as (Hn & _).
  set (s := initial_state n root edges).
  pose proof (pure_tree_exact fuel n root edges Hwf Htree Hfuel) as Hx.
  fold s in Hx.
  pose proof (iteration_sim fuel s s (state_sim_refl s)) as Hsim.
  rewrite Hx in Hsim.
  destruct (iteration fuel s) as [r| |] eqn:Hr; cbn [res_sim] in Hsim;
    try contradiction.
  destruct r as [s'|o]; cbn [step_sim] in Hsim; try contradiction.
  cbn [out_exit out_edges out_value] in Hsim.
  destruct Hsim as (Hexit & Hedges & Hval & _).
  assert (Hint : in_int (out_value o)).
  { apply (iteration_in_int fuel s (inr o)); [|exact Hr].
    cbn. unfold in_int, INT_MIN, INT_MAX. lia. }
  assert (Ho : o = mkOutcome ExitTotal (wrap (zsum weight edges)) edges).
  { destruct o as [exit value out]. cbn in *. subst exit out. f_equal.
    rewrite <- Hval. symmetry. now apply wrap_id. }
  subst o.
  assert (Hrun : chuLiuEdmonds fuel n root edges =
                 Ok (wrap (zsum weight edges), edges)).
  { unfold chuLiuEdmonds, chuLiuEdmonds_run, solver_loop.
    destruct fuel as [|fuel]; [lia|].
    cbn [while_loop]. fold s. rewrite Hr. reflexivity. }
  split; [reflexivity|]. split; [assumption|].
  intros Hsum. rewrite Hrun. now rewrite wrap_id.
Qed.

Lemma pure_tree_total_witness :
  iteration 3 (initial_state 3 0 [E 0 1 10; E 0 2 5]) =
    Ok (inr (mkOutcome ExitTotal (wrap (zsum weight [E 0 1 10; E 0 2 5]))
               [E 0 1 10; E 0 2 5])) /\
  chuLiuEdmonds 3 3 0 [E 0 1 10; E 0 2 5] =
    Ok (wrap (zsum weight [E 0 1 10; E 0 2 5]), [E 0 1 10; E 0 2 5]) /\
  (in_int (zsum weight [E 0 1 10; E 0 2 5]) ->
   chuLiuEdmonds 3 3 0 [E 0 1 10; E 0 2 5] =
     Ok (zsum weight [E 0 1 10; E 0 2 5], [E 0 1 10; E 0 2 5])).
Proof.
  apply pure_tree_total.
  - apply wf_inputb_spec. reflexivity.
  - apply two_leaves_pure_tree.
  - simpl. lia.
Defined.
(** * Further properties of the solver *)

(** ** The structural check (lines 50-52) *)

(** X1: an iteration leaves through [return -1] exactly when some vertex
    other than the root is entered by no edge from another vertex of the
    current snapshot; the caller's edges are then those of the snapshot. *)
Theorem failure_iff_no_entering_edge (fuel : nat) (s : state) :
  state_ok s ->
  (Z.to_nat (st_n s) <= fuel)%nat ->
  (iteration fuel s =
     Ok (inr (mkOutcome ExitNoArborescence (-1) (st_edges s))) <->
   exists v, 0 <= v < st_n s /\ v <> st_root s /\
             forall e, In e (st_edges s) -> to e = v -> from e = v).
Proof.
  intros Hok Hfuel.
  destruct (iteration_spec fuel s s Hok (state_sim_refl s) Hfuel)
    as (rx & r & Hrx & Hr & Hpost & Hsim).
  rewrite Hr. unfold iteration_post in Hpost. split.
  - intros Heq. injection Heq as ->.
    destruct rx as [sx'|ox]; cbn [step_sim] in Hsim; [contradiction|].
    cbn [out_exit] in Hsim. destruct Hsim as (Hexit & _).
    destruct Hpost as (_ & Hpost). rewrite <- Hexit in Hpost. tauto.
  - intros (v & Hv & Hne & Hall).
    assert (Hno : forall sel, selected (st_n s) (st_root s) (st_edges s) sel ->
              False).
    { intros sel Hsel. destruct (Hsel v Hv Hne) as (Hin & Hto & Hfrom & _).
      apply Hfrom. now apply Hall. }
    destruct rx as [sx'|ox]; destruct r as [s'|[exit value out]];
      cbn [step_sim] in Hsim; try contradiction.
    + exfalso. destruct Hpost as (_ & _ & sel & idf & (Hsel & _) & _).
      now apply (Hno sel).
    + cbn [out_exit out_edges out_value] in Hsim.
      destruct Hsim as (-> & -> & _ & Hfail).
      destruct Hpost as (-> & Hpost). destruct (out_exit ox).
      * destruct Hpost as (Hval & _). rewrite (Hfail eq_refl), Hval.
        reflexivity.
      * exfalso. destruct Hpost as (sel & Hsel & _). now apply (Hno sel).
Qed.

Lemma failure_iff_no_entering_edge_witness :
  iteration 3 (initial_state 3 0 [E 1 0 10; E 1 2 5]) =
    Ok (inr (mkOutcome ExitNoArborescence (-1)
               (st_edges (initial_state 3 0 [E 1 0 10; E 1 2 5])))) <->
  exists v, 0 <= v < st_n (initial_state 3 0 [E 1 0 10; E 1 2 5]) /\
            v <> st_root (initial_state 3 0 [E 1 0 10; E 1 2 5]) /\
            forall e, In e (st_edges (initial_state 3 0 [E 1 0 10; E 1 2 5])) ->
                      to e = v -> from e = v.
Proof.
  apply failure_iff_no_entering_edge.
  - apply initial_state_ok. apply wf_inputb_spec. reflexivity.
  - simpl. lia.
Defined.

(** ** The snapshot after a contraction (lines 97-127) *)

(** X2: the snapshot that a contraction leaves satisfies the preconditions
    of the solver again; it has no self-loop and not more edges than the
    snapshot before; the working vectors keep the lengths they were
    created with; when no two weights of the snapshot before differ by
    more than [INT_MAX], no edge of the new snapshot has a negative
    weight. *)
Theorem contracted_snapshot (fuel : nat) (s s' : state) :
  state_ok s ->
  (Z.to_nat (st_n s) <= fuel)%nat ->
  iteration fuel s = Ok (inl s') ->
  wf_input (st_n s') (st_root s') (st_edges s') /\
  (forall e, In e (st_edges s') -> from e <> to e) /\
  (length (st_edges s') <= length (st_edges s))%nat /\
  length (st_inEdge s') = length (st_inEdge s) /\
  length (st_cycle s') = length (st_cycle s) /\
  length (st_visited s') = length (st_visited s) /\
  (spread INT_MAX (st_edges s) ->
   forall e, In e (st_edges s') -> 0 <= weight e).
Proof.
  intros Hok Hfuel Hit.
  destruct (iteration_contracts fuel s s' Hit)
    as (inEdge & cc & cycle & visited & id & Hselect & Hcheck & Hdetect
        & Hcc & Hcontract & HI & HC & HV).
  destruct (detection_facts fuel s inEdge cc cycle visited Hok Hfuel Hselect
              Hcheck Hdetect)
    as (HlI & Hlc & Hlv & Hinv & _).
  destruct (contraction_facts fuel s inEdge cc cycle visited Hok Hfuel Hselect
              Hcheck Hdetect)
    as (id' & nn & Hcontract' & _ & Hcon).
  rewrite Hcontract in Hcontract'.
  injection Hcontract' as <- Hnn Hedges Hroot.
  pose proof Hok as (Hwf & _).
  assert (Hin : forall e', In e' (st_edges s') ->
            exists e, In e (st_edges s) /\ from e <> to e /\
              idf_of id (from e) <> idf_of id (to e) /\
              e' = wrap_edge
                     (contract_edge (sel_of (st_edges s) inEdge)
                        (idf_of id) e)).
  { intros e' He'. rewrite Hedges in He'. apply in_map_iff in He'.
    destruct He' as (e1 & <- & He1). apply in_contracted_edges in He1.
    destruct He1 as (e & He & Hcr & <-). exists e.
    unfold crossing in Hcr. apply negb_true_iff, Z.eqb_neq in Hcr.
    split; [assumption|]. split; [|split; [assumption|reflexivity]].
    intros Heq. now rewrite Heq in Hcr. }
  split; [|split; [|split; [|split; [|split; [|split]]]]]; try congruence.
  - rewrite Hnn, Hedges, Hroot. apply wf_input_wrap_edge.
    now apply (contraction_wf (st_n s) (st_root s) (st_edges s)).
  - intros e' He'. destruct (Hin e' He') as (e & _ & _ & Hcr & ->).
    exact Hcr.
  - rewrite Hedges. unfold contracted_edges. rewrite !length_map.
    apply filter_length_le.
  - intros Hspread e' He'. destruct (Hin e' He') as (e & He & Hne & _ & ->).
    cbn [wrap_edge contract_edge weight].
    destruct (selection_entering (st_n s) (st_root s) (st_edges s) inEdge e
                Hwf Hinv He Hne) as (Hr & Hle).
    assert (Hsel : In (sel_of (st_edges s) inEdge (to e)) (st_edges s))
      by (now apply edge_at_in).
    specialize (Hspread e _ He Hsel).
    rewrite wrap_id; [lia|]. unfold in_int, INT_MIN, INT_MAX in *. lia.
Qed.

Lemma contracted_snapshot_witness :
  wf_input 2 0 [E 0 1 5] /\
  (forall e, In e [E 0 1 5] -> from e <> to e) /\
  (length [E 0 1 5] <= length [E 0 1 10; E 1 2 20; E 2 1 5])%nat /\
  length [-1; 2; 1] = length (repeat (-1) (Z.to_nat 3)) /\
  length [-1; 0; 0] = length (repeat (-1) (Z.to_nat 3)) /\
  length [2; 2; 2] = length (repeat 0 (Z.to_nat 3)) /\
  (spread INT_MAX [E 0 1 10; E 1 2 20; E 2 1 5] ->
   forall e, In e [E 0 1 5] -> 0 <= weight e).
Proof.
  apply (contracted_snapshot 3
           (initial_state 3 0 [E 0 1 10; E 1 2 20; E 2 1 5])
           (mkState 2 0 [E 0 1 5] 25 [-1; 2; 1] [-1; 0; 0] [2; 2; 2])).
  - apply initial_state_ok. apply wf_inputb_spec. reflexivity.
  - simpl. lia.
  - vm_compute. reflexivity.
Defined.

(** ** Accumulation (lines 87-91) *)

Lemma selected_weight_unique (n root : Z) (edges : list Edge)
  (sel1 sel2 : Z -> Edge) :
  selected n root edges sel1 -> selected n root edges sel2 ->
  selected_weight n root sel1 = selected_weight n root sel2.
Proof.
  intros H1 H2. unfold selected_weight. apply zsum_ext. intros v Hv.
  apply in_nonroot in Hv. destruct Hv as (Hv & Hne).
  destruct (H1 v Hv Hne) as (Hin1 & Hto1 & Hfrom1 & Hmin1).
  destruct (H2 v Hv Hne) as (Hin2 & Hto2 & Hfrom2 & Hmin2).
  specialize (Hmin1 (sel2 v) Hin2 Hto2 Hfrom2).
  specialize (Hmin2 (sel1 v) Hin1 Hto1 Hfrom1). lia.
Qed.

(** X3: an iteration that does not fail adds to [minWeight], for every
    vertex other than the root, the least weight of an edge that enters it
    from another vertex, in [int] arithmetic: the result is the value it
    returns when there is no cycle, and the total it carries into the
    next iteration otherwise; it is the sum itself when the sum is an
    [int]. *)
Theorem iteration_adds_selected_weight (fuel : nat) (s : state)
  (sel : Z -> Edge) :
  state_ok s ->
  (Z.to_nat (st_n s) <= fuel)%nat ->
  in_int (st_minWeight s) ->
  selected (st_n s) (st_root s) (st_edges s) sel ->
  exists r, iteration fuel s = Ok r /\
    match r with
    | inl s' =>
        st_minWeight s' =
        wrap (st_minWeight s + selected_weight (st_n s) (st_root s) sel) /\
        (in_int (st_minWeight s + selected_weight (st_n s) (st_root s) sel) ->
         st_minWeight s' =
         st_minWeight s + selected_weight (st_n s) (st_root s) sel)
    | inr o =>
        out_exit o = ExitTotal /\
        out_value o =
        wrap (st_minWeight s + selected_weight (st_n s) (st_root s) sel) /\
        (in_int (st_minWeight s + selected_weight (st_n s) (st_root s) sel) ->
         out_value o =
         st_minWeight s + selected_weight (st_n s) (st_root s) sel)
    end.
Proof.
  intros Hok Hfuel Hacc Hsel.
  destruct (iteration_spec fuel s s Hok (state_sim_refl s) Hfuel)
    as (rx & r & Hrx & Hr & Hpost & Hsim).
  pose proof (iteration_in_int fuel s r Hacc Hr) as Hint.
  exists r. split; [assumption|]. unfold iteration_post in Hpost.
  assert (Hboth : forall x y, in_int x -> wrap x = wrap y ->
            x = wrap y /\ (in_int y -> x = y)).
  { intros x y Hx Hxy. rewrite <- Hxy, (wrap_id x Hx). split; [reflexivity|].
    intros Hy. rewrite (wrap_id x Hx) in Hxy.
    now rewrite (wrap_id y Hy) in Hxy. }
  destruct rx as [sx'|ox]; destruct r as [s'|o];
    cbn [step_sim] in Hsim; try contradiction.
  - destruct Hpost as (_ & _ & sel0 & idf & (Hsel0 & _) & _ & _ & Hsum & _).
    destruct Hsim as (_ & _ & _ & _ & _ & _ & Hval).
    rewrite Hsum in Hval.
    rewrite (selected_weight_unique _ _ (st_edges s) sel0 sel Hsel0 Hsel)
      in Hval.
    now apply Hboth.
  - destruct Hpost as (_ & Hpost).
    destruct Hsim as (Hexit & _ & Hval & _). rewrite Hexit.
    destruct (out_exit ox).
    + exfalso. destruct Hpost as (_ & v & Hv & Hne & Hall).
      destruct (Hsel v Hv Hne) as (Hin & Hto & Hfrom & _).
      apply Hfrom. now apply Hall.
    + destruct Hpost as (sel0 & Hsel0 & _ & Hsum).
      split; [reflexivity|]. rewrite Hsum in Hval.
      rewrite (selected_weight_unique _ _ (st_edges s) sel0 sel Hsel0 Hsel)
        in Hval.
      now apply Hboth.
Qed.

Lemma test_case_2_selected :
  selected 3 0 [E 0 1 10; E 1 2 20; E 2 1 5]
    (fun v => if v =? 1 then E 2 1 5 else E 1 2 20).
Proof.
  intros v Hv Hne. assert (Hv' : v = 1 \/ v = 2) by lia.
  destruct Hv' as [->| ->]; cbn.
  - split; [tauto|]. split; [reflexivity|]. split; [lia|].
    intros e [<-|[<-|[<-|[]]]]; cbn; lia.
  - split; [tauto|]. split; [reflexivity|]. split; [lia|].
    intros e [<-|[<-|[<-|[]]]]; cbn; lia.
Qed.

Lemma iteration_adds_selected_weight_witness :
  exists r,
    iteration 3 (initial_state 3 0 [E 0 1 10; E 1 2 20; E 2 1 5]) = Ok r /\
    match r with
    | inl s' =>
        st_minWeight s' =
        wrap (st_minWeight (initial_state 3 0 [E 0 1 10; E 1 2 20; E 2 1 5]) +
              selected_weight 3 0
                (fun v => if v =? 1 then E 2 1 5 else E 1 2 20)) /\
        (in_int
           (st_minWeight (initial_state 3 0 [E 0 1 10; E 1 2 20; E 2 1 5]) +
            selected_weight 3 0
              (fun v => if v =? 1 then E 2 1 5 else E 1 2 20)) ->
         st_minWeight s' =
         st_minWeight (initial_state 3 0 [E 0 1 10; E 1 2 20; E 2 1 5]) +
         selected_weight 3 0 (fun v => if v =? 1 then E 2 1 5 else E 1 2 20))
    | inr o =>
        out_exit o = ExitTotal /\
        out_value o =
        wrap (st_minWeight (initial_state 3 0 [E 0 1 10; E 1 2 20; E 2 1 5]) +
              selected_weight 3 0
                (fun v => if v =? 1 then E 2 1 5 else E 1 2 20)) /\
        (in_int
           (st_minWeight (initial_state 3 0 [E 0 1 10; E 1 2 20; E 2 1 5]) +
            selected_weight 3 0
              (fun v => if v =? 1 then E 2 1 5 else E 1 2 20)) ->
         out_value o =
         st_minWeight (initial_state 3 0 [E 0 1 10; E 1 2 20; E 2 1 5]) +
         selected_weight 3 0 (fun v => if v =? 1 then E 2 1 5 else E 1 2 20))
    end.
Proof.
  apply (iteration_adds_selected_weight 3
           (initial_state 3 0 [E 0 1 10; E 1 2 20; E 2 1 5])).
  - apply initial_state_ok. apply wf_inputb_spec. reflexivity.
  - simpl. lia.
  - cbn. unfold in_int, INT_MIN, INT_MAX. lia.
  - apply test_case_2_selected.
Defined.

(** ** Cycle detection (lines 54-85) *)

(** The vertices that a labelled vertex leads to carry its label. *)
Lemma label_along_orbit (n root : Z) (p : Z -> Z) (cc : Z)
  (cycle visited : list Z) (u v : Z) :
  detect_inv n root p n cc cycle visited ->
  (forall x, 0 <= x < n -> x <> root -> 0 <= p x < n) ->
  orbit p u v -> 0 <= u < n -> rd cycle u <> -1 ->
  0 <= v < n /\ rd cycle v = rd cycle u.
Proof.
  intros Hinv Hp. induction 1 as [u|u v H IH]; intros Hu Hf; [auto|].
  destruct (di_cycle _ _ _ _ _ _ _ Hinv u Hu Hf) as (Hne & _ & Hpf).
  destruct IH as (Hv & Hcv); [now apply Hp|congruence|].
  split; [assumption|congruence].
Qed.

(** A closed walk contains every vertex that one of its vertices leads
    to. *)
Lemma closed_walk_orbit (p : Z -> Z) (v : Z) (W : list Z) (a x : Z) :
  seg p v v W -> orbit p a x -> In a W -> In x W.
Proof.
  intros Hseg. induction 1 as [a|a x H IH]; intros Ha; [assumption|].
  apply IH. destruct (seg_closed p v v a W Hseg Ha) as [Hin|Heq];
    [assumption|].
  rewrite Heq. destruct W as [|y W]; [destruct Ha|].
  apply seg_head in Hseg. destruct Hseg as (-> & _). now left.
Qed.

(** X4: when cycle detection ends every vertex is settled; the labelled
    vertices are exactly those on a closed walk of selected edges that
    avoids the root; two of them carry the same label exactly when one
    leads to the other; the labels are below [cycleCount], which is zero
    exactly when no vertex is labelled. *)
Theorem detect_phase_labels_cycles (fuel : nat) (s : state)
  (inEdge : list Z) (cycleCount : Z) (cycle visited : list Z) :
  state_ok s ->
  (Z.to_nat (st_n s) <= fuel)%nat ->
  select_phase (st_n s) (st_edges s) (st_inEdge s) = Ok inEdge ->
  check_loop (Z.to_nat (st_n s)) 0 (st_root s) inEdge = Ok false ->
  detect_phase fuel (st_n s) (st_root s) (st_edges s) inEdge
    (st_cycle s) (st_visited s) = Ok (cycleCount, cycle, visited) ->
  (forall v, 0 <= v < st_n s -> rd visited v = 2) /\
  (forall v, 0 <= v < st_n s ->
     rd cycle v = -1 \/ 0 <= rd cycle v < cycleCount) /\
  (cycleCount = 0 <-> forall v, 0 <= v < st_n s -> rd cycle v = -1) /\
  (forall v, 0 <= v < st_n s ->
     (rd cycle v <> -1 <->
      exists C, seg (par (st_edges s) inEdge) v v (v :: C) /\
                ~ In (st_root s) (v :: C))) /\
  (forall u v, 0 <= u < st_n s -> 0 <= v < st_n s -> rd cycle u <> -1 ->
     (rd cycle u = rd cycle v <-> orbit (par (st_edges s) inEdge) u v)).
Proof.
  intros Hok Hfuel Hselect Hcheck Hdetect.
  destruct (detection_facts fuel s inEdge cycleCount cycle visited Hok Hfuel
              Hselect Hcheck Hdetect)
    as (_ & _ & _ & _ & _ & Hp & Hinv).
  set (n := st_n s) in *. set (root := st_root s) in *.
  set (p := par (st_edges s) inEdge) in *.
  assert (Hp' : forall x, 0 <= x < n -> x <> root -> 0 <= p x < n)
    by (intros x Hx Hne; now apply Hp).
  assert (Hsettled : forall v, 0 <= v < n -> rd visited v = 2)
    by (intros v Hv; apply (di_done _ _ _ _ _ _ _ Hinv); auto; lia).
  split; [assumption|]. split; [apply (di_ids _ _ _ _ _ _ _ Hinv)|].
  split; [|split].
  - split.
    + intros Hz v Hv. destruct (di_ids _ _ _ _ _ _ _ Hinv v Hv); [auto|lia].
    + intros Hnone. pose proof (di_count _ _ _ _ _ _ _ Hinv) as Hc.
      destruct (Z.eq_dec cycleCount 0) as [|Hnz]; [assumption|].
      destruct (di_some _ _ _ _ _ _ _ Hinv) as (v & Hv & Hf); [lia|].
      exfalso. apply Hf. now apply Hnone.
  - intros v Hv. split.
    + intros Hf.
      destruct (di_cycle _ _ _ _ _ _ _ Hinv v Hv Hf) as (Hne & _ & Hpf).
      assert (Hpv : 0 <= p v < n) by (now apply Hp').
      assert (Horb : orbit p (p v) v)
        by (apply (di_same _ _ _ _ _ _ _ Hinv); auto; congruence).
      destruct (orbit_seg_first p _ _ Horb) as (L & HL & HvL).
      exists L. split; [now apply seg_cons|].
      intros [Heq|Hin]; [now apply Hne|].
      assert (Hx : orbit p (p v) root)
        by (now apply (seg_orbit_to p (p v) v root L)).
      destruct (label_along_orbit n root p cycleCount cycle visited _ _
                  Hinv Hp' Hx Hpv) as (_ & Hrf); [congruence|].
      assert (Hrflag : rd cycle root <> -1) by congruence.
      destruct (di_cycle _ _ _ _ _ _ _ Hinv root) as (Hc & _); auto.
      destruct Hok as ((_ & Hr & _) & _). exact Hr.
    + intros (C & Hseg & Hroot).
      assert (HvW : In v (v :: C)) by (now left).
      destruct (di_leads _ _ _ _ _ _ _ Hinv v Hv (Hsettled v Hv))
        as [Hr|(c & Hc & Hcf & Hvc)].
      * exfalso. apply Hroot.
        now apply (closed_walk_orbit p v (v :: C) v root).
      * assert (HcW : In c (v :: C))
          by (now apply (closed_walk_orbit p v (v :: C) v c)).
        assert (Hcv : orbit p c v)
          by (now apply (seg_cycle_orbit p v c v (v :: C))).
        destruct (label_along_orbit n root p cycleCount cycle visited _ _
                    Hinv Hp' Hcv Hc Hcf) as (_ & Heq). congruence.
  - intros u v Hu Hv Hf. split.
    + now apply (di_same _ _ _ _ _ _ _ Hinv).
    + intros Horb.
      destruct (label_along_orbit n root p cycleCount cycle visited _ _
                  Hinv Hp' Horb Hu Hf) as (_ & Heq). congruence.
Qed.

Lemma detect_phase_labels_cycles_witness :
  (forall v, 0 <= v < 3 -> rd [2; 2; 2] v = 2) /\
  (forall v, 0 <= v < 3 ->
     rd [-1; 0; 0] v = -1 \/ 0 <= rd [-1; 0; 0] v < 1) /\
  (1 = 0 <-> forall v, 0 <= v < 3 -> rd [-1; 0; 0] v = -1) /\
  (forall v, 0 <= v < 3 ->
     (rd [-1; 0; 0] v <> -1 <->
      exists C,
        seg (par [E 0 1 10; E 1 2 20; E 2 1 5] [-1; 2; 1]) v v (v :: C) /\
        ~ In 0 (v :: C))) /\
  (forall u v, 0 <= u < 3 -> 0 <= v < 3 -> rd [-1; 0; 0] u <> -1 ->
     (rd [-1; 0; 0] u = rd [-1; 0; 0] v <->
      orbit (par [E 0 1 10; E 1 2 20; E 2 1 5] [-1; 2; 1]) u v)).
Proof.
  apply (detect_phase_labels_cycles 3
           (initial_state 3 0 [E 0 1 10; E 1 2 20; E 2 1 5])
           [-1; 2; 1] 1 [-1; 0; 0] [2; 2; 2]).
  - apply initial_state_ok. apply wf_inputb_spec. reflexivity.
  - simpl. lia.
  - vm_compute. reflexivity.
  - vm_compute. reflexivity.
  - vm_compute. reflexivity.
Defined.

(** ** Relabelling (lines 98-113) *)

(** X5: the relabelling maps the vertices onto [0, ..., numNodes - 1]:
    every new index lies in this range and every number of the range is a
    new index; two vertices receive the same new index exactly when they
    are the same vertex or carry the same cycle label; there are fewer
    new vertices than old ones when some vertex is labelled, and as many
    when none is. *)
Theorem relabel_merges_cycles (fuel : nat) (s : state) (inEdge : list Z)
  (cycleCount : Z) (cycle visited id : list Z) (numNodes : Z)
  (contractedEdges : list Edge) (newRoot : Z) :
  state_ok s ->
  (Z.to_nat (st_n s) <= fuel)%nat ->
  select_phase (st_n s) (st_edges s) (st_inEdge s) = Ok inEdge ->
  check_loop (Z.to_nat (st_n s)) 0 (st_root s) inEdge = Ok false ->
  detect_phase fuel (st_n s) (st_root s) (st_edges s) inEdge
    (st_cycle s) (st_visited s) = Ok (cycleCount, cycle, visited) ->
  contract_phase fuel (st_n s) (st_root s) (st_edges s) inEdge cycle =
    Ok (id, numNodes, contractedEdges, newRoot) ->
  (forall v, 0 <= v < st_n s -> 0 <= idf_of id v < numNodes) /\
  (forall x, 0 <= x < numNodes ->
     exists v, 0 <= v < st_n s /\ idf_of id v = x) /\
  (forall u v, 0 <= u < st_n s -> 0 <= v < st_n s ->
     (idf_of id u = idf_of id v <->
      u = v \/ (rd cycle u <> -1 /\ rd cycle u = rd cycle v))) /\
  ((exists v, 0 <= v < st_n s /\ rd cycle v <> -1) ->
   1 <= numNodes < st_n s) /\
  ((forall v, 0 <= v < st_n s -> rd cycle v = -1) -> numNodes = st_n s).
Proof.
  intros Hok Hfuel Hselect Hcheck Hdetect Hcontract.
  destruct (relabel_facts fuel s inEdge cycleCount cycle visited id numNodes
              contractedEdges newRoot Hok Hfuel Hselect Hcheck Hdetect
              Hcontract)
    as (Hrange & Honto & Hclass & Hless & Hsame & _).
  auto.
Qed.

Lemma relabel_merges_cycles_witness :
  (forall v, 0 <= v < 3 -> 0 <= idf_of [1; 2; 2] v < 2) /\
  (forall x, 0 <= x < 2 -> exists v, 0 <= v < 3 /\ idf_of [1; 2; 2] v = x) /\
  (forall u v, 0 <= u < 3 -> 0 <= v < 3 ->
     (idf_of [1; 2; 2] u = idf_of [1; 2; 2] v <->
      u = v \/ (rd [-1; 0; 0] u <> -1 /\ rd [-1; 0; 0] u = rd [-1; 0; 0] v))) /\
  ((exists v, 0 <= v < 3 /\ rd [-1; 0; 0] v <> -1) -> 1 <= 2 < 3) /\
  ((forall v, 0 <= v < 3 -> rd [-1; 0; 0] v = -1) -> 2 = 3).
Proof.
  apply (relabel_merges_cycles 3
           (initial_state 3 0 [E 0 1 10; E 1 2 20; E 2 1 5])
           [-1; 2; 1] 1 [-1; 0; 0] [2; 2; 2] [1; 2; 2] 2 [E 0 1 5] 0).
  - apply initial_state_ok. apply wf_inputb_spec. reflexivity.
  - simpl. lia.
  - vm_compute. reflexivity.
  - vm_compute. reflexivity.
  - vm_compute. reflexivity.
  - vm_compute. reflexivity.
Defined.

(** ** Selection (lines 39-48) *)

Lemma edge_at_prefix (d r : list Edge) (j : Z) :
  0 <= j < Z.of_nat (length d) ->
  In (edge_at (d ++ r) j) d.
Proof.
  intros Hj. unfold edge_at. rewrite app_nth1 by lia. apply nth_In. lia.
Qed.

(** One pass of the selection loop. *)
Lemma select_body_step (n : Z) (edges d r : list Edge) (e : Edge)
  (t : list Z) :
  edges = d ++ e :: r ->
  0 <= to e < n ->
  n <= Z.of_nat (length t) ->
  selection_inv n edges d t ->
  selection_first n edges t ->
  exists t',
    select_body edges (Z.of_nat (length d)) e t = Ok t' /\
    length t' = length t /\
    selection_inv n edges (d ++ [e]) t' /\
    selection_first n edges t'.
Proof.
  intros Hsplit Hto Hlen Hinv Hfirst.
  assert (Hk : edge_at edges (Z.of_nat (length d)) = e)
    by (rewrite Hsplit; apply edge_at_middle).
  assert (Hdl : Z.of_nat (length (d ++ [e])) = Z.of_nat (length d) + 1)
    by (rewrite length_app; simpl; lia).
  assert (Hext : forall v s, 0 <= v < n ->
            (v <> to e \/ from e = to e \/ weight s <= weight e) ->
            (forall e', In e' d -> to e' = v -> from e' <> v ->
               weight s <= weight e') ->
            forall e', In e' (d ++ [e]) -> to e' = v -> from e' <> v ->
              weight s <= weight e').
  { intros v s Hv Hcase Hmin e' He' Hte' Hfe'.
    apply in_app_iff in He'. destruct He' as [He'|[<-|[]]]; [auto|].
    destruct Hcase as [Hne|[Hloop|Hle]]; congruence || assumption. }
  assert (Hkeep : forall t', length t' = length t ->
            (forall v, 0 <= v -> v <> to e -> rd t' v = rd t v) ->
            forall v, 0 <= v < n -> v <> to e ->
              ((rd t' v = -1 /\
                forall e', In e' (d ++ [e]) -> to e' = v -> from e' = v) \/
               (0 <= rd t' v < Z.of_nat (length (d ++ [e])) /\
                to (sel_of edges t' v) = v /\
                from (sel_of edges t' v) <> v /\
                forall e', In e' (d ++ [e]) -> to e' = v -> from e' <> v ->
                  weight (sel_of edges t' v) <= weight e')) /\
              (forall j, rd t' v <> -1 -> 0 <= j < rd t' v ->
                 to (edge_at edges j) = v -> from (edge_at edges j) <> v ->
                 weight (sel_of edges t' v) < weight (edge_at edges j))).
  { intros t' Hl' Hsame v Hv Hne. unfold sel_of.
    rewrite (Hsame v) by lia. split.
    - destruct (Hinv v Hv) as [(Hm & Hall)|(Hr & Hst & Hsf & Hmin)].
      + left. split; [assumption|]. intros e' He' Hte'.
        apply in_app_iff in He'. destruct He' as [He'|[<-|[]]]; [auto|].
        congruence.
      + right. split; [lia|]. split; [assumption|]. split; [assumption|].
        apply Hext; auto.
    - intros j Hf Hj. now apply (Hfirst v j). }
  assert (Hskip : selection_inv n edges (d ++ [e]) t /\
            selection_first n edges t ->
            exists t', Ok t = Ok t' /\ length t' = length t /\
              selection_inv n edges (d ++ [e]) t' /\
              selection_first n edges t')
    by (intros (H1 & H2); exists t; auto).
  assert (Hself : forall v, 0 <= v < n ->
            from e = to e \/
            (rd t (to e) <> -1 /\ weight (sel_of edges t (to e)) <= weight e) ->
            (rd t v = -1 /\
             forall e', In e' (d ++ [e]) -> to e' = v -> from e' = v) \/
            (0 <= rd t v < Z.of_nat (length (d ++ [e])) /\
             to (sel_of edges t v) = v /\
             from (sel_of edges t v) <> v /\
             forall e', In e' (d ++ [e]) -> to e' = v -> from e' <> v ->
               weight (sel_of edges t v) <= weight e')).
  { intros v Hv Hcase.
    destruct (Hinv v Hv) as [(Hm & Hall)|(Hr & Hst & Hsf & Hmin)].
    - left. split; [assumption|]. intros e' He' Hte'.
      apply in_app_iff in He'. destruct He' as [He'|[<-|[]]]; [auto|].
      destruct Hcase as [Hloop|(Hf & _)]; congruence.
    - right. split; [lia|]. split; [assumption|]. split; [assumption|].
      apply Hext; auto.
      destruct (Z.eq_dec v (to e)) as [->|Hne]; [|now left].
      right. destruct Hcase as [Hloop|(_ & Hle)]; auto. }
  unfold select_body.
  destruct (from e =? to e) eqn:Hloop.
  { apply Z.eqb_eq in Hloop. apply Hskip. split; [|assumption].
    intros v Hv. apply Hself; auto. }
  apply Z.eqb_neq in Hloop.
  rewrite (get_rd t (to e)) by lia. cbn [bind].
  assert (Hset : vec_set t (to e) (Z.of_nat (length d)) =
                 Ok (upd t (to e) (Z.of_nat (length d))))
    by (apply set_upd; lia).
  assert (Hnewsel : sel_of edges (upd t (to e) (Z.of_nat (length d))) (to e)
                    = e).
  { unfold sel_of. rewrite rd_upd_eq by lia. exact Hk. }
  assert (Hnewrd : rd (upd t (to e) (Z.of_nat (length d))) (to e)
                   = Z.of_nat (length d)) by (apply rd_upd_eq; lia).
  assert (Hreplace :
            (rd t (to e) = -1 \/
             (rd t (to e) <> -1 /\
              weight e < weight (sel_of edges t (to e)))) ->
            exists t',
              Ok (upd t (to e) (Z.of_nat (length d))) = Ok t' /\
              length t' = length t /\
              selection_inv n edges (d ++ [e]) t' /\
              selection_first n edges t').
  { intros Hcase. eexists. split; [reflexivity|].
    split; [apply length_upd|].
    assert (Hsame : forall v, 0 <= v -> v <> to e ->
              rd (upd t (to e) (Z.of_nat (length d))) v = rd t v)
      by (intros v Hv Hne; apply rd_upd_neq; lia).
    assert (Hbefore : forall e', In e' d -> to e' = to e ->
              from e' <> to e -> weight e < weight e').
    { intros e' He' Hte' Hfe'.
      destruct (Hinv (to e) Hto) as [(_ & Hall)|(Hr & _ & _ & Hmin)].
      - exfalso. apply Hfe'. now apply Hall.
      - destruct Hcase as [Hm|(_ & Hlt)]; [lia|].
        specialize (Hmin e' He' Hte' Hfe'). lia. }
    split.
    - intros v Hv. destruct (Z.eq_dec v (to e)) as [->|Hne].
      + right. rewrite Hnewsel, Hnewrd.
        split; [lia|]. split; [reflexivity|]. split; [assumption|].
        intros e' He' Hte' Hfe'.
        apply in_app_iff in He'. destruct He' as [He'|[<-|[]]]; [|lia].
        specialize (Hbefore e' He' Hte' Hfe'). lia.
      + apply (Hkeep _ (length_upd _ _ _) Hsame v Hv Hne).
    - intros v j Hv Hf Hj Htj Hfj.
      destruct (Z.eq_dec v (to e)) as [->|Hne].
      + rewrite Hnewsel. rewrite Hnewrd in Hj.
        apply Hbefore; auto. rewrite Hsplit. now apply edge_at_prefix.
      + apply (Hkeep _ (length_upd _ _ _) Hsame v Hv Hne); auto. }
  destruct (rd t (to e) =? -1) eqn:Hcur; cbn [bind].
  { apply Z.eqb_eq in Hcur. rewrite Hset. apply Hreplace. now left. }
  apply Z.eqb_neq in Hcur.
  destruct (Hinv (to e) Hto) as [(Hm & _)|(Hr & _)]; [contradiction|].
  assert (Hd : Z.of_nat (length d) < Z.of_nat (length edges)).
  { rewrite Hsplit, length_app. simpl. lia. }
  rewrite (get_edge edges (rd t (to e))) by lia. cbn [bind].
  fold (sel_of edges t (to e)).
  destruct (weight e <? weight (sel_of edges t (to e))) eqn:Hlt.
  - apply Z.ltb_lt in Hlt. rewrite Hset. apply Hreplace. right. auto.
  - apply Z.ltb_ge in Hlt. apply Hskip. split; [|assumption].
    intros v Hv. apply Hself; auto.
Qed.

(** X6: after the selection loop, [inEdge[v]] is [-1] for a vertex [v]
    that no edge enters from another vertex; for any other vertex, the
    root included, it is the index of the first among the cheapest edges
    that enter [v] from another vertex. *)
Theorem select_phase_first_minimum (n root : Z) (edges : list Edge)
  (inEdge0 : list Z) :
  wf_input n root edges ->
  n <= Z.of_nat (length inEdge0) ->
  exists inEdge,
    select_phase n edges inEdge0 = Ok inEdge /\
    length inEdge = length inEdge0 /\
    forall v, 0 <= v < n ->
      (rd inEdge v = -1 /\
       forall e, In e edges -> to e = v -> from e = v) \/
      (0 <= rd inEdge v < Z.of_nat (length edges) /\
       to (edge_at edges (rd inEdge v)) = v /\
       from (edge_at edges (rd inEdge v)) <> v /\
       (forall e, In e edges -> to e = v -> from e <> v ->
          weight (edge_at edges (rd inEdge v)) <= weight e) /\
       (forall j, 0 <= j < rd inEdge v ->
          to (edge_at edges j) = v -> from (edge_at edges j) <> v ->
          weight (edge_at edges (rd inEdge v)) < weight (edge_at edges j))).
Proof.
  intros (Hn & Hroot & Hedges) Hlen. unfold select_phase.
  destruct (reset_spec n inEdge0) as (inEdge1 & Hreset & Hl1 & Hinit); [lia|].
  rewrite Hreset. cbn [bind].
  destruct (for_each_rule
              (fun done v => length v = length inEdge0 /\
                             selection_inv n edges done v /\
                             selection_first n edges v)
              (select_body edges) edges inEdge1)
    as (inEdge & Hrun & Hl & Hinv & Hfirst).
  - split; [assumption|]. split.
    + intros v Hv. left. split; [now apply Hinit|]. intros e [].
    + intros v j Hv Hf. exfalso. apply Hf. now apply Hinit.
  - intros d e r t Hsplit (Hl & Hinv & Hfirst).
    assert (He : In e edges) by (rewrite Hsplit; apply in_elt).
    destruct (select_body_step n edges d r e t Hsplit) as (t' & Ht' & Hl' & H');
      auto; try lia.
    + now apply Hedges.
    + exists t'. split; [assumption|]. split; [congruence|assumption].
  - exists inEdge. split; [assumption|]. split; [assumption|].
    intros v Hv.
    destruct (Hinv v Hv) as [(Hm & Hall)|(Hr & Hst & Hsf & Hmin)];
      [left; auto|].
    right. split; [assumption|]. split; [assumption|].
    split; [assumption|]. split; [assumption|].
    intros j Hj. apply (Hfirst v j); auto. lia.
Qed.

Lemma select_phase_first_minimum_witness :
  exists inEdge,
    select_phase 3 [E 0 1 5; E 2 1 5; E 1 2 7] [-1; -1; -1] = Ok inEdge /\
    length inEdge = length [-1; -1; -1] /\
    forall v, 0 <= v < 3 ->
      (rd inEdge v = -1 /\
       forall e, In e [E 0 1 5; E 2 1 5; E 1 2 7] -> to e = v -> from e = v) \/
      (0 <= rd inEdge v < Z.of_nat (length [E 0 1 5; E 2 1 5; E 1 2 7]) /\
       to (edge_at [E 0 1 5; E 2 1 5; E 1 2 7] (rd inEdge v)) = v /\
       from (edge_at [E 0 1 5; E 2 1 5; E 1 2 7] (rd inEdge v)) <> v /\
       (forall e, In e [E 0 1 5; E 2 1 5; E 1 2 7] -> to e = v ->
          from e <> v ->
          weight (edge_at [E 0 1 5; E 2 1 5; E 1 2 7] (rd inEdge v))
          <= weight e) /\
       (forall j, 0 <= j < rd inEdge v ->
          to (edge_at [E 0 1 5; E 2 1 5; E 1 2 7] j) = v ->
          from (edge_at [E 0 1 5; E 2 1 5; E 1 2 7] j) <> v ->
          weight (edge_at [E 0 1 5; E 2 1 5; E 1 2 7] (rd inEdge v))
          < weight (edge_at [E 0 1 5; E 2 1 5; E 1 2 7] j))).
Proof.
  apply (select_phase_first_minimum 3 0).
  - apply wf_inputb_spec. reflexivity.
  - simpl. lia.
Defined.

(** ** The edges that matter *)

Lemma arborescence_relevant (n root : Z) (edges1 edges2 : list Edge)
  (A : Z -> Edge) :
  (forall e, from e <> to e -> to e <> root -> In e edges1 -> In e edges2) ->
  arborescence n root edges1 A -> arborescence n root edges2 A.
Proof.
  intros Hrel (HA & Hclimb). split; [|assumption].
  intros v Hv Hne. destruct (HA v Hv Hne) as (Hin & Hto).
  split; [|assumption]. apply Hrel; [| |assumption].
  - rewrite Hto. apply (climbs_no_loop A root); auto.
  - congruence.
Qed.

(** X7: when all weights have absolute value at most [W], where [W] and
    [(n - 1) * W] are at most [INT_MAX], the returned value depends only
    on the set of the edges that are not self-loops and do not enter the
    root: self-loops, edges into the root, repeated edges and the order
    of the list do not matter. *)
Theorem value_depends_on_relevant_edges (fuel : nat) (n root : Z)
  (edges1 edges2 : list Edge) (W : Z) :
  wf_input n root edges1 ->
  wf_input n root edges2 ->
  weights_within W edges1 ->
  weights_within W edges2 ->
  W <= INT_MAX ->
  (n - 1) * W <= INT_MAX ->
  (forall e, from e <> to e -> to e <> root ->
     (In e edges1 <-> In e edges2)) ->
  (Z.to_nat n <= fuel)%nat ->
  exists w out1 out2,
    chuLiuEdmonds fuel n root edges1 = Ok (w, out1) /\
    chuLiuEdmonds fuel n root edges2 = Ok (w, out2).
Proof.
  intros Hwf1 Hwf2 HW1 HW2 HWmax Hsum Hrel Hfuel.
  assert (H12 : forall A, arborescence n root edges1 A ->
            arborescence n root edges2 A).
  { intros A. apply arborescence_relevant. intros e H1 H2. now apply Hrel. }
  assert (H21 : forall A, arborescence n root edges2 A ->
            arborescence n root edges1 A).
  { intros A. apply arborescence_relevant. intros e H1 H2. now apply Hrel. }
  destruct (run_minimum fuel n root edges1 W Hwf1 HW1 HWmax Hsum Hfuel)
    as (o1 & Ho1 & Hpost1).
  destruct (run_minimum fuel n root edges2 W Hwf2 HW2 HWmax Hsum Hfuel)
    as (o2 & Ho2 & Hpost2).
  exists (out_value o1), (out_edges o1), (out_edges o2).
  unfold chuLiuEdmonds. rewrite Ho1, Ho2. cbn [bind].
  split; [reflexivity|]. do 2 f_equal.
  destruct Hpost1 as [(_ & Hmin1)|(_ & Hval1 & v1 & Hv1 & Hne1 & Hnr1)];
    destruct Hpost2 as [(_ & Hmin2)|(_ & Hval2 & v2 & Hv2 & Hne2 & Hnr2)].
  - apply (min_arb_weight_unique n root edges1); [|assumption].
    destruct Hmin2 as ((A & HA & Hw) & Hmin2). split.
    + exists A. auto.
    + intros B HB. apply Hmin2. auto.
  - exfalso. apply Hnr2. destruct Hmin1 as ((A & HA & _) & _).
    apply (arborescence_all_reachable n root edges2 A); auto.
  - exfalso. apply Hnr1. destruct Hmin2 as ((A & HA & _) & _).
    apply (arborescence_all_reachable n root edges1 A); auto.
  - lia.
Qed.

Lemma value_depends_on_relevant_edges_witness :
  exists w out1 out2,
    chuLiuEdmonds 3 3 0 [E 0 1 10; E 1 2 20; E 2 1 5] = Ok (w, out1) /\
    chuLiuEdmonds 3 3 0
      [E 1 1 (-7); E 2 1 5; E 2 0 1; E 0 1 10; E 1 2 20; E 2 1 5]
    = Ok (w, out2).
Proof.
  apply (value_depends_on_relevant_edges 3 3 0
           [E 0 1 10; E 1 2 20; E 2 1 5]
           [E 1 1 (-7); E 2 1 5; E 2 0 1; E 0 1 10; E 1 2 20; E 2 1 5] 20).
  - apply wf_inputb_spec. reflexivity.
  - apply wf_inputb_spec. reflexivity.
  - intros e H. simpl in H.
    repeat (destruct H as [<-|H]); simpl; try lia; destruct H.
  - intros e H. simpl in H.
    repeat (destruct H as [<-|H]); simpl; try lia; destruct H.
  - unfold INT_MAX. lia.
  - unfold INT_MAX. lia.
  - intros e Hloop Hroot. simpl.
    split; intros H; repeat (destruct H as [<-|H]); simpl in *;
      try tauto; try lia.
  - simpl. lia.
Defined.

(** ** The solver on a contracted graph *)

(** X8: when no two weights of a snapshot differ by more than [INT_MAX]
    and the first iteration on it contracts, the run ends as a fresh call
    on the contracted graph does: with the failure value if that call
    fails, and otherwise with its total added, in [int] arithmetic, to
    the weight that the iteration has accumulated.  The stale contents of
    the working vectors have no influence. *)
Theorem run_after_contraction (fuel : nat) (s s' : state) :
  state_ok s ->
  (Z.to_nat (st_n s) <= fuel)%nat ->
  in_int (st_minWeight s) ->
  spread INT_MAX (st_edges s) ->
  iteration fuel s = Ok (inl s') ->
  exists o o',
    solver_loop fuel fuel s = Ok o /\
    chuLiuEdmonds_run fuel (st_n s') (st_root s') (st_edges s') = Ok o' /\
    out_exit o = out_exit o' /\
    match out_exit o' with
    | ExitTotal => out_value o = wrap (st_minWeight s' + out_value o')
    | ExitNoArborescence => out_value o = -1 /\ out_value o' = -1
    end.
Proof.
  intros Hok Hfuel Hacc Hspread Hit.
  destruct (iteration_spec fuel s s Hok (state_sim_refl s) Hfuel)
    as (rx & r & Hrx & Hr & Hpost & Hsim).
  rewrite Hit in Hr. injection Hr as <-.
  destruct rx as [sx'|ox]; cbn [step_sim] in Hsim; [|contradiction].
  pose proof (contracted_weights s sx' INT_MAX Hpost Hspread) as Hw.
  pose proof (iteration_in_int fuel s (inl s') Hacc Hit) as Hacc'.
  cbn beta iota in Hacc'.
  assert (Hok' : state_ok s').
  { apply (step_sim_ok sx'); [exact Hsim|]. now destruct Hpost. }
  destruct Hpost as (_ & Hlt & _).
  destruct Hsim as (Hn' & _ & He' & _).
  rewrite map_wrap_edge_id in He'.
  2:{ intros e He. specialize (Hw e He).
      unfold in_int, INT_MIN, INT_MAX in *. lia. }
  rewrite <- He' in Hw. rewrite <- Hn' in Hlt.
  assert (Hspread' : spread INT_MAX (st_edges s')).
  { intros e1 e2 H1 H2. specialize (Hw e1 H1) as Hw1.
    specialize (Hw e2 H2) as Hw2. lia. }
  pose proof Hok' as (Hwf' & _). pose proof Hwf' as (Hn1 & _).
  destruct fuel as [|fuel']; [destruct Hok as ((Hn & _) & _); lia|].
  (* the rest of the run, beside the reference *)
  destruct (solver_agrees (S fuel') INT_MAX fuel' s' s' Hok'
              (state_sim_refl s') Hacc' Hspread')
    as (ox1 & o1 & Hox1 & Ho1 & Hexit1 & _ & Hval1 & Hint1 & Hfail1);
    [lia|lia|lia|].
  destruct (solver_exact_spec (S fuel') fuel' s' Hok')
    as (ox1' & Hox1' & Hpost1); [lia|lia|].
  rewrite Hox1 in Hox1'. injection Hox1' as <-.
  (* the fresh call, beside the reference *)
  assert (Hok0 : state_ok
            (initial_state (st_n s') (st_root s') (st_edges s')))
    by (now apply initial_state_ok).
  destruct (solver_agrees (S fuel') INT_MAX (S fuel')
              (initial_state (st_n s') (st_root s') (st_edges s'))
              (initial_state (st_n s') (st_root s') (st_edges s')) Hok0
              (state_sim_refl _))
    as (ox2 & o2 & Hox2 & Ho2 & Hexit2 & _ & Hval2 & Hint2 & Hfail2);
    try (cbn [initial_state st_n st_edges st_minWeight]; lia || assumption).
  { cbn. unfold in_int, INT_MIN, INT_MAX. lia. }
  destruct (run_exact_spec (S fuel') (st_n s') (st_root s') (st_edges s')
              Hwf') as (ox2' & Hox2' & Hpost2); [lia|].
  unfold chuLiuEdmonds_run_exact in Hox2'.
  rewrite Hox2 in Hox2'. injection Hox2' as <-.
  exists o1, o2. split.
  { unfold solver_loop in Ho1 |- *. cbn [while_loop]. rewrite Hit.
    exact Ho1. }
  split; [exact Ho2|].
  rewrite Hexit1, Hexit2. unfold solver_post in Hpost1.
  destruct Hpost1 as [(He1 & Hmin1)|(He1 & Hv1 & v & Hv & Hne & Hnr)];
    destruct Hpost2 as [(He2 & Hmin2)|(He2 & Hv2 & v' & Hv' & Hne' & Hnr')];
    rewrite He1, He2.
  - split; [reflexivity|].
    assert (Heq : out_value ox1 - st_minWeight s' = out_value ox2)
      by (now apply (min_arb_weight_unique (st_n s') (st_root s')
                       (st_edges s'))).
    rewrite <- (wrap_id (out_value o1) Hint1), Hval1.
    replace (out_value ox1) with (st_minWeight s' + out_value ox2) by lia.
    rewrite <- wrap_add_r, <- Hval2, wrap_add_r. reflexivity.
  - exfalso. apply Hnr'. destruct Hmin1 as ((A & HA & _) & _).
    now apply (arborescence_all_reachable (st_n s') _ (st_edges s') A).
  - exfalso. apply Hnr. destruct Hmin2 as ((A & HA & _) & _).
    now apply (arborescence_all_reachable (st_n s') _ (st_edges s') A).
  - split; [reflexivity|].
    rewrite (Hfail1 He1), (Hfail2 He2). split; assumption.
Qed.

Lemma run_after_contraction_witness :
  exists o o',
    solver_loop 3 3 (initial_state 3 0 [E 0 1 10; E 1 2 20; E 2 1 5]) = Ok o /\
    chuLiuEdmonds_run 3 2 0 [E 0 1 5] = Ok o' /\
    out_exit o = out_exit o' /\
    match out_exit o' with
    | ExitTotal => out_value o = wrap (25 + out_value o')
    | ExitNoArborescence => out_value o = -1 /\ out_value o' = -1
    end.
Proof.
  apply (run_after_contraction 3
           (initial_state 3 0 [E 0 1 10; E 1 2 20; E 2 1 5])
           (mkState 2 0 [E 0 1 5] 25 [-1; 2; 1] [-1; 0; 0] [2; 2; 2])).
  - apply initial_state_ok. apply wf_inputb_spec. reflexivity.
  - simpl. lia.
  - cbn. unfold in_int, INT_MIN, INT_MAX. lia.
  - intros e1 e2 H1 H2. simpl in H1, H2.
    destruct H1 as [<-|[<-|[<-|[]]]]; destruct H2 as [<-|[<-|[<-|[]]]];
      unfold INT_MAX; simpl; lia.
  - vm_compute. reflexivity.
Defined.

(** ** Adding a constant to every weight *)

Lemma shift_shift (c : Z) (e : Edge) : shift (- c) (shift c e) = e.
Proof.
  destruct e as [a b w]. unfold shift. cbn. f_equal. lia.
Qed.

Lemma climbs_same_sources (A B : Z -> Edge) (root v : Z) :
  (forall u, from (B u) = from (A u)) ->
  climbs A root v -> climbs B root v.
Proof.
  intros Heq. induction 1 as [|v Hne Hc IH]; [apply climbs_root|].
  apply climbs_step; [assumption|]. now rewrite Heq.
Qed.

Lemma arborescence_shift (n root : Z) (edges : list Edge) (c : Z)
  (A : Z -> Edge) :
  0 <= root < n ->
  arborescence n root edges A ->
  arborescence n root (map (shift c) edges) (fun v => shift c (A v)) /\
  arb_weight n root (fun v => shift c (A v)) =
  arb_weight n root A + c * (n - 1).
Proof.
  intros Hroot (HA & Hclimb). split; [split|].
  - intros v Hv Hne. destruct (HA v Hv Hne) as (Hin & Hto).
    split; [now apply in_map|exact Hto].
  - intros v Hv. apply (climbs_same_sources A); [reflexivity|auto].
  - unfold arb_weight. cbn [shift weight].
    rewrite (zsum_plus (fun v => weight (A v)) (fun _ => c)).
    f_equal. rewrite <- (length_nonroot n root Hroot).
    induction (nonroot n root) as [|x l IH]; [cbn; lia|].
    cbn [zsum fold_right length]. fold (zsum (fun _ : Z => c) l). lia.
Qed.

Lemma min_arb_weight_shift (n root : Z) (edges : list Edge) (c w : Z) :
  0 <= root < n ->
  min_arb_weight n root edges w ->
  min_arb_weight n root (map (shift c) edges) (w + c * (n - 1)).
Proof.
  intros Hroot ((A & HA & Hw) & Hmin). split.
  - destruct (arborescence_shift n root edges c A Hroot HA) as (HA' & Hw').
    exists (fun v => shift c (A v)). split; [assumption|lia].
  - intros B HB.
    destruct (arborescence_shift n root (map (shift c) edges) (- c) B Hroot HB)
      as (HB' & Hw').
    assert (HB0 : arborescence n root edges (fun v => shift (- c) (B v))).
    { apply (arborescence_incl n root
               (map (shift (- c)) (map (shift c) edges))); [|assumption].
      intros e He. apply in_map_iff in He. destruct He as (e1 & <- & He1).
      apply in_map_iff in He1. destruct He1 as (e0 & <- & He0).
      now rewrite shift_shift. }
    specialize (Hmin _ HB0). lia.
Qed.

(** X9: on an input that has a spanning arborescence, adding a constant
    [c] to the weight of every edge adds [c * (n - 1)] to the returned
    value, when the weights before and after have absolute value at most
    [W], where [W] and [(n - 1) * W] are at most [INT_MAX]. *)
Theorem weight_shift (fuel : nat) (n root : Z) (edges : list Edge)
  (c W : Z) :
  wf_input n root edges ->
  weights_within W edges ->
  weights_within W (map (shift c) edges) ->
  W <= INT_MAX ->
  (n - 1) * W <= INT_MAX ->
  (exists T, arborescence_edges n root edges T) ->
  (Z.to_nat n <= fuel)%nat ->
  exists w out1 out2,
    chuLiuEdmonds fuel n root edges = Ok (w, out1) /\
    chuLiuEdmonds fuel n root (map (shift c) edges) =
      Ok (w + c * (n - 1), out2).
Proof.
  intros Hwf HW HWc HWmax Hsum HT Hfuel.
  pose proof Hwf as (Hn & Hroot & Hedges).
  assert (Harb := arborescence_edges_map n root edges Hwf HT).
  assert (Hwf' : wf_input n root (map (shift c) edges)).
  { split; [assumption|]. split; [assumption|]. intros e He.
    apply in_map_iff in He. destruct He as (e0 & <- & He0).
    cbn [shift from to]. now apply Hedges. }
  destruct (minimum_of_run fuel n root edges W Hwf HW HWmax Hsum Harb Hfuel)
    as (w & out1 & Hrun1 & Hmin1).
  destruct (minimum_of_run fuel n root (map (shift c) edges) W Hwf' HWc
              HWmax Hsum)
    as (w' & out2 & Hrun2 & Hmin2); [|assumption|].
  { destruct Harb as (A & HA).
    exists (fun v => shift c (A v)).
    now apply (arborescence_shift n root edges c A). }
  exists w, out1, out2. split; [assumption|].
  rewrite Hrun2. do 2 f_equal.
  apply (min_arb_weight_unique n root (map (shift c) edges)); [assumption|].
  now apply min_arb_weight_shift.
Qed.

Lemma weight_shift_witness :
  exists w out1 out2,
    chuLiuEdmonds 2 2 0 [E 0 1 (-1)] = Ok (w, out1) /\
    chuLiuEdmonds 2 2 0 (map (shift 100) [E 0 1 (-1)]) =
      Ok (w + 100 * (2 - 1), out2).
Proof.
  apply (weight_shift 2 2 0 [E 0 1 (-1)] 100 99).
  - apply wf_inputb_spec. reflexivity.
  - apply weights_within_one. lia.
  - intros e [<-|[]]. simpl. lia.
  - unfold INT_MAX. lia.
  - unfold INT_MAX. lia.
  - exists [E 0 1 (-1)]. apply single_edge_arborescence_edges.
  - simpl. lia.
Defined.

(** ** The returned value *)

(** X10: when all weights have absolute value at most [W], where [W] and
    [(n - 1) * W] are at most [INT_MAX], the returned value is the
    failure value [-1] exactly when some vertex is not reachable from the
    root or the minimum weight of a spanning arborescence is [-1]; in
    every other case it is that minimum weight. *)
Theorem returned_value (fuel : nat) (n root : Z) (edges : list Edge)
  (W : Z) :
  wf_input n root edges ->
  weights_within W edges ->
  W <= INT_MAX ->
  (n - 1) * W <= INT_MAX ->
  (Z.to_nat n <= fuel)%nat ->
  exists w out,
    chuLiuEdmonds fuel n root edges = Ok (w, out) /\
    (w = NO_ARBORESCENCE <->
     (exists v, 0 <= v < n /\ v <> root /\ ~ reach edges root v) \/
     min_arb_weight n root edges (-1)) /\
    (w <> NO_ARBORESCENCE -> min_arb_weight n root edges w).
Proof.
  intros Hwf HW HWmax Hsum Hfuel.
  destruct (run_minimum fuel n root edges W Hwf HW HWmax Hsum Hfuel)
    as (o & Ho & [(Hexit & Hmin)|(Hexit & Hval & Hun)]);
    exists (out_value o), (out_edges o); unfold chuLiuEdmonds;
    rewrite Ho; cbn [bind]; (split; [reflexivity|]);
    unfold NO_ARBORESCENCE.
  - split; [|intros _; assumption]. split.
    + intros Heq. right. now rewrite <- Heq.
    + intros [(v & Hv & Hne & Hnr)|Hm].
      * exfalso. apply Hnr. destruct Hmin as ((A & HA & _) & _).
        now apply (arborescence_all_reachable n root edges A).
      * now apply (min_arb_weight_unique n root edges).
  - split; [|intros Hne; contradiction]. split; [now left|auto].
Qed.

Lemma returned_value_witness :
  exists w out,
    chuLiuEdmonds 2 2 0 [E 0 1 (-1)] = Ok (w, out) /\
    (w = NO_ARBORESCENCE <->
     (exists v, 0 <= v < 2 /\ v <> 0 /\ ~ reach [E 0 1 (-1)] 0 v) \/
     min_arb_weight 2 0 [E 0 1 (-1)] (-1)) /\
    (w <> NO_ARBORESCENCE -> min_arb_weight 2 0 [E 0 1 (-1)] w).
Proof.
  apply (returned_value 2 2 0 [E 0 1 (-1)] 1).
  - apply wf_inputb_spec. reflexivity.
  - apply weights_within_one. lia.
  - unfold INT_MAX. lia.
  - unfold INT_MAX. lia.
  - simpl. lia.
Defined.

(** ** The returned value modulo [2^32] *)

(** X11: on an input that has a spanning arborescence and in which no two
    weights differ by more than [INT_MAX], the returned value is the
    minimum weight of a spanning arborescence reduced to an [int]: the
    subtractions of line 121 do not overflow, and the additions of line 89
    lose at most a multiple of [2^32]. *)
Theorem total_modulo_int (fuel : nat) (n root : Z) (edges : list Edge) :
  wf_input n root edges ->
  spread INT_MAX edges ->
  (exists T, arborescence_edges n root edges T) ->
  (Z.to_nat n <= fuel)%nat ->
  exists w m edges',
    chuLiuEdmonds fuel n root edges = Ok (w, edges') /\
    min_arb_weight n root edges m /\
    w = wrap m.
Proof.
  intros Hwf Hspread HT Hfuel.
  destruct (arborescence_edges_map n root edges Hwf HT) as (A & HA).
  destruct (solver_agrees fuel INT_MAX fuel (initial_state n root edges)
              (initial_state n root edges))
    as (ox & o & Hox & Ho & _ & _ & Hval & Hint & _);
    try (cbn [initial_state st_n st_edges]; lia || assumption).
  - now apply initial_state_ok.
  - apply state_sim_refl.
  - cbn. unfold in_int, INT_MIN, INT_MAX. lia.
  - destruct (run_exact_spec fuel n root edges Hwf Hfuel)
      as (ox' & Hox' & Hpost).
    unfold chuLiuEdmonds_run_exact in Hox'.
    rewrite Hox in Hox'. injection Hox' as <-.
    exists (out_value o), (out_value ox), (out_edges o).
    split; [|split].
    + unfold chuLiuEdmonds, chuLiuEdmonds_run. now rewrite Ho.
    + destruct Hpost as [(_ & Hmin)|(_ & _ & v & Hv & Hne & Hnr)];
        [assumption|].
      exfalso. apply Hnr.
      now apply (arborescence_all_reachable n root edges A).
    + rewrite <- Hval. symmetry. now apply wrap_id.
Qed.

Lemma total_modulo_int_witness :
  exists w m edges',
    chuLiuEdmonds 3 3 0 [E 0 1 2147483647; E 0 2 1] = Ok (w, edges') /\
    min_arb_weight 3 0 [E 0 1 2147483647; E 0 2 1] m /\
    w = wrap m.
Proof.
  apply total_modulo_int.
  - apply wf_inputb_spec. reflexivity.
  - intros e1 e2 H1 H2. simpl in H1, H2.
    destruct H1 as [<-|[<-|[]]]; destruct H2 as [<-|[<-|[]]];
      unfold INT_MAX; simpl; lia.
  - exists [E 0 1 2147483647; E 0 2 1].
    split; [apply incl_refl|]. split; [|split].
    + intros v Hv Hne. assert (Hv' : v = 1 \/ v = 2) by lia.
      destruct Hv' as [->| ->]; reflexivity.
    + reflexivity.
    + intros v Hv. assert (Hv' : v = 0 \/ v = 1 \/ v = 2) by lia.
      destruct Hv' as [->|[->| ->]]; [apply reach_refl| |].
      * change 1 with (to (E 0 1 2147483647)).
        apply reach_edge; [apply reach_refl|]. now left.
      * change 2 with (to (E 0 2 1)).
        apply reach_edge; [apply reach_refl|]. right. now left.
  - simpl. lia.
Defined.
